(** * AIVOLVE study hub: the text-analysis pipeline of [app.py]

    A shallow embedding of the four pipeline functions of [app.py]
    ([extractive_summary], [generate_quiz], [extract_concepts] and the
    grading loop of [feedback_api]) together with the properties the
    design document states about them.

    Modelling conventions.
    - Python [str] values are [string]s of 7-bit ASCII characters: the
      model covers ASCII text, and the character predicates treat code
      points above 127 as neither letters, digits nor white space.
      [lower] is not taken to keep a word alphabetic, which it does on
      ASCII text but not on all of Unicode.
    - Python [int]s that count things are [nat]; indices that may be
      negative ([correct_idx]) and submitted numbers are [Z].
    - The score of a sentence is a [float] that is only ever compared:
      the type of scores, the true division [a / b] of two non-negative
      integers and the comparison [<=] are parameters of the Summarizer,
      and the theorems assume no more than that [<=] is a total preorder
      (as it is on the floats a division returns).  Concrete runs are
      evaluated with the exact rational [a # b] of [QArith] as the
      quotient.
    - The percentage of the Scorer is computed, not just compared, and
      it is computed in binary64 arithmetic: a finite [float] is the
      rational it denotes, the quotient [score / total] and the product
      by [100] are each rounded to the nearest float, ties to the even
      significand, and [round(x, 1)] is the decimal with one digit
      nearest to the exact value of the float [x], ties to the even
      digit.  The float [round] returns is the one nearest to that
      decimal, and it is printed and stored as that decimal: the model
      keeps the decimal.
    - A value decoded from JSON is a [JValue]: [null], a boolean, an
      integer, a float (finite, infinite or NaN), a string, an array or
      an object.
    - [dict], [Counter] and [FreqDist] are association lists in insertion
      order (the order [sorted] and [most_common] iterate in).
    - [list(set(l))] depends on the hash order of the interpreter: it is
      a parameter [list_of_set] of the model.
    - The NLTK services ([sent_tokenize], [word_tokenize], [pos_tag] and
      the English stop-word list) are parameters as well.
    - The [random] module is a state monad over a stream of raw draws.
    - A call that raises an exception returns [None]. *)

From Stdlib Require Import List String Ascii Arith ZArith QArith Qround Qpower.
From Stdlib Require Import Bool Lia Lqa Permutation Sorted.
Import ListNotations.

Local Open Scope nat_scope.
Local Open Scope list_scope.

(** ** Python string methods *)

Module PyStr.

Definition code (c : ascii) : nat := nat_of_ascii c.

Definition is_upper (c : ascii) : bool := (65 <=? code c) && (code c <=? 90).
Definition is_lower (c : ascii) : bool := (97 <=? code c) && (code c <=? 122).
Definition is_digit (c : ascii) : bool := (48 <=? code c) && (code c <=? 57).
Definition is_alpha (c : ascii) : bool := is_upper c || is_lower c.
Definition is_alnum (c : ascii) : bool := is_alpha c || is_digit c.

(** [str.isspace] on one ASCII character: TAB, LF, VT, FF, CR, the four
    separators FS, GS, RS, US, and the space. *)
Definition is_space (c : ascii) : bool :=
  ((9 <=? code c) && (code c <=? 13)) ||
  ((28 <=? code c) && (code c <=? 32)).

Definition char_lower (c : ascii) : ascii :=
  if is_upper c then ascii_of_nat (code c + 32) else c.

Definition char_upper (c : ascii) : ascii :=
  if is_lower c then ascii_of_nat (code c - 32) else c.

Fixpoint str_map (f : ascii -> ascii) (s : string) : string :=
  match s with
  | EmptyString => EmptyString
  | String c r => String (f c) (str_map f r)
  end.

Fixpoint str_forall (p : ascii -> bool) (s : string) : bool :=
  match s with
  | EmptyString => true
  | String c r => p c && str_forall p r
  end.

Definition is_empty (s : string) : bool :=
  match s with EmptyString => true | _ => false end.

(** [s.lower()] *)
Definition lower (s : string) : string := str_map char_lower s.

(** [s.isalnum()] and [s.isalpha()]: false on the empty string. *)
Definition isalnum (s : string) : bool := negb (is_empty s) && str_forall is_alnum s.
Definition isalpha (s : string) : bool := negb (is_empty s) && str_forall is_alpha s.

(** [s.capitalize()]: first character upper-cased, the rest lower-cased. *)
Definition capitalize (s : string) : string :=
  match s with
  | EmptyString => EmptyString
  | String c r => String (char_upper c) (lower r)
  end.

Fixpoint lstrip_by (p : ascii -> bool) (s : string) : string :=
  match s with
  | EmptyString => EmptyString
  | String c r => if p c then lstrip_by p r else s
  end.

(** Drops the trailing characters satisfying [p]: the result of the tail
    is emptied only when the whole tail was dropped. *)
Fixpoint rstrip_by (p : ascii -> bool) (s : string) : string :=
  match s with
  | EmptyString => EmptyString
  | String c r =>
      match rstrip_by p r with
      | EmptyString => if p c then EmptyString else String c EmptyString
      | r' => String c r'
      end
  end.

Definition strip_by (p : ascii -> bool) (s : string) : string :=
  rstrip_by p (lstrip_by p s).

(** [s.strip()] *)
Definition strip (s : string) : string := strip_by is_space s.

Fixpoint char_in (c : ascii) (chars : string) : bool :=
  match chars with
  | EmptyString => false
  | String d r => Ascii.eqb c d || char_in c r
  end.

(** [s.strip(chars)] *)
Definition strip_chars (chars s : string) : string :=
  strip_by (fun c => char_in c chars) s.

(** [needle in hay] *)
Fixpoint contains (needle hay : string) : bool :=
  String.prefix needle hay ||
  match hay with
  | EmptyString => false
  | String _ r => contains needle r
  end.

(** [pos.startswith(p)] *)
Definition startswith (p s : string) : bool := String.prefix p s.

(** [sep.join(l)] *)
Definition join (sep : string) (l : list string) : string := String.concat sep l.

Fixpoint drop (n : nat) (s : string) : string :=
  match n, s with
  | O, _ => s
  | S _, EmptyString => EmptyString
  | S n', String _ r => drop n' r
  end.

(** A literal pattern compiled with [re.IGNORECASE] matches at the head
    of [s] when the two agree character by character up to case. *)
Fixpoint ci_prefix (pat s : string) : bool :=
  match pat, s with
  | EmptyString, _ => true
  | String _ _, EmptyString => false
  | String a pat', String b s' =>
      Ascii.eqb (char_lower a) (char_lower b) && ci_prefix pat' s'
  end.

(** Some position of [s] where the pattern matches. *)
Fixpoint ci_occurs (pat s : string) : bool :=
  ci_prefix pat s ||
  match s with
  | EmptyString => false
  | String _ r => ci_occurs pat r
  end.

(** [re.compile(re.escape(pat), re.IGNORECASE).sub(repl, s, count=1)]:
    the leftmost match is replaced, the rest of [s] is kept. *)
Fixpoint re_sub_first (pat repl s : string) : string :=
  if ci_prefix pat s then String.append repl (drop (String.length pat) s)
  else match s with
       | EmptyString => EmptyString
       | String c r => String c (re_sub_first pat repl r)
       end.

Definition mem (s : string) (l : list string) : bool := existsb (String.eqb s) l.

End PyStr.

(** ** Python collections: insertion-ordered dictionaries, [Counter],
    stable sorting *)

Module PyColl.

Section Dict.
Context {V : Type}.

(** [d[k] = v]: an existing key keeps its position, a new key goes last. *)
Fixpoint dict_set (k : string) (v : V) (d : list (string * V)) : list (string * V) :=
  match d with
  | [] => [(k, v)]
  | (k', v') :: r =>
      if String.eqb k' k then (k', v) :: r else (k', v') :: dict_set k v r
  end.

(** [d.get(k)] *)
Fixpoint dict_get (d : list (string * V)) (k : string) : option V :=
  match d with
  | [] => None
  | (k', v') :: r => if String.eqb k' k then Some v' else dict_get r k
  end.

(** Iterating over a dictionary yields its keys in insertion order. *)
Definition dict_keys (d : list (string * V)) : list string := map fst d.
End Dict.

(** [c[w] += 1] on a [Counter] *)
Fixpoint counter_incr (w : string) (c : list (string * nat)) : list (string * nat) :=
  match c with
  | [] => [(w, 1)]
  | (k, n) :: r =>
      if String.eqb k w then (k, S n) :: r else (k, n) :: counter_incr w r
  end.

(** [Counter(words)] and [FreqDist(words)] *)
Definition Counter (words : list string) : list (string * nat) :=
  fold_left (fun c w => counter_incr w c) words [].

(** [w in c] *)
Definition counter_mem (c : list (string * nat)) (w : string) : bool :=
  match dict_get c w with Some _ => true | None => false end.

(** [c[w]]: a missing key counts 0. *)
Definition counter_get (c : list (string * nat)) (w : string) : nat :=
  match dict_get c w with Some n => n | None => 0 end.

Section Sorting.
Context {A K : Type}.
Variable key : A -> K.
Variable leb : K -> K -> bool.

(** [x] comes from an earlier position than every element of [l]: it is
    placed before the first element whose key does not exceed its own. *)
Fixpoint insert_desc (x : A) (l : list A) : list A :=
  match l with
  | [] => [x]
  | y :: r => if leb (key y) (key x) then x :: l else y :: insert_desc x r
  end.

(** [sorted(l, key=key, reverse=True)]: descending by key, elements with
    equal keys in their original order. *)
Definition sorted_reverse (l : list A) : list A := fold_right insert_desc [] l.
End Sorting.

(** [c.most_common(n)]: [heapq.nlargest(n, c.items(), key=itemgetter(1))],
    that is [sorted(c.items(), key=itemgetter(1), reverse=True)[:n]]. *)
Definition most_common (c : list (string * nat)) (n : nat) : list (string * nat) :=
  firstn n (sorted_reverse snd Nat.leb c).

(** Position of the first occurrence of [x], [length l] when absent. *)
Fixpoint index_of (x : string) (l : list string) : nat :=
  match l with
  | [] => 0
  | y :: r => if String.eqb y x then 0 else S (index_of x r)
  end.

(** [small] can be read off [big] from left to right. *)
Fixpoint is_subsequence (small big : list string) : bool :=
  match small, big with
  | [], _ => true
  | _ :: _, [] => false
  | x :: small', y :: big' =>
      if String.eqb x y then is_subsequence small' big'
      else is_subsequence small big'
  end.

End PyColl.

(** ** The [random] module

    A generator state is the stream of raw draws still to come; an
    exhausted stream draws 0.  Every outcome of [random.choice],
    [random.sample] and [random.shuffle] is reached by some stream. *)

Module PyRandom.

Definition Rng : Type := list nat.
Definition M (A : Type) : Type := Rng -> A * Rng.

Definition ret {A} (a : A) : M A := fun r => (a, r).
Definition bind {A B} (m : M A) (f : A -> M B) : M B :=
  fun r => let (a, r') := m r in f a r'.

Declare Scope rng_scope.
Delimit Scope rng_scope with rng.
Notation "x <- m ;; k" := (bind m (fun x => k))
  (at level 61, m at next level, right associativity) : rng_scope.

Local Open Scope rng_scope.

(** An index below [n] (for [n > 0]). *)
Definition randbelow (n : nat) : M nat :=
  fun r => match r with
           | [] => (0, [])
           | x :: r' => (x mod n, r')
           end.

(** [random.choice(l)] on a non-empty list; [d] is never returned then. *)
Definition choice {A} (d : A) (l : list A) : M A :=
  i <- randbelow (List.length l) ;; ret (nth i l d).

Fixpoint remove_at {A} (i : nat) (l : list A) : list A :=
  match i, l with
  | _, [] => []
  | O, _ :: r => r
  | S i', x :: r => x :: remove_at i' r
  end.

(** [random.sample(l, k)] for [k <= len(l)]: [k] draws without
    replacement, by position. *)
Fixpoint sample {A} (l : list A) (k : nat) : M (list A) :=
  match k with
  | O => ret []
  | S k' =>
      i <- randbelow (List.length l) ;;
      match nth_error l i with
      | Some x => rest <- sample (remove_at i l) k' ;; ret (x :: rest)
      | None => ret []
      end
  end.

(** [random.shuffle(l)]: a rearrangement of [l]. *)
Definition shuffle {A} (l : list A) : M (list A) := sample l (List.length l).

End PyRandom.

(** ** Python numbers

    Integers are exact; a finite [float] is the rational it denotes. *)

Module PyNum.

(** The quotient of two non-negative integers [a] and [b > 0], without
    rounding. *)
Definition exact_div (a b : nat) : Q := Z.of_nat a # Pos.of_nat b.

(** Nearest integer, halves to the even neighbour. *)
Definition round_half_even (x : Q) : Z :=
  let f := Qfloor x in
  match Qcompare (x - inject_Z f) (1 # 2) with
  | Lt => f
  | Gt => (f + 1)%Z
  | Eq => if Z.even f then f else (f + 1)%Z
  end.

Definition pow2 (e : Z) : Q := Qpower 2 e.

(** The exponent [e] of the binade of [x > 0]: [2^e <= x < 2^(e+1)].
    The difference of the bit lengths of numerator and denominator is
    [e] or [e + 1]. *)
Definition ilog2 (x : Q) : Z :=
  let e := (Z.log2 (Qnum x) - Z.log2 (Z.pos (Qden x)))%Z in
  if Qle_bool (pow2 e) x then e else (e - 1)%Z.

(** The binary64 number nearest to [x > 0], ties to the even
    significand: 53 significant bits, the unit in the last place never
    below [2^-1074].  Floats are kept in lowest terms.  (No overflow:
    the numbers rounded here do not exceed 100.) *)
Definition round_pos (x : Q) : Q :=
  let q := Z.max (ilog2 x - 52) (-1074) in
  Qred (inject_Z (round_half_even (x / pow2 q)) * pow2 q).

Definition binary64 (x : Q) : Q :=
  match Qcompare x 0 with
  | Eq => 0
  | Gt => round_pos x
  | Lt => - round_pos (- x)
  end.

(** [a / b] on two [int]s: the float nearest to the quotient. *)
Definition float_div (a b : nat) : Q := binary64 (exact_div a b).

(** [x * y] on two floats. *)
Definition float_mul (x y : Q) : Q := binary64 (x * y).

(** [round(x, 1)] on the float [x]: the one-digit decimal nearest to the
    exact value of [x]. *)
Definition py_round1 (x : Q) : Q := round_half_even (x * 10) # 10.

End PyNum.

Import PyStr PyColl PyRandom PyNum.

Local Open Scope string_scope.

(** ** Data model *)

(** A quiz item is the dictionary [generate_quiz] (or [quiz_page], for the
    placeholder item) builds; a key the dictionary lacks is [None]. *)
Record QuizItem : Type := mkItem {
  item_type   : option string;
  question    : string;
  answer      : option string;
  options     : option (list string);
  correct_idx : option Z
}.

(** A [float]: a finite number, an infinity or NaN. *)
Inductive PyFloat : Type :=
| Finite (x : Q)
| Infinite (negative : bool)
| NaN.

(** A value decoded from the JSON request.  The members of an object
    are the items of the decoded [dict], in insertion order. *)
#[local] Unset Elimination Schemes.
Inductive JValue : Type :=
| JNull
| JBool (b : bool)
| JInt (z : Z)
| JFloat (f : PyFloat)
| JStr (s : string)
| JArray (items : list JValue)
| JObject (members : list (string * JValue)).
#[local] Set Elimination Schemes.

(** The [stats] dictionary of [feedback_api]. *)
Record Stats : Type := mkStats {
  score        : nat;
  total        : nat;
  percentage   : Q;
  per_question : list nat;
  weak_areas   : list string
}.

(** ** The pipeline, over the NLTK services *)

Section Pipeline.

Variable sent_tokenize : string -> list string.
Variable word_tokenize : string -> list string.
Variable pos_tag : list string -> list (string * string).
Variable stop_words : list string.
(** [list(set(l))]: the distinct elements of [l] in hash order. *)
Variable list_of_set : list string -> list string.
(** The type of sentence scores, with [a / b] and [x <= y] on it. *)
Variable Score : Type.
Variable true_div : nat -> nat -> Score.
Variable score_leb : Score -> Score -> bool.

(** *** Summarizer: [extractive_summary] *)

(** Lines 27-30: the words the frequency table is built from. *)
Definition doc_words (text : string) : list string :=
  map lower
    (filter (fun w => isalnum w && negb (mem (lower w) stop_words))
            (word_tokenize text)).

(** Lines 35-38. *)
Definition sent_words (sent : string) : list string :=
  map lower (filter isalnum (word_tokenize sent)).

(** Line 41: [sum(freq[w] for w in sent_words if w in freq)]. *)
Definition score_sum (freq : list (string * nat)) (ws : list string) : nat :=
  list_sum (map (counter_get freq) (filter (counter_mem freq) ws)).

(** Line 42: [score / len(sent_words)], for a non-empty [sent_words]. *)
Definition sentence_score (freq : list (string * nat)) (ws : list string) : Score :=
  true_div (score_sum freq ws) (List.length ws).

(** Lines 33-42: one iteration of the scoring loop. *)
Definition score_step (freq : list (string * nat))
           (scores : list (string * Score)) (sent : string) : list (string * Score) :=
  match sent_words sent with
  | [] => scores
  | ws => dict_set sent (sentence_score freq ws) scores
  end.

Definition build_scores (text : string) : list (string * Score) :=
  fold_left (score_step (Counter (doc_words text))) (sent_tokenize text) [].

(** [scores.get], as the sort key; every sorted element is a key of
    [scores], so the default is never used. *)
Definition score_of (scores : list (string * Score)) (sent : string) : Score :=
  match dict_get scores sent with Some x => x | None => true_div 0 1 end.

(** Line 44. *)
Definition top_sentences (text : string) (num_sents : nat) : list string :=
  let scores := build_scores text in
  firstn num_sents (sorted_reverse (score_of scores) score_leb (dict_keys scores)).

(** The sentences joined into the summary. *)
Definition summary_sentences (text : string) (num_sents : nat) : list string :=
  let sentences := sent_tokenize text in
  if (List.length sentences <=? num_sents)%nat then sentences
  else top_sentences text num_sents.

Definition extractive_summary (text : string) (num_sents : nat) : string :=
  join " " (summary_sentences text num_sents).

(** *** Concept Extractor: [extract_concepts] *)

Definition concept_words (summary : string) : list string :=
  map lower
    (filter (fun w => isalpha w && negb (mem (lower w) stop_words))
            (word_tokenize summary)).

(** The result is a list of [{'term': w, 'count': c}] entries. *)
Definition extract_concepts (summary : string) (top_n : nat) : list (string * nat) :=
  most_common (Counter (concept_words summary)) top_n.

(** *** Quiz Synthesizer: [generate_quiz] *)

Definition lexicon : list string :=
  ["system"; "method"; "data"; "model"; "process"; "example"; "result"].

(** Lines 52-54. *)
Definition nouns_of (summary : string) : list string :=
  list_of_set
    (map fst (filter (fun wp => startswith "NN" (snd wp))
                     (pos_tag (word_tokenize (lower summary))))).

(** Lines 74-76. *)
Definition question_text (target sent : string) : string :=
  strip (re_sub_first target "____" sent).

Definition ans_clean (target : string) : string := strip_chars ".,;:!?" target.

Local Open Scope rng_scope.

(** Lines 78-92. *)
Definition mcq_item (target sent : string) : M QuizItem :=
  distractors <- sample lexicon 3 ;;
  let correct := capitalize (ans_clean target) in
  shuffled <- shuffle (correct :: distractors) ;;
  ret {| item_type := Some "mcq";
         question := question_text target sent;
         answer := Some correct;
         options := Some shuffled;
         correct_idx := Some (Z.of_nat (index_of correct shuffled)) |}.

(** Lines 94-98. *)
Definition short_item (target sent : string) : QuizItem :=
  {| item_type := Some "short";
     question := question_text target sent;
     answer := Some (lower (ans_clean target));
     options := None;
     correct_idx := None |}.

(** Lines 67-98: the item for slot [i], from the chosen sentence. *)
Definition make_item (nouns : list string) (num_questions i : nat)
           (sent : string) : M QuizItem :=
  target <- (match nouns with
             | [] => ret "concept"
             | _ => choice "concept" nouns
             end) ;;
  if (i <? num_questions / 2)%nat then mcq_item target sent
  else ret (short_item target sent).

(** Lines 59-98: the iterations [i, i+1, ...] of the loop, [todo] of
    them left.  [used] is [used_sentences] in order of insertion; the
    k-th item of [quiz] is built from the k-th element of [used]. *)
Fixpoint quiz_loop (sentences nouns : list string) (num_questions : nat)
         (todo i : nat) (quiz : list QuizItem) (used : list string)
  : M (list QuizItem * list string) :=
  match todo with
  | O => ret (quiz, used)
  | S todo' =>
      match filter (fun s => negb (mem s used)) sentences with
      | [] => ret (quiz, used)
      | available =>
          sent <- choice "" available ;;
          item <- make_item nouns num_questions i sent ;;
          quiz_loop sentences nouns num_questions todo' (S i)
                    (quiz ++ [item])%list (used ++ [sent])%list
      end
  end.

(** The quiz together with the sentence each item was built from. *)
Definition generate_quiz_trace (summary : string) (num_questions : nat)
  : M (list QuizItem * list string) :=
  match sent_tokenize summary with
  | [] => ret ([], [])
  | sentences =>
      quiz_loop sentences (nouns_of summary) num_questions
                num_questions 0 [] []
  end.

Definition generate_quiz (summary : string) (num_questions : nat) (r : Rng)
  : list QuizItem :=
  fst (fst (generate_quiz_trace summary num_questions r)).

Local Close Scope rng_scope.

(** *** Scorer: the grading loop of [feedback_api] *)

(** [bool(v)]: what [v or ""] tests. *)
Definition truthy (v : JValue) : bool :=
  match v with
  | JNull => false
  | JBool b => b
  | JInt z => negb (Z.eqb z 0)
  | JFloat (Finite x) => negb (Qeq_bool x 0)
  | JFloat _ => true
  | JStr s => negb (is_empty s)
  | JArray items => match items with [] => false | _ => true end
  | JObject members => match members with [] => false | _ => true end
  end.

(** [user_ans == n] for a stored integer [n]: numbers are compared by
    value ([True == 1], [2.0 == 2]), anything else differs from [n]. *)
Definition py_eq_int (user_ans : JValue) (n : Z) : bool :=
  match user_ans with
  | JInt z => Z.eqb z n
  | JBool b => Z.eqb (if b then 1 else 0) n
  | JFloat (Finite x) => Qeq_bool x (inject_Z n)
  | JFloat _ | JNull | JStr _ | JArray _ | JObject _ => false
  end.

(** [(user_ans or "").strip().lower()]; [None] when [strip] is called
    on a value that has no such method (AttributeError): a truthy value
    that is not a string. *)
Definition user_text_of (user_ans : JValue) : option string :=
  match user_ans with
  | JStr s => Some (lower (strip s))
  | _ => if truthy user_ans then None else Some (lower (strip ""))
  end.

(** Lines 234-242; [None] when an exception is raised. *)
Definition grade_item (q : QuizItem) (user_ans : JValue) : option bool :=
  let qtype := match item_type q with Some t => t | None => "mcq" end in
  if String.eqb qtype "mcq" then
    match correct_idx q with
    | Some idx => Some (py_eq_int user_ans idx)
    | None => None
    end
  else if String.eqb qtype "short" then
    match user_text_of user_ans with
    | None => None
    | Some user_text =>
        match answer q with
        | None => None
        | Some key =>
            Some (contains key user_text && (0 <? String.length user_text)%nat)
        end
    end
  else Some false.

(** Lines 230-248, from answer [i] on. *)
Fixpoint grade_loop (quiz : list QuizItem) (i : nat) (answers : list JValue)
         (st : nat * list nat * list string)
  : option (nat * list nat * list string) :=
  match answers with
  | [] => Some st
  | user_ans :: rest =>
      match nth_error quiz i with
      | None => Some st
      | Some q =>
          match grade_item q user_ans with
          | None => None
          | Some is_correct =>
              let '(sc, pq, weak) := st in
              grade_loop quiz (S i) rest
                (if is_correct then S sc else sc,
                 (pq ++ [if is_correct then 1 else 0])%list,
                 if is_correct then weak
                 else (weak ++ [match answer q with
                                | Some a => a
                                | None => "concept"
                                end])%list)
          end
      end
  end.

(** Lines 226-259: the [stats] the request computes. *)
Definition feedback (quiz : list QuizItem) (answers : list JValue) : option Stats :=
  match grade_loop quiz 0 answers (0, [], []) with
  | None => None
  | Some (sc, pq, weak) =>
      let tot := match List.length pq with O => 1 | n => n end in
      Some {| score := sc;
              total := tot;
              percentage := py_round1 (float_mul (float_div sc tot) 100);
              per_question := pq;
              weak_areas := firstn 5 (list_of_set weak) |}
  end.

End Pipeline.

Arguments sentence_score {Score} true_div freq ws.
Arguments score_step word_tokenize {Score} true_div freq scores sent.
Arguments build_scores sent_tokenize word_tokenize stop_words {Score} true_div text.
Arguments score_of {Score} true_div scores sent.
Arguments top_sentences sent_tokenize word_tokenize stop_words {Score}
  true_div score_leb text num_sents.
Arguments summary_sentences sent_tokenize word_tokenize stop_words {Score}
  true_div score_leb text num_sents.
Arguments extractive_summary sent_tokenize word_tokenize stop_words {Score}
  true_div score_leb text num_sents.

(** ** The routes

    The Flask session is a record of its four keys (a key not set is
    [None]); the [sessions] table is the list of its rows in order of
    insertion; a view returns its response together with the session,
    table or generator state it leaves behind. *)

Record Session : Type := mkSession {
  session_summary  : option string;
  session_raw_text : option string;
  session_quiz     : option (list QuizItem);
  session_stats    : option Stats
}.

(** A row of the [sessions] table (lines 131-139). *)
Record Row : Type := mkRow {
  row_id         : nat;
  row_created_at : string;
  row_title      : string;
  row_summary    : string;
  row_score      : nat;
  row_total      : nat;
  row_percentage : Q
}.

(** The columns [history_page] selects. *)
Record HistoryEntry : Type := mkEntry {
  entry_id         : nat;
  entry_created_at : string;
  entry_title      : string;
  entry_score      : nat;
  entry_total      : nat;
  entry_percentage : Q
}.

(** The JSON body of a [/summarize] request; a missing key is [None]. *)
Record SummarizeRequest : Type := mkSummarizeRequest {
  req_text : option string;
  req_mode : option string
}.

Inductive Response : Type :=
| BadRequest (error : string)
| JsonSummary (summary : string)
| JsonRedirect (url : string)
| Redirect (url : string)
| RenderQuiz (quiz : list QuizItem)
| RenderConcepts (concepts : list (string * nat)) (summary : string)
| RenderFeedback (stats : Stats)
| RenderHistory (rows : list HistoryEntry).

Section Routes.

Variable sent_tokenize : string -> list string.
Variable word_tokenize : string -> list string.
Variable pos_tag : list string -> list (string * string).
Variable stop_words : list string.
Variable list_of_set : list string -> list string.
Variable Score : Type.
Variable true_div : nat -> nat -> Score.
Variable score_leb : Score -> Score -> bool.

(** [session.get('summary', '')] *)
Definition summary_of (s : Session) : string :=
  match session_summary s with Some summary => summary | None => "" end.

(** [session.get('quiz', [])] *)
Definition quiz_of (s : Session) : list QuizItem :=
  match session_quiz s with Some quiz => quiz | None => [] end.

Definition newline : string := String (ascii_of_nat 10) "".

(** The bullet U+2022, as its three UTF-8 bytes. *)
Definition bullet : string :=
  String (ascii_of_nat 226) (String (ascii_of_nat 128) (String (ascii_of_nat 162) "")).

(** Lines 207-208 and 210-211: one line per sentence of the summary,
    ["<marker> <stripped sentence>"]. *)
Definition render_lines (marker base_summary : string) : string :=
  join newline
       (map (fun sent => String.append marker (String.append " " (strip sent)))
            (sent_tokenize base_summary)).

(** Lines 204-213. *)
Definition render_summary (mode text : string) : string :=
  let base_summary :=
    extractive_summary sent_tokenize word_tokenize stop_words true_div score_leb
                       text 4 in
  if String.eqb mode "bullets" then render_lines bullet base_summary
  else if String.eqb mode "outline" then render_lines "-" base_summary
  else base_summary.

(** Lines 195-218. *)
Definition summarize_api (req : SummarizeRequest) (s : Session) : Response * Session :=
  let text := strip (match req_text req with Some t => t | None => "" end) in
  let mode := match req_mode req with Some m => m | None => "paragraph" end in
  if is_empty text then (BadRequest "Please enter text", s)
  else
    let summary := render_summary mode text in
    (JsonSummary summary,
     {| session_summary := Some summary;
        session_raw_text := Some text;
        session_quiz := session_quiz s;
        session_stats := session_stats s |}).

(** Lines 160-166: the placeholder item. *)
Definition info_item : QuizItem :=
  {| item_type := Some "info";
     question := "Summary too short to generate quiz. Add more detailed notes.";
     answer := Some "";
     options := Some [];
     correct_idx := Some (-1)%Z |}.

Local Open Scope rng_scope.

(** Lines 152-168. *)
Definition quiz_page (s : Session) : M (Response * Session) :=
  let summary := summary_of s in
  if is_empty summary then ret (Redirect "/summarize-page", s)
  else
    res <- generate_quiz_trace sent_tokenize word_tokenize pos_tag list_of_set
                               summary 6 ;;
    let quiz_data := match fst res with
                     | [] => [info_item]
                     | quiz => quiz
                     end in
    ret (RenderQuiz quiz_data,
         {| session_summary := session_summary s;
            session_raw_text := session_raw_text s;
            session_quiz := Some quiz_data;
            session_stats := session_stats s |}).

Local Close Scope rng_scope.

(** Lines 170-174. *)
Definition concepts_page (s : Session) : Response :=
  let summary := summary_of s in
  RenderConcepts
    (if is_empty summary then []
     else extract_concepts word_tokenize stop_words summary 15)
    summary.

(** Lines 176-181. *)
Definition results_page (s : Session) : Response :=
  match session_stats s with
  | None => Redirect "/"
  | Some stats => RenderFeedback stats
  end.

(** The id an [INTEGER PRIMARY KEY AUTOINCREMENT] column gives the next
    row of a table no row was ever deleted from. *)
Definition next_id (table : list Row) : nat := S (list_max (map row_id table)).

Definition entry_of (r : Row) : HistoryEntry :=
  {| entry_id := row_id r;
     entry_created_at := row_created_at r;
     entry_title := row_title r;
     entry_score := row_score r;
     entry_total := row_total r;
     entry_percentage := row_percentage r |}.

(** Lines 183-192: [ORDER BY id DESC LIMIT 20]. *)
Definition history_page (table : list Row) : Response :=
  RenderHistory (map entry_of (firstn 20 (sorted_reverse row_id Nat.leb table))).

(** Lines 222-223: [data = request.json or {}] and
    [data.get('answers', [])], on the decoded body of the request.
    [None] when [get] is called on a value that has no such method
    (AttributeError): a truthy body that is not an object. *)
Definition answers_of (body : JValue) : option JValue :=
  let data := if truthy body then body else JObject [] in
  match data with
  | JObject members =>
      Some (match dict_get members "answers" with
            | Some answers => answers
            | None => JArray []
            end)
  | _ => None
  end.

(** What [enumerate(answers)] iterates over: the items of a list, the
    characters of a string, the keys of a dict.  [None] when the value
    is not iterable (TypeError). *)
Definition py_iter (answers : JValue) : option (list JValue) :=
  match answers with
  | JArray items => Some items
  | JStr s => Some (map (fun c => JStr (String c "")) (list_ascii_of_string s))
  | JObject members => Some (map (fun kv => JStr (fst kv)) members)
  | JNull | JBool _ | JInt _ | JFloat _ => None
  end.

(** The answers the grading loop of a request sees. *)
Definition submitted (body : JValue) : option (list JValue) :=
  match answers_of body with
  | None => None
  | Some answers => py_iter answers
  end.

(** Lines 220-270; [now] is the reading of [datetime('now')], [body]
    the decoded JSON body of the request.  [None] when the request
    raises: nothing is stored then. *)
Definition feedback_api (now : string) (body : JValue)
           (s : Session) (table : list Row)
  : option (Response * Session * list Row) :=
  match submitted body with
  | None => None
  | Some answers =>
      match feedback list_of_set (quiz_of s) answers with
      | None => None
      | Some stats =>
          Some (JsonRedirect "/results",
                {| session_summary := session_summary s;
                   session_raw_text := session_raw_text s;
                   session_quiz := session_quiz s;
                   session_stats := Some stats |},
                (table ++ [{| row_id := next_id table;
                              row_created_at := now;
                              row_title := "Study Session";
                              row_summary := summary_of s;
                              row_score := score stats;
                              row_total := total stats;
                              row_percentage := percentage stats |}])%list)
      end
  end.

End Routes.

Arguments render_summary sent_tokenize word_tokenize stop_words {Score}
  true_div score_leb mode text.
Arguments summarize_api sent_tokenize word_tokenize stop_words {Score}
  true_div score_leb req s.

(** ** A plain-text instance of the NLTK services

    A small segmenter, tokenizer and tagger for plain English prose, used
    to run the pipeline on concrete texts.  On the texts evaluated below
    (words separated by single spaces, sentences ended by one [.], [!] or
    [?]) they produce the segmentation NLTK's Punkt and Treebank
    tokenizers produce. *)

Module PlainText.

Definition is_sent_end (c : ascii) : bool := char_in c ".!?".

Definition snoc (s : string) (c : ascii) : string := String.append s (String c "").

Definition at_break (rest : string) : bool :=
  match rest with
  | EmptyString => true
  | String d _ => is_space d
  end.

(** A sentence ends at [.], [!] or [?] followed by white space or by the
    end of the text; white space between sentences is dropped. *)
Fixpoint split_sentences (cur s : string) : list string :=
  match s with
  | EmptyString => if is_empty cur then [] else [cur]
  | String c r =>
      if is_empty cur && is_space c then split_sentences cur r
      else if is_sent_end c && at_break r then snoc cur c :: split_sentences "" r
      else split_sentences (snoc cur c) r
  end.

Definition sent_tokenize (text : string) : list string := split_sentences "" text.

Definition flush (cur : string) : list string :=
  if is_empty cur then [] else [cur].

(** Words are maximal alphanumeric runs; any other visible character is a
    token of its own. *)
Fixpoint split_words (cur s : string) : list string :=
  match s with
  | EmptyString => flush cur
  | String c r =>
      if is_alnum c then split_words (snoc cur c) r
      else (flush cur ++
            (if is_space c then [] else [String c ""]) ++
            split_words "" r)%list
  end.

Definition word_tokenize (text : string) : list string := split_words "" text.

(** Alphabetic tokens are tagged as nouns, every other token by itself
    (as the Penn Treebank tags punctuation). *)
Definition pos_tag (tokens : list string) : list (string * string) :=
  map (fun w => (w, if isalpha w then "NN" else w)) tokens.

Definition stop_words : list string :=
  ["the"; "a"; "an"; "is"; "are"; "and"; "of"; "in"; "to"].

Definition list_of_set (l : list string) : list string := nodup string_dec l.

End PlainText.

(** ** The design document's notions, in its own words

    These are written from the prose of the design document, not from the
    code, and are what the theorems compare the code with. *)

Section DesignNotions.

Variable word_tokenize : string -> list string.
Variable stop_words : list string.
Variable Score : Type.
Variable true_div : nat -> nat -> Score.

(** The distinct elements of a list, in order of first occurrence. *)
Fixpoint distinct (l : list string) : list string :=
  match l with
  | [] => []
  | x :: r => x :: filter (fun y => negb (String.eqb y x)) (distinct r)
  end.

(** Number of occurrences of [w]. *)
Definition occurrences (w : string) (l : list string) : nat :=
  count_occ string_dec l w.

(** "all alphanumeric, lowercased, non-stop-word tokens in the whole
    document" *)
Definition table_tokens (text : string) : list string :=
  filter (fun w => negb (mem w stop_words))
         (map lower (filter isalnum (word_tokenize text))).

(** "each token's document frequency, 0 if absent" *)
Definition document_frequency (text w : string) : nat :=
  occurrences w (table_tokens text).

(** "its alphanumeric lowercase tokens (stop words NOT excluded)" *)
Definition sentence_tokens (sent : string) : list string :=
  map lower (filter isalnum (word_tokenize sent)).

(** "(sum of each token's document frequency) / (count of tokens in the
    sentence)" *)
Definition normalized_score (text sent : string) : Score :=
  true_div (list_sum (map (document_frequency text) (sentence_tokens sent)))
           (List.length (sentence_tokens sent)).

(** A sentence that is scored: it has at least one token. *)
Definition has_tokens (sent : string) : bool :=
  match sentence_tokens sent with [] => false | _ => true end.

(** "alphabetic-only lowercase tokens, drops stop words" *)
Definition concept_tokens (summary : string) : list string :=
  filter (fun w => negb (mem w stop_words))
         (map lower (filter isalpha (word_tokenize summary))).

End DesignNotions.

Arguments normalized_score word_tokenize stop_words {Score} true_div text sent.

(** ** Rounding, in the words of IEEE 754 and of the Python manual *)

(** [k] is an integer nearest to [x]; when two integers are equally
    near, [k] is the even one. *)
Definition nearest_even (x : Q) (k : Z) : Prop :=
  (x - (1 # 2) <= inject_Z k)%Q /\ (inject_Z k <= x + (1 # 2))%Q /\
  ((inject_Z k == x - (1 # 2))%Q \/ (inject_Z k == x + (1 # 2))%Q ->
   Z.even k = true).

(** [y] is [x >= 0] rounded to binary64: zero for zero; otherwise, with
    [2^e <= x < 2^(e+1)] and the unit in the last place
    [u = 2^max(e-52, -1074)], the multiple [m * u] of [u] nearest to
    [x], ties to the even [m]. *)
Definition nearest_binary64 (x y : Q) : Prop :=
  ((x == 0)%Q /\ (y == 0)%Q) \/
  ((0 < x)%Q /\
   exists e m : Z,
     (pow2 e <= x)%Q /\ (x < pow2 (e + 1))%Q /\
     nearest_even (x / pow2 (Z.max (e - 52) (-1074))) m /\
     (y == inject_Z m * pow2 (Z.max (e - 52) (-1074)))%Q).

(** ** Further notions *)

(** Ranking by descending key with ties broken by position: [a] is ranked
    before [b] when its key is at least as large and, when the keys tie,
    it comes from the earlier position. *)
Definition ranked_before {A K : Type} (key : A -> K) (leb : K -> K -> bool)
           (rank : A -> nat) (a b : A) : Prop :=
  leb (key b) (key a) = true /\
  (leb (key a) (key b) = true -> rank a < rank b).

(** "MCQ option integrity": four pairwise distinct options, the correct
    answer among them exactly once, at the stored index. *)
Definition mcq_integrity (q : QuizItem) (correct : string) : Prop :=
  answer q = Some correct /\
  exists opts i,
    options q = Some opts /\
    List.length opts = 4 /\
    NoDup opts /\
    count_occ string_dec opts correct = 1 /\
    correct_idx q = Some (Z.of_nat i) /\
    nth_error opts i = Some correct.

(** The item [q] is a cloze item over the sentence [sent]: some target,
    a noun of the summary or the placeholder when there is none, was
    blanked in [sent], and [q] is a multiple-choice or a short-answer
    item for that target. *)
Definition built_from (nouns : list string) (sent : string) (q : QuizItem) : Prop :=
  exists target,
    (In target nouns \/ (nouns = [] /\ target = "concept")) /\
    question q = question_text target sent /\
    ((item_type q = Some "mcq" /\
      mcq_integrity q (capitalize (ans_clean target))) \/
     q = short_item target sent).

(** A non-empty pattern none of whose characters [strip_by sp] drops. *)
Definition unstrippable (sp : ascii -> bool) (p : string) : Prop :=
  p <> "" /\ str_forall (fun c => negb (sp c)) p = true.

(** The answer sheet of a quiz: for each item the stored index when there
    is one, the stored key otherwise. *)
Definition answer_key (q : QuizItem) : JValue :=
  match correct_idx q with
  | Some idx => JInt idx
  | None => match answer q with
            | Some key => JStr key
            | None => JNull
            end
  end.

(** The grade of an aligned pair that can be graded, as [per_question]
    records it. *)
Definition grade_bit (qa : QuizItem * JValue) : nat :=
  match grade_item (fst qa) (snd qa) with
  | Some true => 1
  | _ => 0
  end.

(** The aligned pair was graded incorrect. *)
Definition missed (qa : QuizItem * JValue) : bool :=
  match grade_item (fst qa) (snd qa) with
  | Some false => true
  | _ => false
  end.

(** [q.get('answer', 'concept')] *)
Definition key_of (q : QuizItem) : string :=
  match answer q with Some key => key | None => "concept" end.

(** A value that is true in a condition and is not a string: [true], a
    number other than zero, a non-empty array or object. *)
Definition true_non_string (v : JValue) : Prop :=
  match v with
  | JNull | JStr _ => False
  | JBool b => b = true
  | JInt z => z <> 0%Z
  | JFloat (Finite x) => ~ (x == 0)%Q
  | JFloat _ => True
  | JArray items => items <> []
  | JObject members => members <> []
  end.

(** A value a [for] loop cannot iterate over: [null], a boolean or a
    number. *)
Definition scalar (v : JValue) : Prop :=
  match v with
  | JNull | JBool _ | JInt _ | JFloat _ => True
  | JStr _ | JArray _ | JObject _ => False
  end.

(** The body of a request has no answers to grade: it is true in a
    condition and not an object, or it is an object whose ["answers"]
    member is a scalar. *)
Definition unreadable (body : JValue) : Prop :=
  match body with
  | JObject members =>
      exists answers, dict_get members "answers" = Some answers /\ scalar answers
  | _ => true_non_string body \/ exists s, body = JStr s /\ s <> ""
  end.

(** The rows of a table were inserted with increasing ids. *)
Definition ids_ascending (table : list Row) : Prop :=
  StronglySorted lt (map row_id table).

(** * Properties *)

(** ** Strings *)

Module StrFacts.

Lemma char_upper_not_lower (c : ascii) : is_lower (char_upper c) = false.
Proof.
  destruct c as [[] [] [] [] [] [] [] []]; vm_compute; reflexivity.
Qed.

Lemma char_lower_idem (c : ascii) : char_lower (char_lower c) = char_lower c.
Proof.
  destruct c as [[] [] [] [] [] [] [] []]; vm_compute; reflexivity.
Qed.

Lemma lower_idem (s : string) : lower (lower s) = lower s.
Proof.
  unfold lower. induction s as [|c r IH]; simpl.
  - reflexivity.
  - now rewrite char_lower_idem, IH.
Qed.

Lemma length_lower (s : string) : String.length (lower s) = String.length s.
Proof.
  unfold lower. induction s as [|c r IH]; simpl; [reflexivity|now rewrite IH].
Qed.

Lemma is_empty_length (s : string) :
  (0 <? String.length s)%nat = negb (is_empty s).
Proof. destruct s; reflexivity. Qed.

Lemma is_empty_lower (s : string) : is_empty (lower s) = is_empty s.
Proof. destruct s; reflexivity. Qed.

(** Matching up to case is literal matching of the lower-cased strings. *)
Lemma ci_prefix_lower (pat s : string) :
  ci_prefix pat s = String.prefix (lower pat) (lower s).
Proof.
  unfold lower. revert s. induction pat as [|a pat IH]; intros s.
  - destruct s; reflexivity.
  - destruct s as [|b s]; [reflexivity|].
    simpl. rewrite IH.
    destruct (Ascii.eqb_spec (char_lower a) (char_lower b)) as [E|E].
    + destruct (ascii_dec (char_lower a) (char_lower b)); [reflexivity|contradiction].
    + destruct (ascii_dec (char_lower a) (char_lower b)); [contradiction|reflexivity].
Qed.

Lemma ci_occurs_lower (pat s : string) :
  ci_occurs pat s = contains (lower pat) (lower s).
Proof.
  induction s as [|c r IH]; simpl.
  - rewrite ci_prefix_lower. reflexivity.
  - rewrite ci_prefix_lower, IH. reflexivity.
Qed.

(** Without a match the substitution leaves the string alone. *)
Lemma re_sub_first_absent (pat repl s : string) :
  ci_occurs pat s = false -> re_sub_first pat repl s = s.
Proof.
  induction s as [|c r IH]; simpl; intros H.
  - apply orb_false_elim in H. destruct H as [H _]. now rewrite H.
  - apply orb_false_elim in H. destruct H as [H1 H2].
    rewrite H1. now rewrite IH.
Qed.

(** A capitalized string never starts with a lower-case letter. *)
Lemma capitalize_head (s : string) (c : ascii) (r : string) :
  capitalize s = String c r -> is_lower c = false.
Proof.
  destruct s as [|a t]; simpl; [discriminate|].
  intros H. injection H as <- _. apply char_upper_not_lower.
Qed.

Lemma capitalize_not_in_lexicon (s : string) : ~ In (capitalize s) lexicon.
Proof.
  intros H. unfold lexicon in H. simpl in H.
  repeat (destruct H as [H|H];
          [symmetry in H; apply capitalize_head in H; vm_compute in H; discriminate|]).
  exact H.
Qed.

(** What occurs in a lower-case string is in lower case. *)
Lemma prefix_lower_fixed (p u : string) :
  String.prefix p u = true -> lower u = u -> lower p = p.
Proof.
  unfold lower. revert u. induction p as [|a p IH]; intros u H Hu; [reflexivity|].
  destruct u as [|b u]; [discriminate|]. simpl in H.
  destruct (ascii_dec a b) as [->|]; [|discriminate].
  simpl in Hu. injection Hu as Hb Hu. simpl. now rewrite Hb, (IH u H Hu).
Qed.

Lemma contains_lower_fixed (p u : string) :
  contains p u = true -> lower u = u -> lower p = p.
Proof.
  induction u as [|c r IH]; intros H Hu.
  - change (contains p "") with (String.prefix p "" || false) in H.
    rewrite orb_false_r in H. now apply (prefix_lower_fixed p "").
  - change (contains p (String c r))
      with (String.prefix p (String c r) || contains p r) in H.
    apply orb_true_iff in H. destruct H as [H|H].
    + now apply (prefix_lower_fixed p (String c r)).
    + apply IH; [exact H|]. unfold lower in *. simpl in Hu. now injection Hu.
Qed.

Lemma mem_In (s : string) (l : list string) : mem s l = true <-> In s l.
Proof.
  unfold mem. rewrite existsb_exists. split.
  - intros [x [Hx E]]. apply String.eqb_eq in E. now subst.
  - intros H. exists s. split; [assumption|apply String.eqb_refl].
Qed.

Lemma mem_false (s : string) (l : list string) : mem s l = false <-> ~ In s l.
Proof.
  rewrite <- mem_In. destruct (mem s l); split; congruence.
Qed.

End StrFacts.

(** ** Stable descending sort *)

Module SortFacts.

Lemma StronglySorted_app_cross {A} (R : A -> A -> Prop) (l1 l2 : list A) :
  StronglySorted R (l1 ++ l2) ->
  forall a b, In a l1 -> In b l2 -> R a b.
Proof.
  induction l1 as [|x l1 IH]; simpl; intros H a b Ha Hb.
  - contradiction.
  - inversion H as [|? ? Hs Hf]; subst.
    destruct Ha as [<-|Ha].
    + rewrite Forall_forall in Hf. apply Hf, in_or_app. now right.
    + now apply IH.
Qed.

Lemma StronglySorted_app_left {A} (R : A -> A -> Prop) (l1 l2 : list A) :
  StronglySorted R (l1 ++ l2) -> StronglySorted R l1.
Proof.
  induction l1 as [|x l1 IH]; simpl; intros H.
  - constructor.
  - inversion H as [|? ? Hs Hf]; subst. constructor.
    + now apply IH.
    + rewrite Forall_forall in *. intros y Hy. apply Hf, in_or_app. now left.
Qed.

Lemma In_firstn {A} (n : nat) (l : list A) (x : A) :
  In x (firstn n l) -> In x l.
Proof.
  intros H. rewrite <- (firstn_skipn n l). apply in_or_app. now left.
Qed.

Lemma StronglySorted_firstn {A} (R : A -> A -> Prop) (n : nat) (l : list A) :
  StronglySorted R l -> StronglySorted R (firstn n l).
Proof.
  intros H. rewrite <- (firstn_skipn n l) in H.
  now apply StronglySorted_app_left in H.
Qed.

Lemma StronglySorted_weaken {A} (R R' : A -> A -> Prop) (l : list A) :
  (forall a b, In a l -> In b l -> R a b -> R' a b) ->
  StronglySorted R l -> StronglySorted R' l.
Proof.
  induction l as [|x l IH]; intros HR H.
  - constructor.
  - inversion H as [|? ? Hs Hf]; subst. constructor.
    + apply IH; [|assumption]. intros a b Ha Hb. apply HR; now right.
    + rewrite Forall_forall in *. intros y Hy.
      apply HR; [now left|now right|now apply Hf].
Qed.

Lemma StronglySorted_filter {A} (R : A -> A -> Prop) (p : A -> bool) (l : list A) :
  StronglySorted R l -> StronglySorted R (filter p l).
Proof.
  induction 1 as [|x l Hs IH Hf]; simpl.
  - constructor.
  - destruct (p x); [|assumption]. constructor; [assumption|].
    rewrite Forall_forall in *. intros y Hy. apply filter_In in Hy. now apply Hf.
Qed.

Section Stable.
Context {A K : Type}.
Variable key : A -> K.
Variable leb : K -> K -> bool.
Variable rank : A -> nat.
Hypothesis leb_total : forall a b, leb a b = true \/ leb b a = true.
Hypothesis leb_trans :
  forall a b c, leb a b = true -> leb b c = true -> leb a c = true.

Local Abbreviation precedes := (ranked_before key leb rank).

Lemma insert_desc_perm (x : A) (l : list A) :
  Permutation (insert_desc key leb x l) (x :: l).
Proof.
  induction l as [|y r IH]; simpl.
  - reflexivity.
  - destruct (leb (key y) (key x)).
    + reflexivity.
    + rewrite IH. apply perm_swap.
Qed.

Lemma sorted_reverse_perm (l : list A) :
  Permutation (sorted_reverse key leb l) l.
Proof.
  induction l as [|x l IH]; simpl.
  - reflexivity.
  - rewrite insert_desc_perm. now constructor.
Qed.

Lemma insert_desc_sorted (x : A) (l : list A) :
  (forall y, In y l -> rank x < rank y) ->
  StronglySorted precedes l ->
  StronglySorted precedes (insert_desc key leb x l).
Proof.
  intros Hx Hs. induction Hs as [|y r Hs IH Hf]; simpl.
  - repeat constructor.
  - destruct (leb (key y) (key x)) eqn:E.
    + constructor; [now constructor|].
      rewrite Forall_forall in *. intros z Hz. split.
      * destruct Hz as [<-|Hz]; [assumption|].
        apply leb_trans with (key y); [apply (Hf z Hz)|assumption].
      * intros _. now apply Hx.
    + constructor.
      * apply IH. intros z Hz. apply Hx. now right.
      * rewrite Forall_forall in *. intros z Hz.
        apply (Permutation_in _ (insert_desc_perm x r)) in Hz.
        destruct Hz as [<-|Hz]; [|now apply Hf].
        split.
        -- destruct (leb_total (key x) (key y)); congruence.
        -- congruence.
Qed.

(** Sorting a list laid out in increasing rank ranks it by [precedes]. *)
Lemma sorted_reverse_sorted (l : list A) :
  StronglySorted (fun a b => rank a < rank b) l ->
  StronglySorted precedes (sorted_reverse key leb l).
Proof.
  induction 1 as [|x l Hs IH Hf]; simpl.
  - constructor.
  - apply insert_desc_sorted; [|assumption].
    rewrite Forall_forall in Hf. intros y Hy. apply Hf.
    now apply (Permutation_in _ (sorted_reverse_perm l)).
Qed.

(** The first [n] of the sorted list dominate everything left out. *)
Lemma top_dominates (n : nat) (l : list A) (a b : A) :
  StronglySorted (fun a b => rank a < rank b) l ->
  In a (firstn n (sorted_reverse key leb l)) ->
  In b l -> ~ In b (firstn n (sorted_reverse key leb l)) ->
  precedes a b.
Proof.
  intros Hl Ha Hb Hnb.
  apply sorted_reverse_sorted in Hl.
  rewrite <- (firstn_skipn n (sorted_reverse key leb l)) in Hl.
  apply (StronglySorted_app_cross _ _ _ Hl); [assumption|].
  apply (Permutation_in _ (Permutation_sym (sorted_reverse_perm l))) in Hb.
  rewrite <- (firstn_skipn n (sorted_reverse key leb l)) in Hb.
  apply in_app_or in Hb. tauto.
Qed.

Lemma length_top (n : nat) (l : list A) :
  List.length (firstn n (sorted_reverse key leb l)) = Nat.min n (List.length l).
Proof.
  rewrite length_firstn. f_equal.
  apply Permutation_length, sorted_reverse_perm.
Qed.
End Stable.

Lemma Qle_bool_total (a b : Q) : Qle_bool a b = true \/ Qle_bool b a = true.
Proof.
  rewrite !Qle_bool_iff. destruct (Qlt_le_dec a b) as [H|H].
  - left. now apply Qlt_le_weak.
  - now right.
Qed.

Lemma Qle_bool_trans (a b c : Q) :
  Qle_bool a b = true -> Qle_bool b c = true -> Qle_bool a c = true.
Proof. rewrite !Qle_bool_iff. apply Qle_trans. Qed.

Lemma leb_total (a b : nat) : Nat.leb a b = true \/ Nat.leb b a = true.
Proof. rewrite !Nat.leb_le. lia. Qed.

Lemma leb_trans (a b c : nat) :
  Nat.leb a b = true -> Nat.leb b c = true -> Nat.leb a c = true.
Proof. rewrite !Nat.leb_le. lia. Qed.

End SortFacts.

(** ** Insertion-ordered dictionaries and counters *)

Module DictFacts.

Lemma filter_filter {A} (f g : A -> bool) (l : list A) :
  filter f (filter g l) = filter (fun x => f x && g x) l.
Proof.
  induction l as [|x r IH]; simpl; [reflexivity|].
  destruct (g x); simpl.
  - rewrite andb_true_r. destruct (f x); now rewrite IH.
  - now rewrite andb_false_r.
Qed.

Lemma distinct_In (x : string) (l : list string) : In x (distinct l) <-> In x l.
Proof.
  induction l as [|y r IH]; simpl; [tauto|].
  rewrite filter_In, IH. split.
  - tauto.
  - intros [H|H]; [now left|].
    destruct (String.eqb_spec x y) as [E|E]; [now left; subst|].
    right. split; [assumption|reflexivity].
Qed.

Lemma distinct_NoDup (l : list string) : NoDup (distinct l).
Proof.
  induction l as [|y r IH]; simpl; constructor.
  - rewrite filter_In, String.eqb_refl. simpl. intros [_ H]. discriminate.
  - now apply NoDup_filter.
Qed.

Lemma distinct_filter (q : string -> bool) (l : list string) :
  distinct (filter q l) = filter q (distinct l).
Proof.
  induction l as [|x r IH]; simpl; [reflexivity|].
  destruct (q x) eqn:Q; simpl; rewrite IH.
  - f_equal. rewrite !filter_filter. apply filter_ext.
    intros y. apply andb_comm.
  - rewrite filter_filter. apply filter_ext.
    intros y. destruct (String.eqb_spec y x) as [->|]; simpl.
    + rewrite Q. reflexivity.
    + now rewrite andb_true_r.
Qed.

Lemma index_of_head (x : string) (l : list string) : index_of x (x :: l) = 0.
Proof. simpl. now rewrite String.eqb_refl. Qed.

Lemma index_of_lt (x : string) (l : list string) :
  In x l -> index_of x l < List.length l.
Proof.
  induction l as [|y r IH]; simpl; [contradiction|].
  intros H. destruct (String.eqb_spec y x) as [E|E]; [lia|].
  destruct H as [H|H]; [contradiction|]. apply IH in H. lia.
Qed.

Lemma index_of_nth (x : string) (l : list string) :
  In x l -> nth_error l (index_of x l) = Some x.
Proof.
  induction l as [|y r IH]; simpl; [contradiction|].
  intros H. destruct (String.eqb_spec y x) as [E|E]; [now subst|].
  destruct H as [H|H]; [contradiction|]. now apply IH.
Qed.

(** The distinct elements are laid out by position of first occurrence. *)
Lemma distinct_sorted (l : list string) :
  StronglySorted (fun a b => index_of a l < index_of b l) (distinct l).
Proof.
  induction l as [|x r IH]; simpl; constructor.
  - apply SortFacts.StronglySorted_filter with (p := fun y => negb (String.eqb y x)) in IH.
    revert IH. apply SortFacts.StronglySorted_weaken.
    intros a b Ha Hb Hab.
    apply filter_In in Ha. apply filter_In in Hb.
    destruct Ha as [_ Ha]. destruct Hb as [_ Hb].
    rewrite String.eqb_sym in Ha. rewrite String.eqb_sym in Hb.
    apply negb_true_iff in Ha. apply negb_true_iff in Hb.
    rewrite Ha, Hb. lia.
  - rewrite Forall_forall. intros y Hy. apply filter_In in Hy.
    destruct Hy as [_ Hy]. rewrite String.eqb_refl.
    rewrite String.eqb_sym in Hy. apply negb_true_iff in Hy. rewrite Hy. lia.
Qed.

Section Keys.
Context {V : Type}.

Lemma dict_keys_set (k : string) (v : V) (d : list (string * V)) :
  dict_keys (dict_set k v d) =
  if mem k (dict_keys d) then dict_keys d else (dict_keys d ++ [k])%list.
Proof.
  unfold dict_keys, mem. induction d as [|[k' v'] r IH]; simpl; [reflexivity|].
  rewrite (String.eqb_sym k k').
  destruct (String.eqb k' k); simpl; [reflexivity|].
  rewrite IH. now destruct (existsb (String.eqb k) (map fst r)).
Qed.

Lemma dict_get_set (k : string) (v : V) (d : list (string * V)) (s : string) :
  dict_get (dict_set k v d) s =
  if String.eqb k s then Some v else dict_get d s.
Proof.
  induction d as [|[k' v'] r IH]; simpl.
  - reflexivity.
  - destruct (String.eqb_spec k' k) as [->|E]; simpl.
    + now destruct (String.eqb k s).
    + rewrite IH. destruct (String.eqb_spec k' s) as [->|E'];
        [|reflexivity].
      destruct (String.eqb_spec k s) as [->|]; [contradiction|reflexivity].
Qed.

Lemma dict_get_keys (d : list (string * V)) (s : string) :
  In s (dict_keys d) <-> exists v, dict_get d s = Some v.
Proof.
  unfold dict_keys. induction d as [|[k' v'] r IH]; simpl.
  - split; [contradiction|intros [v H]; discriminate].
  - destruct (String.eqb_spec k' s) as [->|E].
    + split; [eauto|now left].
    + rewrite <- IH. tauto.
Qed.
End Keys.

(** Keys of a dictionary filled by a loop that, for each element
    satisfying [p], sets or creates the element's entry. *)
Section Fill.
Context {D : Type}.
Variable keys : D -> list string.
Variable step : D -> string -> D.
Variable p : string -> bool.
Hypothesis keys_step : forall d k,
  keys (step d k) =
  if p k && negb (mem k (keys d)) then (keys d ++ [k])%list else keys d.

Lemma keys_fold (l : list string) (acc : D) :
  keys (fold_left step l acc) =
  (keys acc ++ distinct (filter (fun s => p s && negb (mem s (keys acc))) l))%list.
Proof.
  revert acc. induction l as [|x r IH]; intros acc; simpl.
  - now rewrite app_nil_r.
  - rewrite IH, keys_step.
    destruct (p x && negb (mem x (keys acc))) eqn:E; simpl.
    + rewrite <- app_assoc. simpl. do 2 f_equal.
      rewrite <- distinct_filter, filter_filter.
      f_equal. apply filter_ext. intros s.
      unfold mem. rewrite existsb_app. simpl. rewrite orb_false_r.
      destruct (p s), (existsb (String.eqb s) (keys acc)), (String.eqb s x);
        reflexivity.
    + reflexivity.
Qed.
End Fill.

End DictFacts.

Module CounterFacts.
Import DictFacts.

Lemma keys_incr (w : string) (c : list (string * nat)) :
  dict_keys (counter_incr w c) =
  if true && negb (mem w (dict_keys c)) then (dict_keys c ++ [w])%list
  else dict_keys c.
Proof.
  unfold dict_keys, mem. induction c as [|[k n] r IH]; simpl; [reflexivity|].
  rewrite (String.eqb_sym w k).
  destruct (String.eqb k w); simpl; [reflexivity|].
  simpl in IH. rewrite IH. now destruct (existsb (String.eqb w) (map fst r)).
Qed.

Lemma get_incr (w : string) (c : list (string * nat)) (k : string) :
  counter_get (counter_incr w c) k =
  if String.eqb w k then S (counter_get c k) else counter_get c k.
Proof.
  unfold counter_get. induction c as [|[k' n] r IH]; simpl.
  - now destruct (String.eqb w k).
  - destruct (String.eqb_spec k' w) as [->|E]; simpl.
    + now destruct (String.eqb w k).
    + destruct (String.eqb_spec k' k) as [->|E'].
      * destruct (String.eqb_spec w k) as [->|]; [contradiction|reflexivity].
      * exact IH.
Qed.

Lemma get_fold (ws : list string) (acc : list (string * nat)) (k : string) :
  counter_get (fold_left (fun c w => counter_incr w c) ws acc) k =
  counter_get acc k + occurrences k ws.
Proof.
  unfold occurrences. revert acc. induction ws as [|w r IH]; intros acc; simpl.
  - lia.
  - rewrite IH, get_incr.
    destruct (string_dec w k) as [E|E].
    + subst. rewrite String.eqb_refl. lia.
    + apply String.eqb_neq in E. rewrite E. lia.
Qed.

(** A [Counter] maps each word to its number of occurrences. *)
Lemma Counter_get (ws : list string) (k : string) :
  counter_get (Counter ws) k = occurrences k ws.
Proof. unfold Counter. now rewrite get_fold. Qed.

(** Its keys are the distinct words in order of first occurrence. *)
Lemma Counter_keys (ws : list string) : dict_keys (Counter ws) = distinct ws.
Proof.
  unfold Counter.
  rewrite (keys_fold dict_keys (fun c w => counter_incr w c) (fun _ => true)).
  - simpl. f_equal. clear. induction ws as [|w r IH]; simpl; now rewrite ?IH.
  - intros d k. apply keys_incr.
Qed.

Lemma Counter_mem (ws : list string) (k : string) :
  counter_mem (Counter ws) k = true <-> In k ws.
Proof.
  rewrite <- distinct_In, <- Counter_keys, dict_get_keys.
  unfold counter_mem. destruct (dict_get (Counter ws) k).
  - split; eauto.
  - split; [discriminate|intros [v H]; discriminate].
Qed.

Lemma Counter_absent (ws : list string) (k : string) :
  counter_mem (Counter ws) k = false -> occurrences k ws = 0.
Proof.
  intros H. unfold occurrences.
  apply count_occ_not_In. rewrite <- Counter_mem. congruence.
Qed.

Lemma Counter_entry (ws : list string) (k : string) (n : nat) :
  In (k, n) (Counter ws) -> n = occurrences k ws /\ In k ws.
Proof.
  intros H. assert (Hk : In k (dict_keys (Counter ws))).
  { unfold dict_keys. change k with (fst (k, n)). now apply in_map. }
  split.
  - rewrite <- Counter_get. unfold counter_get.
    assert (Hn : NoDup (dict_keys (Counter ws)))
      by (rewrite Counter_keys; apply distinct_NoDup).
    revert H Hn. clear. unfold dict_keys.
    induction (Counter ws) as [|[k' n'] r IH]; simpl; [contradiction|].
    intros [H|H] Hn.
    + injection H as -> ->. now rewrite String.eqb_refl.
    + inversion Hn as [|? ? Hx Hr]; subst.
      destruct (String.eqb_spec k' k) as [->|E].
      * exfalso. apply Hx. change k with (fst (k, n)). now apply in_map.
      * now apply IH.
  - now rewrite Counter_keys, distinct_In in Hk.
Qed.

End CounterFacts.

(** ** Summarizer *)

Section SummarizerFacts.
Import DictFacts CounterFacts.

Variable sent_tokenize : string -> list string.
Variable word_tokenize : string -> list string.
Variable stop_words : list string.
Variable Score : Type.
Variable true_div : nat -> nat -> Score.
Variable score_leb : Score -> Score -> bool.
Hypothesis score_leb_total :
  forall x y, score_leb x y = true \/ score_leb y x = true.
Hypothesis score_leb_trans :
  forall x y z, score_leb x y = true -> score_leb y z = true -> score_leb x z = true.

Local Abbreviation doc_words' := (doc_words word_tokenize stop_words).
Local Abbreviation sent_words' := (sent_words word_tokenize).
Local Abbreviation build_scores' :=
  (build_scores sent_tokenize word_tokenize stop_words true_div).
Local Abbreviation score_step' := (score_step word_tokenize true_div).
Local Abbreviation table_tokens' := (table_tokens word_tokenize stop_words).
Local Abbreviation frequency := (document_frequency word_tokenize stop_words).
Local Abbreviation sentence_tokens' := (sentence_tokens word_tokenize).
Local Abbreviation score := (normalized_score word_tokenize stop_words true_div).
Local Abbreviation scored := (has_tokens word_tokenize).
Local Abbreviation top_sentences' :=
  (top_sentences sent_tokenize word_tokenize stop_words true_div score_leb).
Local Abbreviation summary_sentences' :=
  (summary_sentences sent_tokenize word_tokenize stop_words true_div score_leb).
Local Abbreviation score_le := (fun x y : Score => score_leb x y = true).

Lemma filter_map_swap {A B} (f : A -> B) (q : B -> bool) (l : list A) :
  filter q (map f l) = map f (filter (fun x => q (f x)) l).
Proof.
  induction l as [|x r IH]; simpl; [reflexivity|].
  destruct (q (f x)); simpl; now rewrite IH.
Qed.

(** The words the code counts are the design's table tokens. *)
Lemma doc_words_table (text : string) : doc_words' text = table_tokens' text.
Proof.
  unfold doc_words, table_tokens.
  rewrite filter_map_swap, filter_filter. f_equal.
  apply filter_ext. intros w. apply andb_comm.
Qed.

Lemma list_sum_filter {A} (f : A -> nat) (p : A -> bool) (l : list A) :
  (forall x, p x = false -> f x = 0) ->
  list_sum (map f (filter p l)) = list_sum (map f l).
Proof.
  intros H. induction l as [|x r IH]; simpl; [reflexivity|].
  destruct (p x) eqn:E; simpl; rewrite IH; [reflexivity|].
  now rewrite (H x E).
Qed.

(** Guarding the sum by [w in freq] changes nothing: absent words count 0. *)
Lemma score_sum_frequency (text : string) (ws : list string) :
  score_sum (Counter (doc_words' text)) ws = list_sum (map (frequency text) ws).
Proof.
  unfold score_sum. rewrite list_sum_filter.
  - f_equal. apply map_ext. intros w.
    rewrite Counter_get, doc_words_table. reflexivity.
  - intros w H. rewrite Counter_get. now apply Counter_absent.
Qed.

Lemma sentence_score_normalized (text sent : string) :
  sentence_score true_div (Counter (doc_words' text)) (sent_words' sent) =
  score text sent.
Proof.
  unfold sentence_score, normalized_score. now rewrite score_sum_frequency.
Qed.

Lemma keys_score_step (freq : list (string * nat)) (d : list (string * Score))
      (k : string) :
  dict_keys (score_step' freq d k) =
  if scored k && negb (mem k (dict_keys d)) then (dict_keys d ++ [k])%list
  else dict_keys d.
Proof.
  unfold score_step, has_tokens, sentence_tokens, sent_words.
  destruct (map lower (filter isalnum (word_tokenize k))) as [|w ws]; simpl.
  - reflexivity.
  - rewrite dict_keys_set. now destruct (mem k (dict_keys d)).
Qed.

(** The scored sentences, in order of first appearance. *)
Lemma build_scores_keys (text : string) :
  dict_keys (build_scores' text) = distinct (filter scored (sent_tokenize text)).
Proof.
  unfold build_scores.
  rewrite (keys_fold dict_keys (score_step' _) scored).
  - simpl. f_equal. apply filter_ext. intros s. apply andb_true_r.
  - intros d k. apply keys_score_step.
Qed.

Lemma build_scores_values (text sent : string) (v : Score) :
  dict_get (build_scores' text) sent = Some v -> v = score text sent.
Proof.
  unfold build_scores.
  assert (Hacc : forall s v, dict_get (@nil (string * Score)) s = Some v ->
                             v = score text s)
    by (intros s v' H; discriminate).
  revert Hacc. generalize (@nil (string * Score)). revert sent v.
  induction (sent_tokenize text) as [|x r IH]; intros sent v acc Hacc; simpl.
  - apply Hacc.
  - apply IH. intros s v'. unfold score_step.
    destruct (sent_words' x) as [|w ws] eqn:E; [apply Hacc|].
    rewrite dict_get_set. destruct (String.eqb_spec x s) as [->|Hne].
    + intros H. injection H as <-. rewrite <- E. apply sentence_score_normalized.
    + apply Hacc.
Qed.

Lemma score_of_key (text sent : string) :
  In sent (dict_keys (build_scores' text)) ->
  score_of true_div (build_scores' text) sent = score text sent.
Proof.
  intros H. apply dict_get_keys in H. destruct H as [v H].
  unfold score_of. rewrite H. now apply build_scores_values.
Qed.

Lemma scored_key (text sent : string) :
  In sent (dict_keys (build_scores' text)) <->
  In sent (sent_tokenize text) /\ scored sent = true.
Proof. now rewrite build_scores_keys, distinct_In, filter_In. Qed.

Lemma top_sentences_keys (text sent : string) (n : nat) :
  In sent (top_sentences' text n) ->
  In sent (dict_keys (build_scores' text)).
Proof.
  unfold top_sentences. intros H. apply SortFacts.In_firstn in H.
  now apply (Permutation_in _ (SortFacts.sorted_reverse_perm _ _ _)) in H.
Qed.

Lemma summary_scoring_branch (text : string) (n : nat) :
  n < List.length (sent_tokenize text) ->
  summary_sentences' text n = top_sentences' text n.
Proof.
  intros H. unfold summary_sentences.
  destruct (Nat.leb_spec (List.length (sent_tokenize text)) n); [lia|reflexivity].
Qed.

(** The keys are laid out by position in the document. *)
Lemma keys_document_order (text : string) :
  StronglySorted
    (fun a b => index_of a (sent_tokenize text) < index_of b (sent_tokenize text))
    (dict_keys (build_scores' text)).
Proof.
  rewrite build_scores_keys, distinct_filter.
  apply SortFacts.StronglySorted_filter, distinct_sorted.
Qed.

(** C1, as amended: when the text has more sentences than [num_sents],
    the sentences of the summary appear in descending order of their
    normalized score, and sentences of equal score appear in the order
    of their first appearance in the document. *)
Theorem summary_ranked_by_score (text : string) (num_sents : nat) :
  num_sents < List.length (sent_tokenize text) ->
  StronglySorted
    (fun a b =>
       score_le (score text b) (score text a) /\
       (score_le (score text a) (score text b) ->
        index_of a (sent_tokenize text) < index_of b (sent_tokenize text)))
    (summary_sentences' text num_sents).
Proof.
  intros Hlen. rewrite summary_scoring_branch by assumption.
  unfold top_sentences. apply SortFacts.StronglySorted_firstn.
  pose proof (SortFacts.sorted_reverse_sorted
                (score_of true_div (build_scores' text)) score_leb
                (fun s => index_of s (sent_tokenize text))
                score_leb_total score_leb_trans
                _ (keys_document_order text)) as Hs.
  revert Hs. apply SortFacts.StronglySorted_weaken.
  intros a b Ha Hb [H1 H2].
  apply (Permutation_in _ (SortFacts.sorted_reverse_perm _ _ _)) in Ha, Hb.
  rewrite (score_of_key _ _ Ha), (score_of_key _ _ Hb) in H1, H2.
  split; assumption.
Qed.

(** C2: when the text has more sentences than [num_sents], the table the
    code builds gives every word its number of occurrences among the
    alphanumeric, lower-cased, non-stop-word tokens of the document (and
    holds exactly those tokens); every sentence with a token is assigned
    the sum of the table frequencies of its alphanumeric lower-case
    tokens divided by the number of those tokens; a sentence without such
    a token has no score and is not in the summary. *)
Theorem scores_are_normalized_frequencies (text : string) (num_sents : nat) :
  num_sents < List.length (sent_tokenize text) ->
  let freq := Counter (doc_words' text) in
  (forall w, counter_get freq w = frequency text w) /\
  (forall w, counter_mem freq w = true <-> In w (table_tokens' text)) /\
  (forall sent, In sent (sent_tokenize text) ->
     dict_get (build_scores' text) sent =
     match sentence_tokens' sent with
     | [] => None
     | _ => Some (score text sent)
     end) /\
  (forall sent, sentence_tokens' sent = [] ->
     ~ In sent (summary_sentences' text num_sents)).
Proof.
  intros Hlen freq. subst freq.
  split; [|split; [|split]].
  - intros w. rewrite Counter_get, doc_words_table. reflexivity.
  - intros w. rewrite Counter_mem, doc_words_table. tauto.
  - intros sent Hsent. destruct (sentence_tokens' sent) as [|w ws] eqn:E.
    + destruct (dict_get (build_scores' text) sent) as [v|] eqn:G; [|reflexivity].
      assert (Hk : In sent (dict_keys (build_scores' text)))
        by (apply dict_get_keys; eauto).
      apply scored_key in Hk. destruct Hk as [_ Hk].
      unfold has_tokens in Hk. rewrite E in Hk. discriminate.
    + assert (Hk : In sent (dict_keys (build_scores' text))).
      { apply scored_key. split; [assumption|].
        unfold has_tokens. now rewrite E. }
      apply dict_get_keys in Hk. destruct Hk as [v Hv].
      rewrite Hv. f_equal. now apply build_scores_values.
  - intros sent E Hin. rewrite summary_scoring_branch in Hin by assumption.
    apply top_sentences_keys, scored_key in Hin. destruct Hin as [_ Hk].
    unfold has_tokens in Hk. rewrite E in Hk. discriminate.
Qed.

(** C3, as amended: when the text has more sentences than [num_sents],
    the summary holds [min num_sents d] sentences, where [d] is the number
    of distinct sentences that have at least one alphanumeric token, and
    the score of every sentence of the summary is at least the score of
    every scored sentence left out. *)
Theorem summary_top_k (text : string) (num_sents : nat) :
  num_sents < List.length (sent_tokenize text) ->
  List.length (summary_sentences' text num_sents) =
    Nat.min num_sents
            (List.length (distinct (filter scored (sent_tokenize text)))) /\
  (forall a b,
     In a (summary_sentences' text num_sents) ->
     In b (sent_tokenize text) -> scored b = true ->
     ~ In b (summary_sentences' text num_sents) ->
     score_le (score text b) (score text a)).
Proof.
  intros Hlen. rewrite summary_scoring_branch by assumption.
  unfold top_sentences. split.
  - rewrite SortFacts.length_top, build_scores_keys. reflexivity.
  - intros a b Ha Hb Hsc Hnb.
    assert (Hkb : In b (dict_keys (build_scores' text)))
      by (apply scored_key; now split).
    pose proof (top_sentences_keys _ _ _ Ha) as Hka.
    destruct (SortFacts.top_dominates
                (score_of true_div (build_scores' text)) score_leb
                (fun s => index_of s (sent_tokenize text))
                score_leb_total score_leb_trans
                num_sents _ a b (keys_document_order text) Ha Hkb Hnb)
      as [H _].
    now rewrite (score_of_key _ _ Hka), (score_of_key _ _ Hkb) in H.
Qed.

(** C10: a text with more sentences than [num_sents] yields fewer than
    [num_sents] sentences as soon as fewer than [num_sents] distinct
    sentences have an alphanumeric token; when no sentence has one, the
    summary is the empty string. *)
Theorem summary_may_fall_short (text : string) (num_sents : nat) :
  num_sents < List.length (sent_tokenize text) ->
  (List.length (distinct (filter scored (sent_tokenize text))) < num_sents ->
   List.length (summary_sentences' text num_sents) < num_sents) /\
  ((forall sent, In sent (sent_tokenize text) -> sentence_tokens' sent = []) ->
   summary_sentences' text num_sents = [] /\
   extractive_summary sent_tokenize word_tokenize stop_words true_div score_leb
                      text num_sents = "").
Proof.
  intros Hlen. split.
  - intros Hd. rewrite summary_scoring_branch by assumption.
    unfold top_sentences.
    rewrite SortFacts.length_top, build_scores_keys. lia.
  - intros Hall.
    assert (E : summary_sentences' text num_sents = []).
    { rewrite summary_scoring_branch by assumption.
      unfold top_sentences. rewrite build_scores_keys.
      replace (filter scored (sent_tokenize text)) with (@nil string).
      - simpl. now rewrite firstn_nil.
      - symmetry. clear Hlen. induction (sent_tokenize text) as [|x r IH];
          simpl; [reflexivity|].
        unfold has_tokens at 1. rewrite (Hall x) by now left.
        apply IH. intros s Hs. apply Hall. now right. }
    split; [assumption|]. unfold extractive_summary. now rewrite E.
Qed.

End SummarizerFacts.

(** ** The Summarizer on concrete texts

    The runs below use the plain-text services and exact division. *)

Local Abbreviation plain_sentences :=
  (summary_sentences PlainText.sent_tokenize PlainText.word_tokenize
                     PlainText.stop_words exact_div Qle_bool).
Local Abbreviation plain_summary :=
  (extractive_summary PlainText.sent_tokenize PlainText.word_tokenize
                      PlainText.stop_words exact_div Qle_bool).
Local Abbreviation plain_score :=
  (normalized_score PlainText.word_tokenize PlainText.stop_words exact_div).

(** C1, witness of the amended statement: three sentences, two wanted. *)
Lemma summary_ranked_by_score_witness :
  let text := "Cats sleep. Dogs bark. Dogs dogs run." in
  2 < List.length (PlainText.sent_tokenize text) /\
  StronglySorted
    (fun a b =>
       Qle_bool (plain_score text b) (plain_score text a) = true /\
       (Qle_bool (plain_score text a) (plain_score text b) = true ->
        index_of a (PlainText.sent_tokenize text) <
        index_of b (PlainText.sent_tokenize text)))
    (plain_sentences text 2).
Proof.
  intros text. split.
  - vm_compute. lia.
  - apply (summary_ranked_by_score PlainText.sent_tokenize PlainText.word_tokenize
             PlainText.stop_words Q exact_div Qle_bool
             SortFacts.Qle_bool_total SortFacts.Qle_bool_trans text 2).
    vm_compute. lia.
Defined.

(** C1, counterexample: the text has the sentences "Cats sleep.",
    "Dogs bark." and "Dogs dogs run." with scores 2/2, 4/2 and 7/3; the
    summary of two sentences is "Dogs dogs run." followed by "Dogs bark.",
    the reverse of their order in the document. *)
Lemma summary_not_in_document_order :
  let text := "Cats sleep. Dogs bark. Dogs dogs run." in
  PlainText.sent_tokenize text = ["Cats sleep."; "Dogs bark."; "Dogs dogs run."] /\
  2 < List.length (PlainText.sent_tokenize text) /\
  build_scores PlainText.sent_tokenize PlainText.word_tokenize
               PlainText.stop_words exact_div text =
  [("Cats sleep.", 2 # 2); ("Dogs bark.", 4 # 2); ("Dogs dogs run.", 7 # 3)] /\
  plain_sentences text 2 = ["Dogs dogs run."; "Dogs bark."] /\
  plain_summary text 2 = "Dogs dogs run. Dogs bark." /\
  is_subsequence (plain_sentences text 2) (PlainText.sent_tokenize text) = false.
Proof.
  vm_compute. repeat split. lia.
Qed.

(** C2, witness. *)
Lemma scores_are_normalized_frequencies_witness :
  let text := "Cats sleep. Dogs bark. Dogs dogs run." in
  2 < List.length (PlainText.sent_tokenize text) /\
  dict_get (build_scores PlainText.sent_tokenize PlainText.word_tokenize
                         PlainText.stop_words exact_div text) "Dogs dogs run." =
  Some (plain_score text "Dogs dogs run.") /\
  plain_score text "Dogs dogs run." = 7 # 3.
Proof.
  intros text. split; [|split].
  - vm_compute. lia.
  - assert (H : 2 < List.length (PlainText.sent_tokenize text)) by (vm_compute; lia).
    destruct (scores_are_normalized_frequencies
                PlainText.sent_tokenize PlainText.word_tokenize
                PlainText.stop_words Q exact_div Qle_bool text 2 H)
      as [_ [_ [Hs _]]].
    apply (Hs "Dogs dogs run."). vm_compute. tauto.
  - reflexivity.
Defined.

(** C3, witness of the amended statement. *)
Lemma summary_top_k_witness :
  let text := "Cats sleep. Dogs bark. Dogs dogs run." in
  2 < List.length (PlainText.sent_tokenize text) /\
  List.length (plain_sentences text 2) =
  Nat.min 2 (List.length
               (distinct (filter (has_tokens PlainText.word_tokenize)
                                 (PlainText.sent_tokenize text)))).
Proof.
  intros text. split.
  - vm_compute. lia.
  - apply (summary_top_k PlainText.sent_tokenize PlainText.word_tokenize
             PlainText.stop_words Q exact_div Qle_bool
             SortFacts.Qle_bool_total SortFacts.Qle_bool_trans text 2).
    vm_compute. lia.
Defined.

(** C3, counterexample: four sentences, of which only "Cats sleep." has
    an alphanumeric token; two sentences are wanted, one is returned. *)
Lemma summary_shorter_than_requested :
  let text := "Cats sleep. ! ! !" in
  PlainText.sent_tokenize text = ["Cats sleep."; "!"; "!"; "!"] /\
  2 < List.length (PlainText.sent_tokenize text) /\
  plain_sentences text 2 = ["Cats sleep."] /\
  plain_summary text 2 = "Cats sleep." /\
  List.length (plain_sentences text 2) <> 2.
Proof.
  vm_compute. repeat split; lia.
Qed.

(** C10, witness: five sentences without any alphanumeric token, four
    wanted; the text is not empty and the summary is. *)
Lemma summary_may_fall_short_witness :
  let text := "! ! ! ! !" in
  text <> "" /\
  4 < List.length (PlainText.sent_tokenize text) /\
  (forall sent, In sent (PlainText.sent_tokenize text) ->
                sentence_tokens PlainText.word_tokenize sent = []) /\
  plain_summary text 4 = "".
Proof.
  intros text.
  assert (Hlen : 4 < List.length (PlainText.sent_tokenize text)) by (vm_compute; lia).
  assert (Hall : forall sent, In sent (PlainText.sent_tokenize text) ->
                              sentence_tokens PlainText.word_tokenize sent = []).
  { intros sent H. vm_compute in H.
    repeat (destruct H as [<-|H]; [vm_compute; reflexivity|]). contradiction. }
  split; [discriminate|]. split; [exact Hlen|]. split; [exact Hall|].
  apply (summary_may_fall_short PlainText.sent_tokenize PlainText.word_tokenize
           PlainText.stop_words Q exact_div Qle_bool text 4 Hlen). exact Hall.
Defined.

(** ** Concept Extractor *)

Section ConceptFacts.
Import DictFacts CounterFacts.

Variable word_tokenize : string -> list string.
Variable stop_words : list string.

Local Abbreviation concept_words' := (concept_words word_tokenize stop_words).
Local Abbreviation concept_tokens' := (concept_tokens word_tokenize stop_words).
Local Abbreviation extract_concepts' := (extract_concepts word_tokenize stop_words).

Lemma concept_words_tokens (summary : string) :
  concept_words' summary = concept_tokens' summary.
Proof.
  unfold concept_words, concept_tokens.
  rewrite filter_map_swap, filter_filter. f_equal.
  apply filter_ext. intros w. apply andb_comm.
Qed.

Lemma StronglySorted_map {A B} (f : A -> B) (R : B -> B -> Prop) (l : list A) :
  StronglySorted R (map f l) -> StronglySorted (fun a b => R (f a) (f b)) l.
Proof.
  induction l as [|x r IH]; simpl; intros H; constructor;
    inversion H as [|? ? Hs Hf]; subst.
  - now apply IH.
  - rewrite Forall_forall in *. intros y Hy. apply Hf. now apply in_map.
Qed.

(** The entries of a counter are laid out by first occurrence of the word. *)
Lemma Counter_sorted (ws : list string) :
  StronglySorted (fun a b => index_of (fst a) ws < index_of (fst b) ws) (Counter ws).
Proof.
  apply StronglySorted_map with (R := fun a b => index_of a ws < index_of b ws).
  fold (dict_keys (Counter ws)). rewrite Counter_keys. apply distinct_sorted.
Qed.

Lemma Counter_has_entry (ws : list string) (w : string) :
  In w ws -> In (w, occurrences w ws) (Counter ws).
Proof.
  intros H. rewrite <- distinct_In, <- Counter_keys in H.
  unfold dict_keys in H. apply in_map_iff in H.
  destruct H as [[k n] [E H]]. simpl in E. subst k.
  destruct (Counter_entry _ _ _ H) as [-> _]. exact H.
Qed.

(** C8: the result lists words of the summary's alphabetic, lower-cased,
    non-stop-word tokens with their numbers of occurrences, each word
    once; it holds [min top_n d] entries for [d] distinct tokens; the
    entries are in descending order of count, entries of equal count in
    order of first occurrence in the summary; every token left out is
    ranked after every entry kept; and an empty summary (which has no
    tokens) gives the empty sequence. *)
Theorem concepts_are_top_frequent (summary : string) (top_n : nat) :
  let ws := concept_tokens' summary in
  let result := extract_concepts' summary top_n in
  (forall w c, In (w, c) result -> In w ws /\ c = occurrences w ws) /\
  NoDup (map fst result) /\
  List.length result = Nat.min top_n (List.length (distinct ws)) /\
  StronglySorted
    (fun a b => snd b <= snd a /\
                (snd a <= snd b -> index_of (fst a) ws < index_of (fst b) ws))
    result /\
  (forall w, In w ws -> ~ In w (map fst result) ->
     forall t c, In (t, c) result ->
       occurrences w ws <= c /\
       (c <= occurrences w ws -> index_of t ws < index_of w ws)) /\
  (word_tokenize "" = [] -> extract_concepts' "" top_n = []).
Proof.
  intros ws result. subst ws result.
  unfold extract_concepts, most_common. rewrite concept_words_tokens.
  set (ws := concept_tokens' summary).
  set (sorted := sorted_reverse snd Nat.leb (Counter ws)).
  assert (Hperm : Permutation sorted (Counter ws))
    by apply SortFacts.sorted_reverse_perm.
  assert (Hsorted : StronglySorted
            (ranked_before snd Nat.leb (fun e => index_of (fst e) ws)) sorted).
  { apply SortFacts.sorted_reverse_sorted.
    - apply SortFacts.leb_total.
    - apply SortFacts.leb_trans.
    - apply Counter_sorted. }
  split; [|split; [|split; [|split; [|split]]]].
  - intros w c H. apply SortFacts.In_firstn in H.
    apply (Permutation_in _ Hperm) in H.
    destruct (Counter_entry _ _ _ H). now split.
  - assert (Hn : NoDup (map fst sorted)).
    { apply (Permutation_NoDup (l := dict_keys (Counter ws))).
      - unfold dict_keys. apply Permutation_map. now symmetry.
      - rewrite Counter_keys. apply distinct_NoDup. }
    rewrite <- (firstn_skipn top_n sorted), map_app in Hn.
    now apply NoDup_app_remove_r in Hn.
  - unfold sorted. rewrite SortFacts.length_top.
    rewrite <- Counter_keys. unfold dict_keys. now rewrite length_map.
  - apply SortFacts.StronglySorted_firstn.
    revert Hsorted. apply SortFacts.StronglySorted_weaken.
    intros a b _ _ [H1 H2]. rewrite !Nat.leb_le in *. now split.
  - intros w Hw Hout t c Ht.
    assert (Hb : In (w, occurrences w ws) (Counter ws))
      by now apply Counter_has_entry.
    assert (Hnb : ~ In (w, occurrences w ws) (firstn top_n sorted)).
    { intros H. apply Hout.
      change w with (fst (w, occurrences w ws)). now apply in_map. }
    destruct (SortFacts.top_dominates
                snd Nat.leb (fun e => index_of (fst e) ws)
                SortFacts.leb_total SortFacts.leb_trans
                top_n _ (t, c) (w, occurrences w ws)
                (Counter_sorted ws) Ht Hb Hnb) as [H1 H2].
    simpl in H1, H2. rewrite !Nat.leb_le in *. now split.
  - intros Hempty. unfold concept_words. rewrite Hempty. simpl.
    now rewrite firstn_nil.
Qed.

End ConceptFacts.

(** C8, witness: the empty summary, and a summary whose two most frequent
    concepts are "dogs" (three times) and "cats" (once, first of the
    words that occur once). *)
Lemma concepts_are_top_frequent_witness :
  PlainText.word_tokenize "" = [] /\
  extract_concepts PlainText.word_tokenize PlainText.stop_words "" 15 = [] /\
  extract_concepts PlainText.word_tokenize PlainText.stop_words
                   "Cats sleep. Dogs bark. Dogs dogs run." 2 =
  [("dogs", 3); ("cats", 1)].
Proof.
  split; [reflexivity|]. split.
  - apply (concepts_are_top_frequent PlainText.word_tokenize
             PlainText.stop_words "" 15). reflexivity.
  - reflexivity.
Defined.

(** ** The random source *)

Module RandomFacts.

Lemma randbelow_lt (n : nat) (r : Rng) : 0 < n -> fst (randbelow n r) < n.
Proof.
  intros H. destruct r as [|x r]; simpl; [assumption|].
  apply Nat.mod_upper_bound. lia.
Qed.

Lemma choice_In {A} (d : A) (l : list A) (r : Rng) :
  l <> [] -> In (fst (choice d l r)) l.
Proof.
  intros H. unfold choice, bind, ret.
  pose proof (randbelow_lt (List.length l) r) as Hlt.
  destruct (randbelow (List.length l) r) as [i r']. simpl in *.
  apply nth_In. apply Hlt. destruct l; [contradiction|simpl; lia].
Qed.

Lemma remove_at_perm {A} (i : nat) (l : list A) (x : A) :
  nth_error l i = Some x -> Permutation (x :: remove_at i l) l.
Proof.
  revert i. induction l as [|y l IH]; intros i H.
  - destruct i; discriminate.
  - destruct i as [|i]; simpl in *.
    + injection H as ->. reflexivity.
    + rewrite perm_swap. constructor. now apply IH.
Qed.

(** A sample is [k] elements taken from distinct positions. *)
Lemma sample_spec {A} (k : nat) (l : list A) (r : Rng) :
  exists rest,
    Permutation (fst (sample l k r) ++ rest) l /\
    List.length (fst (sample l k r)) = Nat.min k (List.length l).
Proof.
  revert l r. induction k as [|k IH]; intros l r; simpl.
  - exists l. split; reflexivity.
  - unfold bind.
    pose proof (randbelow_lt (List.length l) r) as Hlt.
    destruct (randbelow (List.length l) r) as [i r']. simpl in Hlt.
    destruct (nth_error l i) as [x|] eqn:E.
    + destruct (IH (remove_at i l) r') as [rest [Hp Hl]].
      pose proof (Permutation_length (remove_at_perm _ _ _ E)) as El.
      rewrite <- El.
      destruct (sample (remove_at i l) k r') as [res r'']. simpl in *.
      exists rest. split.
      * rewrite Hp. now apply remove_at_perm.
      * now rewrite Hl.
    + exists l. simpl. split; [reflexivity|].
      apply nth_error_None in E. destruct l as [|y l]; [reflexivity|].
      exfalso. assert (i < List.length (y :: l)) by (apply Hlt; simpl; lia). lia.
Qed.

Lemma shuffle_perm {A} (l : list A) (r : Rng) : Permutation (fst (shuffle l r)) l.
Proof.
  unfold shuffle. destruct (sample_spec (List.length l) l r) as [rest [Hp Hl]].
  rewrite Nat.min_id in Hl.
  assert (rest = []) as ->.
  { apply Permutation_length in Hp. rewrite length_app in Hp.
    destruct rest; [reflexivity|simpl in Hp; lia]. }
  now rewrite app_nil_r in Hp.
Qed.

End RandomFacts.

(** ** Quiz Synthesizer *)

Section QuizFacts.
Import DictFacts RandomFacts StrFacts.

Variable sent_tokenize : string -> list string.
Variable word_tokenize : string -> list string.
Variable pos_tag : list string -> list (string * string).
Variable list_of_set : list string -> list string.

Local Abbreviation nouns_of' := (nouns_of word_tokenize pos_tag list_of_set).
Local Abbreviation generate_quiz' :=
  (generate_quiz sent_tokenize word_tokenize pos_tag list_of_set).
Local Abbreviation generate_quiz_trace' :=
  (generate_quiz_trace sent_tokenize word_tokenize pos_tag list_of_set).

Lemma lexicon_NoDup : NoDup lexicon.
Proof.
  unfold lexicon.
  repeat (constructor; [simpl; intuition discriminate|]). constructor.
Qed.

Lemma mcq_item_integrity (target sent : string) (r : Rng) :
  let q := fst (mcq_item target sent r) in
  item_type q = Some "mcq" /\
  question q = question_text target sent /\
  mcq_integrity q (capitalize (ans_clean target)).
Proof.
  unfold mcq_item, bind, ret.
  destruct (sample_spec 3 lexicon r) as [rest [Hp Hl]].
  destruct (sample lexicon 3 r) as [ds r1]. simpl in Hp, Hl.
  set (correct := capitalize (ans_clean target)).
  pose proof (shuffle_perm (correct :: ds) r1) as Hs.
  destruct (shuffle (correct :: ds) r1) as [opts r2]. simpl in Hs. simpl.
  assert (Hnd : NoDup (correct :: ds)).
  { constructor.
    - intros Hin. apply (capitalize_not_in_lexicon (ans_clean target)).
      apply (Permutation_in _ Hp), in_or_app. now left.
    - pose proof lexicon_NoDup as Hlex.
      apply (Permutation_NoDup (Permutation_sym Hp)) in Hlex.
      now apply NoDup_app_remove_r in Hlex. }
  assert (Hin : In correct opts)
    by (apply (Permutation_in _ (Permutation_sym Hs)); now left).
  split; [reflexivity|]. split; [reflexivity|]. split; [reflexivity|].
  exists opts, (index_of correct opts). simpl.
  split; [reflexivity|]. split.
  { rewrite (Permutation_length Hs). simpl. now rewrite Hl. }
  assert (Hno : NoDup opts)
    by (apply (Permutation_NoDup (Permutation_sym Hs)); assumption).
  split; [assumption|]. split.
  { now apply NoDup_count_occ'. }
  split; [reflexivity|]. now apply index_of_nth.
Qed.

Lemma make_item_built (nouns : list string) (n i : nat) (sent : string) (r : Rng) :
  built_from nouns sent (fst (make_item nouns n i sent r)).
Proof.
  unfold make_item, bind.
  assert (Ht : forall r0,
             let target := fst (match nouns with
                                | [] => ret "concept"
                                | _ => choice "concept" nouns
                                end r0) in
             In target nouns \/ (nouns = [] /\ target = "concept")).
  { intros r0. destruct nouns as [|x xs] eqn:E.
    - right. split; reflexivity.
    - left. apply choice_In. discriminate. }
  specialize (Ht r).
  destruct (match nouns with [] => ret "concept" | _ => choice "concept" nouns end r)
    as [target r1].
  simpl in Ht. exists target. split; [assumption|].
  destruct (i <? n / 2)%nat.
  - destruct (mcq_item_integrity target sent r1) as [H1 [H2 H3]].
    split; [assumption|]. left. now split.
  - simpl. split; [reflexivity|]. now right.
Qed.

Lemma available_nil (sentences used : list string) :
  filter (fun s => negb (mem s used)) sentences = [] ->
  incl sentences used.
Proof.
  induction sentences as [|x r IH]; simpl; intros H s Hs; [contradiction|].
  destruct (mem x used) eqn:E; simpl in H; [|discriminate].
  destruct Hs as [<-|Hs]; [now apply mem_In|now apply IH].
Qed.

Lemma used_bound (sentences used : list string) :
  NoDup used -> incl used sentences ->
  List.length used <= List.length (distinct sentences).
Proof.
  intros Hn Hi. apply NoDup_incl_length; [assumption|].
  intros s Hs. apply distinct_In. now apply Hi.
Qed.

(** The loop invariant: every item is built from its own sentence, the
    sentences used are pairwise distinct sentences of the summary, and
    the loop adds items until the request is met or no sentence is left. *)
Lemma quiz_loop_spec (sentences nouns : list string) (n todo : nat) :
  forall (i : nat) (quiz : list QuizItem) (used : list string) (r : Rng),
    Forall2 (built_from nouns) used quiz ->
    NoDup used -> incl used sentences ->
    let res := fst (quiz_loop sentences nouns n todo i quiz used r) in
    Forall2 (built_from nouns) (snd res) (fst res) /\
    NoDup (snd res) /\ incl (snd res) sentences /\
    List.length (snd res) =
      Nat.min (List.length used + todo) (List.length (distinct sentences)).
Proof.
  induction todo as [|todo IH]; intros i quiz used r Hb Hn Hi; simpl.
  - repeat split; try assumption.
    pose proof (used_bound _ _ Hn Hi). lia.
  - destruct (filter (fun s => negb (mem s used)) sentences) as [|a av] eqn:E.
    + simpl. repeat split; try assumption.
      pose proof (used_bound _ _ Hn Hi) as Hle.
      apply available_nil in E.
      assert (List.length (distinct sentences) <= List.length used).
      { apply NoDup_incl_length; [apply distinct_NoDup|].
        intros s Hs. apply E. now apply distinct_In. }
      lia.
    + unfold bind.
      pose proof (choice_In "" (a :: av) r) as Hc.
      destruct (choice "" (a :: av) r) as [sent r1]. simpl in Hc.
      assert (Hs : In sent (a :: av)) by (apply Hc; discriminate).
      rewrite <- E in Hs. apply filter_In in Hs. destruct Hs as [Hs1 Hs2].
      apply negb_true_iff, mem_false in Hs2.
      pose proof (make_item_built nouns n i sent r1) as Hm.
      destruct (make_item nouns n i sent r1) as [item r2]. simpl in Hm.
      specialize (IH (S i) (quiz ++ [item])%list (used ++ [sent])%list r2).
      rewrite length_app in IH. simpl in IH.
      replace (List.length used + 1 + todo) with (List.length used + S todo)
        in IH by lia.
      apply IH.
      * apply Forall2_app; [assumption|]. now constructor.
      * apply NoDup_app; [assumption|repeat constructor; auto|].
        intros x Hx [<-|[]]. contradiction.
      * intros x Hx. apply in_app_or in Hx.
        destruct Hx as [Hx|[<-|[]]]; [now apply Hi|assumption].
Qed.

Lemma trace_spec (summary : string) (n : nat) (r : Rng) :
  let res := fst (generate_quiz_trace' summary n r) in
  Forall2 (built_from (nouns_of' summary)) (snd res) (fst res) /\
  NoDup (snd res) /\ incl (snd res) (sent_tokenize summary) /\
  List.length (snd res) =
    Nat.min n (List.length (distinct (sent_tokenize summary))).
Proof.
  unfold generate_quiz_trace.
  destruct (sent_tokenize summary) as [|s0 ss] eqn:E.
  - simpl. repeat split; try constructor.
    + intros x [].
    + now rewrite Nat.min_0_r.
  - apply (quiz_loop_spec (s0 :: ss) (nouns_of' summary) n n 0 [] [] r).
    + constructor.
    + constructor.
    + intros x [].
Qed.

Lemma Forall2_In_r {A B} (P : A -> B -> Prop) (l1 : list A) (l2 : list B) (b : B) :
  Forall2 P l1 l2 -> In b l2 -> exists a, In a l1 /\ P a b.
Proof.
  induction 1 as [|x y l1 l2 Hxy Hf IH]; simpl; [contradiction|].
  intros [<-|H].
  - exists x. split; [now left|assumption].
  - destruct (IH H) as [a [Ha Hp]]. exists a. split; [now right|assumption].
Qed.

Lemma Forall2_nth {A B} (P : A -> B -> Prop) (l1 : list A) (l2 : list B)
      (i : nat) (a : A) (b : B) :
  Forall2 P l1 l2 -> nth_error l1 i = Some a -> nth_error l2 i = Some b -> P a b.
Proof.
  intros H. revert i. induction H as [|x y l1 l2 Hxy Hf IH]; intros i Ha Hb.
  - destruct i; discriminate.
  - destruct i as [|i]; simpl in *.
    + injection Ha as <-. injection Hb as <-. assumption.
    + now apply (IH i).
Qed.

(** The key of every short-answer item of a generated quiz is lower-case. *)
Lemma short_keys_lowercase (summary : string) (n : nat) (r : Rng) (q : QuizItem) :
  In q (generate_quiz' summary n r) -> item_type q = Some "short" ->
  exists key, answer q = Some key /\ lower key = key.
Proof.
  intros Hin Hty. unfold generate_quiz in Hin.
  destruct (trace_spec summary n r) as [Hf _].
  destruct (Forall2_In_r _ _ _ _ Hf Hin) as [sent [_ [target [_ [_ Hq]]]]].
  destruct Hq as [[Hm _]|Hq].
  - rewrite Hm in Hty. discriminate.
  - subst q. simpl. eexists. split; [reflexivity|]. apply lower_idem.
Qed.

(** C4: every multiple-choice item of a generated quiz has four pairwise
    distinct options; its correct answer is the capitalized canonical
    answer of some target (a noun of the summary, or the placeholder),
    occurs exactly once among the options, and [correct_idx] is its
    position in the shuffled options. *)
Theorem mcq_options_integrity (summary : string) (num_questions : nat) (r : Rng)
        (q : QuizItem) :
  In q (generate_quiz' summary num_questions r) ->
  item_type q = Some "mcq" ->
  exists target,
    (In target (nouns_of' summary) \/
     (nouns_of' summary = [] /\ target = "concept")) /\
    mcq_integrity q (capitalize (ans_clean target)).
Proof.
  intros Hin Hty. unfold generate_quiz in Hin.
  destruct (trace_spec summary num_questions r) as [Hf _].
  destruct (Forall2_In_r _ _ _ _ Hf Hin) as [sent [_ [target [Ht [_ Hq]]]]].
  exists target. split; [assumption|].
  destruct Hq as [[_ Hq]|Hq]; [assumption|].
  subst q. simpl in Hty. discriminate.
Qed.

(** C5: a generated quiz has at most [num_questions] items; its items
    are built, one each, from pairwise distinct sentences of the summary;
    it is shorter than requested exactly when the summary has fewer
    distinct sentences than requested, and then every sentence was used. *)
Theorem quiz_uses_distinct_sentences (summary : string) (num_questions : nat)
        (r : Rng) :
  let quiz := generate_quiz' summary num_questions r in
  let used := snd (fst (generate_quiz_trace' summary num_questions r)) in
  let sentences := sent_tokenize summary in
  List.length quiz <= num_questions /\
  NoDup used /\ incl used sentences /\
  Forall2 (built_from (nouns_of' summary)) used quiz /\
  (List.length quiz < num_questions <->
   List.length (distinct sentences) < num_questions) /\
  (List.length quiz < num_questions ->
   forall s, In s sentences -> In s used).
Proof.
  intros quiz used sentences. subst quiz used sentences.
  unfold generate_quiz.
  destruct (trace_spec summary num_questions r) as [Hf [Hn [Hi Hl]]].
  pose proof (Forall2_length Hf) as Hlen. rewrite <- Hlen.
  repeat split; try assumption; try lia.
  intros Hshort s Hs.
  apply (NoDup_length_incl Hn (l' := distinct (sent_tokenize summary))).
  - lia.
  - intros x Hx. apply distinct_In. now apply Hi.
  - now apply distinct_In.
Qed.

(** C9: the item at position [i] of a generated quiz blanks, in the
    sentence chosen for it, a target drawn from the nouns of the whole
    summary; when that target has no occurrence (up to case) in the
    sentence, the question is the stripped sentence itself, with nothing
    blanked, while the stored answer is still derived from the target. *)
Theorem absent_noun_leaves_sentence (summary : string) (num_questions : nat)
        (r : Rng) (i : nat) (sent : string) (q : QuizItem) :
  nth_error (snd (fst (generate_quiz_trace' summary num_questions r))) i = Some sent ->
  nth_error (generate_quiz' summary num_questions r) i = Some q ->
  exists target,
    (In target (nouns_of' summary) \/
     (nouns_of' summary = [] /\ target = "concept")) /\
    question q = question_text target sent /\
    (answer q = Some (capitalize (ans_clean target)) \/
     answer q = Some (lower (ans_clean target))) /\
    (ci_occurs target sent = false -> question q = strip sent).
Proof.
  intros Hs Hq. unfold generate_quiz in Hq.
  destruct (trace_spec summary num_questions r) as [Hf _].
  destruct (Forall2_nth _ _ _ _ _ _ Hf Hs Hq) as [target [Ht [Hqt Hk]]].
  exists target. split; [assumption|]. split; [assumption|]. split.
  - destruct Hk as [[_ [Ha _]]|Hk]; [now left|].
    right. subst q. reflexivity.
  - intros Habs. rewrite Hqt. unfold question_text.
    now rewrite re_sub_first_absent.
Qed.

End QuizFacts.

(** ** The Quiz Synthesizer on a concrete summary *)

Local Abbreviation plain_quiz :=
  (generate_quiz PlainText.sent_tokenize PlainText.word_tokenize
                 PlainText.pos_tag PlainText.list_of_set).
Local Abbreviation plain_trace :=
  (generate_quiz_trace PlainText.sent_tokenize PlainText.word_tokenize
                       PlainText.pos_tag PlainText.list_of_set).
Local Abbreviation plain_nouns :=
  (nouns_of PlainText.word_tokenize PlainText.pos_tag PlainText.list_of_set).

(** C4, witness: the multiple-choice item of a two-question quiz. *)
Lemma mcq_options_integrity_witness :
  let summary := "Cats sleep. Dogs bark." in
  let r := [0; 0; 4; 0; 2; 1; 2; 0; 0; 0; 2] in
  let q := {| item_type := Some "mcq";
              question := "____ sleep.";
              answer := Some "Cats";
              options := Some ["process"; "model"; "Cats"; "system"];
              correct_idx := Some 2%Z |} in
  In q (plain_quiz summary 2 r) /\ item_type q = Some "mcq" /\
  exists target,
    (In target (plain_nouns summary) \/
     (plain_nouns summary = [] /\ target = "concept")) /\
    mcq_integrity q (capitalize (ans_clean target)).
Proof.
  intros summary r q.
  assert (Hin : In q (plain_quiz summary 2 r)) by (vm_compute; left; reflexivity).
  split; [exact Hin|]. split; [reflexivity|].
  apply (mcq_options_integrity PlainText.sent_tokenize PlainText.word_tokenize
           PlainText.pos_tag PlainText.list_of_set summary 2 r q Hin).
  reflexivity.
Defined.

(** C9, witness: the first item is built from "Cats sleep." with the
    noun "dogs" of the other sentence; nothing is blanked and the stored
    answer is "Dogs". *)
Lemma absent_noun_leaves_sentence_witness :
  let summary := "Cats sleep. Dogs bark." in
  let r := [0; 2; 4; 0; 2; 1; 2; 0; 0; 0; 2; 5; 1; 3; 3; 0; 1; 0] in
  let q := {| item_type := Some "mcq";
              question := "Cats sleep.";
              answer := Some "Dogs";
              options := Some ["process"; "model"; "Dogs"; "system"];
              correct_idx := Some 2%Z |} in
  nth_error (snd (fst (plain_trace summary 6 r))) 0 = Some "Cats sleep." /\
  nth_error (plain_quiz summary 6 r) 0 = Some q /\
  ci_occurs "dogs" "Cats sleep." = false /\
  contains "____" (question q) = false /\
  exists target,
    (In target (plain_nouns summary) \/
     (plain_nouns summary = [] /\ target = "concept")) /\
    question q = question_text target "Cats sleep." /\
    (answer q = Some (capitalize (ans_clean target)) \/
     answer q = Some (lower (ans_clean target))) /\
    (ci_occurs target "Cats sleep." = false -> question q = strip "Cats sleep.").
Proof.
  intros summary r q.
  assert (H1 : nth_error (snd (fst (plain_trace summary 6 r))) 0 = Some "Cats sleep.")
    by reflexivity.
  assert (H2 : nth_error (plain_quiz summary 6 r) 0 = Some q) by reflexivity.
  split; [exact H1|]. split; [exact H2|]. split; [reflexivity|].
  split; [reflexivity|].
  exact (absent_noun_leaves_sentence PlainText.sent_tokenize PlainText.word_tokenize
           PlainText.pos_tag PlainText.list_of_set summary 6 r 0 "Cats sleep." q H1 H2).
Defined.

(** ** Scorer *)

(** *** Rounding: integers, floats and decimals *)

Module RoundFacts.

Local Open Scope Q_scope.

Lemma round_half_even_nearest (x : Q) : nearest_even x (round_half_even x).
Proof.
  unfold nearest_even, round_half_even.
  pose proof (Qfloor_le x) as Hl. pose proof (Qlt_floor x) as Hu.
  set (f := Qfloor x) in *.
  rewrite inject_Z_plus in Hu. change (inject_Z 1) with 1 in Hu.
  destruct (Qcompare (x - inject_Z f) (1 # 2)) eqn:C.
  - apply Qeq_alt in C. destruct (Z.even f) eqn:Ev.
    + split; [lra|]. split; [lra|]. intros _. exact Ev.
    + rewrite inject_Z_plus. change (inject_Z 1) with 1.
      split; [lra|]. split; [lra|].
      intros _. rewrite Z.even_add, Ev. reflexivity.
  - apply Qlt_alt in C. split; [lra|]. split; [lra|]. intros [E|E]; lra.
  - apply Qgt_alt in C. rewrite inject_Z_plus. change (inject_Z 1) with 1.
    split; [lra|]. split; [lra|]. intros [E|E]; lra.
Qed.

Lemma nearest_even_comp (x y : Q) (k : Z) :
  x == y -> nearest_even x k -> nearest_even y k.
Proof.
  intros E [Hl [Hu Ht]].
  split; [lra|]. split; [lra|]. intros [H|H]; apply Ht; [left|right]; lra.
Qed.

(** The nearest integer, ties to even, is determined. *)
Lemma nearest_even_unique (x : Q) (k k' : Z) :
  nearest_even x k -> nearest_even x k' -> k = k'.
Proof.
  intros [Hl [Hu Ht]] [Hl' [Hu' Ht']].
  assert (L : inject_Z (k + -2) < inject_Z k').
  { rewrite inject_Z_plus. change (inject_Z (-2)) with (-2 # 1). lra. }
  assert (U : inject_Z k' < inject_Z (k + 2)).
  { rewrite inject_Z_plus. change (inject_Z 2) with 2. lra. }
  rewrite <- Zlt_Qlt in L, U.
  assert (C : (k' = k + -1 \/ k' = k \/ k' = k + 1)%Z) by lia.
  destruct C as [C|[C|C]]; [|now symmetry|]; exfalso; subst k'.
  - assert (I : inject_Z (k + -1) == inject_Z k - 1).
    { rewrite inject_Z_plus. change (inject_Z (-1)) with (-1 # 1). lra. }
    rewrite I in Hl', Hu'.
    assert (E : Z.even k = true) by (apply Ht; right; lra).
    assert (E' : Z.even (k + -1) = true) by (apply Ht'; left; rewrite I; lra).
    rewrite Z.even_add, E in E'. discriminate.
  - assert (I : inject_Z (k + 1) == inject_Z k + 1).
    { rewrite inject_Z_plus. change (inject_Z 1) with 1. lra. }
    rewrite I in Hl', Hu'.
    assert (E : Z.even k = true) by (apply Ht; left; lra).
    assert (E' : Z.even (k + 1) = true) by (apply Ht'; right; rewrite I; lra).
    rewrite Z.even_add, E in E'. discriminate.
Qed.

Lemma nearest_even_bounds (y : Q) (k hi : Z) :
  nearest_even y k -> 0 <= y -> y <= inject_Z hi -> (0 <= k <= hi)%Z.
Proof.
  intros [Hl [Hu _]] H0 H1.
  assert (L : inject_Z (-1) < inject_Z k).
  { change (inject_Z (-1)) with (-1 # 1). lra. }
  assert (U : inject_Z k < inject_Z (hi + 1)).
  { rewrite inject_Z_plus. change (inject_Z 1) with 1. lra. }
  rewrite <- Zlt_Qlt in L, U. lia.
Qed.

Lemma round_half_even_bounds (y : Q) (hi : Z) :
  0 <= y -> y <= inject_Z hi -> (0 <= round_half_even y <= hi)%Z.
Proof. apply nearest_even_bounds, round_half_even_nearest. Qed.

(** An integer is its own rounding. *)
Lemma round_half_even_Z (x : Q) (z : Z) :
  x == inject_Z z -> round_half_even x = z.
Proof.
  intros E. destruct (round_half_even_nearest x) as [Hl [Hu _]].
  assert (L : inject_Z (z + -1) < inject_Z (round_half_even x)).
  { rewrite inject_Z_plus. change (inject_Z (-1)) with (-1 # 1). lra. }
  assert (U : inject_Z (round_half_even x) < inject_Z (z + 1)).
  { rewrite inject_Z_plus. change (inject_Z 1) with 1. lra. }
  rewrite <- Zlt_Qlt in L, U. lia.
Qed.

Lemma pow2_pos (e : Z) : 0 < pow2 e.
Proof. apply Qpower_0_lt. reflexivity. Qed.

Lemma pow2_add (a b : Z) : pow2 (a + b) == pow2 a * pow2 b.
Proof. apply Qpower_plus. discriminate. Qed.

Lemma pow2_Z (n : Z) : (0 <= n)%Z -> pow2 n == inject_Z (2 ^ n).
Proof. intros H. unfold pow2. now rewrite Zpower_Qpower. Qed.

Lemma pow2_lt_inv (a b : Z) : pow2 a < pow2 b -> (a < b)%Z.
Proof. intros H. apply (Qpower_lt_compat_l_inv 2); [exact H|reflexivity]. Qed.

Lemma pow2_le_inv (a b : Z) : pow2 a <= pow2 b -> (a <= b)%Z.
Proof. intros H. apply (Qpower_le_compat_l_inv 2); [exact H|reflexivity]. Qed.

Lemma pow2_inv (q : Z) : pow2 q * pow2 (- q) == 1.
Proof. rewrite <- pow2_add, Z.add_opp_diag_r. reflexivity. Qed.

Lemma div_pow2 (x : Q) (q : Z) : x / pow2 q == x * pow2 (- q).
Proof.
  unfold Qdiv. apply Qmult_comp; [reflexivity|].
  unfold pow2. now rewrite Qpower_opp.
Qed.

(** [ilog2 x] is the exponent of the binade of [x]. *)
Lemma ilog2_spec (x : Q) :
  0 < x -> pow2 (ilog2 x) <= x /\ x < pow2 (ilog2 x + 1).
Proof.
  intros Hx. destruct x as [n d].
  assert (Hn : (0 < n)%Z) by (unfold Qlt in Hx; simpl in Hx; lia).
  unfold ilog2. cbn [Qnum Qden].
  destruct (Z.log2_spec n Hn) as [Ha1 Ha2].
  destruct (Z.log2_spec (Z.pos d) (Pos2Z.is_pos d)) as [Hb1 Hb2].
  pose proof (Z.log2_nonneg n) as Ha0.
  pose proof (Z.log2_nonneg (Z.pos d)) as Hb0.
  set (a := Z.log2 n) in *. set (b := Z.log2 (Z.pos d)) in *.
  assert (HN : (n # d) * inject_Z (Z.pos d) == inject_Z n).
  { unfold Qeq. simpl. lia. }
  assert (A1 : pow2 a <= inject_Z n)
    by (rewrite pow2_Z by lia; now rewrite <- Zle_Qle).
  assert (A2 : inject_Z n < pow2 (a + 1)).
  { rewrite pow2_Z by lia. rewrite <- Zlt_Qlt.
    replace (a + 1)%Z with (Z.succ a) by lia. exact Ha2. }
  assert (B1 : pow2 b <= inject_Z (Z.pos d))
    by (rewrite pow2_Z by lia; now rewrite <- Zle_Qle).
  assert (B2 : inject_Z (Z.pos d) < pow2 (b + 1)).
  { rewrite pow2_Z by lia. rewrite <- Zlt_Qlt.
    replace (b + 1)%Z with (Z.succ b) by lia. exact Hb2. }
  assert (HD : 0 < inject_Z (Z.pos d)) by reflexivity.
  set (D := inject_Z (Z.pos d)) in *.
  destruct (Qle_bool (pow2 (a - b)) (n # d)) eqn:E.
  - apply Qle_bool_iff in E. split; [exact E|].
    apply (Qmult_lt_r _ _ D HD). rewrite HN.
    apply Qlt_le_trans with (pow2 (a + 1)); [exact A2|].
    replace (a + 1)%Z with ((a - b + 1) + b)%Z by lia. rewrite pow2_add.
    apply Qmult_le_l; [apply pow2_pos|exact B1].
  - assert (E' : n # d < pow2 (a - b)).
    { apply Qnot_le_lt. intros H. apply Qle_bool_iff in H. congruence. }
    replace (a - b - 1 + 1)%Z with (a - b)%Z by lia. split; [|exact E'].
    apply (Qmult_le_r _ _ D HD). rewrite HN.
    apply Qle_trans with (pow2 a); [|exact A1].
    replace a with ((a - b - 1) + (b + 1))%Z at 2 by lia. rewrite pow2_add.
    apply Qmult_le_l; [apply pow2_pos|apply Qlt_le_weak; exact B2].
Qed.

(** The binade of a number is determined. *)
Lemma binade_unique (x : Q) (e e' : Z) :
  pow2 e <= x -> x < pow2 (e + 1) -> pow2 e' <= x -> x < pow2 (e' + 1) -> e = e'.
Proof.
  intros H1 H2 H3 H4.
  assert (L1 : pow2 e < pow2 (e' + 1)) by (eapply Qle_lt_trans; eassumption).
  assert (L2 : pow2 e' < pow2 (e + 1)) by (eapply Qle_lt_trans; eassumption).
  apply pow2_lt_inv in L1, L2. lia.
Qed.

(** [binary64] rounds to the nearest float, ties to even. *)
Lemma binary64_nearest (x : Q) : 0 <= x -> nearest_binary64 x (binary64 x).
Proof.
  intros Hx. unfold binary64. destruct (Qcompare x 0) eqn:C.
  - apply Qeq_alt in C. left. split; [exact C|reflexivity].
  - apply Qlt_alt in C. lra.
  - apply Qgt_alt in C. right. split; [exact C|].
    destruct (ilog2_spec x C) as [H1 H2].
    exists (ilog2 x), (round_half_even (x / pow2 (Z.max (ilog2 x - 52) (-1074)))).
    split; [exact H1|]. split; [exact H2|].
    split; [apply round_half_even_nearest|].
    unfold round_pos. apply Qred_correct.
Qed.

(** The float nearest to a number is determined, and depends on the
    value of the number only. *)
Lemma nearest_binary64_unique (x x' y y' : Q) :
  x == x' -> nearest_binary64 x y -> nearest_binary64 x' y' -> y == y'.
Proof.
  intros E [[Hx Hy]|[Hx [e [m [H1 [H2 [Hm Hy]]]]]]]
           [[Hx' Hy']|[Hx' [e' [m' [H1' [H2' [Hm' Hy']]]]]]].
  - now rewrite Hy, Hy'.
  - lra.
  - lra.
  - rewrite <- E in H1', H2'.
    assert (Ee : e = e') by (eapply binade_unique; eassumption).
    subst e'.
    assert (Ed : x' / pow2 (Z.max (e - 52) (-1074)) ==
                 x / pow2 (Z.max (e - 52) (-1074))) by now rewrite E.
    apply (nearest_even_comp _ _ _ Ed) in Hm'.
    rewrite (nearest_even_unique _ _ _ Hm Hm') in Hy. now rewrite Hy, Hy'.
Qed.

(** Rounding keeps a number below an integer bound that is itself a
    float. *)
Lemma nearest_binary64_bounds (x y : Q) (B : Z) :
  nearest_binary64 x y -> (0 < B <= 2 ^ 52)%Z ->
  0 <= x -> x <= inject_Z B -> 0 <= y /\ y <= inject_Z B.
Proof.
  intros [[Hx Hy]|[Hx [e [m [H1 [H2 [Hm Hy]]]]]]] HB H0 HxB.
  - rewrite Hy. split; [apply Qle_refl|]. rewrite <- (Zle_Qle 0). lia.
  - set (q := Z.max (e - 52) (-1074)) in *.
    assert (He : (e <= 52)%Z).
    { apply pow2_le_inv. apply Qle_trans with x; [exact H1|].
      apply Qle_trans with (inject_Z B); [exact HxB|].
      rewrite pow2_Z by lia. rewrite <- Zle_Qle. lia. }
    assert (Hq : (q <= 0)%Z) by (unfold q; lia).
    pose proof (pow2_pos q) as Pq. pose proof (pow2_pos (- q)) as Pnq.
    pose proof (pow2_inv q) as Pinv.
    apply (nearest_even_comp _ _ _ (div_pow2 x q)) in Hm.
    assert (Y0 : 0 <= x * pow2 (- q)).
    { apply Qmult_le_0_compat; [exact H0|apply Qlt_le_weak; exact Pnq]. }
    assert (Y1 : x * pow2 (- q) <= inject_Z (B * 2 ^ (- q))).
    { rewrite inject_Z_mult, <- pow2_Z by lia.
      apply Qmult_le_compat_r; [exact HxB|apply Qlt_le_weak; exact Pnq]. }
    destruct (nearest_even_bounds _ _ _ Hm Y0 Y1) as [K0 K1].
    rewrite Zle_Qle in K0, K1. rewrite inject_Z_mult, <- pow2_Z in K1 by lia.
    rewrite Hy. split.
    + apply Qmult_le_0_compat; [exact K0|apply Qlt_le_weak; exact Pq].
    + apply Qle_trans with (inject_Z B * pow2 (- q) * pow2 q).
      * apply Qmult_le_compat_r; [exact K1|apply Qlt_le_weak; exact Pq].
      * rewrite <- Qmult_assoc, (Qmult_comm (pow2 (- q))), Pinv, Qmult_1_r.
        apply Qle_refl.
Qed.

(** A number with a 53-bit significand is its own rounding. *)
Lemma binary64_exact (x : Q) (m q : Z) :
  (2 ^ 52 <= m < 2 ^ 53)%Z -> (-1074 <= q)%Z ->
  x == inject_Z m * pow2 q -> binary64 x == x.
Proof.
  intros Hm Hq E.
  pose proof (pow2_pos q) as Pq.
  assert (M0 : 0 < inject_Z m) by (rewrite <- (Zlt_Qlt 0); lia).
  assert (Hx : 0 < x).
  { rewrite E. apply Qmult_lt_0_compat; assumption. }
  assert (L : pow2 (q + 52) <= x).
  { rewrite E, pow2_add, (Qmult_comm (inject_Z m)).
    apply Qmult_le_l; [exact Pq|].
    rewrite pow2_Z by lia. rewrite <- Zle_Qle. lia. }
  assert (U : x < pow2 (q + 52 + 1)).
  { rewrite E. replace (q + 52 + 1)%Z with (53 + q)%Z by lia.
    rewrite pow2_add. apply Qmult_lt_r; [exact Pq|].
    rewrite pow2_Z by lia. rewrite <- Zlt_Qlt. lia. }
  destruct (ilog2_spec x Hx) as [H1 H2].
  assert (Ee : ilog2 x = (q + 52)%Z) by (eapply binade_unique; eassumption).
  unfold binary64.
  assert (C : Qcompare x 0 = Gt) by (apply Qgt_alt; exact Hx).
  rewrite C. unfold round_pos. rewrite Qred_correct, Ee.
  replace (Z.max (q + 52 - 52) (-1074)) with q by lia.
  rewrite (round_half_even_Z _ m); [symmetry; exact E|].
  rewrite E. field. intros Z. rewrite Z in Pq. discriminate.
Qed.

Lemma exact_div_bounds (sc tot : nat) :
  (sc <= tot)%nat -> (1 <= tot)%nat ->
  0 <= exact_div sc tot /\ exact_div sc tot <= 1.
Proof.
  intros Hs Ht. unfold exact_div.
  assert (E : Z.pos (Pos.of_nat tot) = Z.of_nat tot).
  { rewrite <- positive_nat_Z, Nat2Pos.id by lia. reflexivity. }
  split; unfold Qle; cbn [Qnum Qden]; rewrite ?E; lia.
Qed.

(** The percentage of [sc] correct answers out of [tot], as line 251
    computes it: the quotient and the product are each rounded to the
    nearest float, the result to the nearest decimal with one digit;
    it stays a percentage. *)
Lemma percentage_spec (sc tot : nat) :
  (sc <= tot)%nat -> (1 <= tot)%nat ->
  exists (r p : Q) (k : Z),
    nearest_binary64 (exact_div sc tot) r /\
    nearest_binary64 (r * 100) p /\
    nearest_even (p * 10) k /\
    py_round1 (float_mul (float_div sc tot) 100) = k # 10 /\
    0 <= r /\ r <= 1 /\ 0 <= p /\ p <= 100 /\ (0 <= k <= 1000)%Z.
Proof.
  intros Hs Ht.
  set (r := float_div sc tot). set (p := float_mul r 100).
  destruct (exact_div_bounds sc tot Hs Ht) as [D0 D1].
  assert (Nr : nearest_binary64 (exact_div sc tot) r)
    by (apply binary64_nearest; exact D0).
  destruct (nearest_binary64_bounds _ _ 1 Nr) as [R0 R1];
    [lia|exact D0|exact D1|].
  change (inject_Z 1) with 1 in R1.
  assert (X0 : 0 <= r * 100) by lra.
  assert (X1 : r * 100 <= inject_Z 100)
    by (change (inject_Z 100) with 100; lra).
  assert (Np : nearest_binary64 (r * 100) p)
    by (apply binary64_nearest; exact X0).
  destruct (nearest_binary64_bounds _ _ 100 Np) as [P0 P1];
    [lia|exact X0|exact X1|].
  change (inject_Z 100) with 100 in P1.
  pose proof (round_half_even_nearest (p * 10)) as Hk.
  exists r, p, (round_half_even (p * 10)).
  split; [exact Nr|]. split; [exact Np|]. split; [exact Hk|].
  split; [reflexivity|].
  split; [exact R0|]. split; [exact R1|]. split; [exact P0|]. split; [exact P1|].
  apply (nearest_even_bounds (p * 10)); [exact Hk|lra|].
  change (inject_Z 1000) with 1000. lra.
Qed.

(** What the three roundings leave no choice about. *)
Lemma percentage_determined (x : Q) (r r' p p' : Q) (k k' : Z) :
  nearest_binary64 x r -> nearest_binary64 (r * 100) p ->
  nearest_even (p * 10) k ->
  nearest_binary64 x r' -> nearest_binary64 (r' * 100) p' ->
  nearest_even (p' * 10) k' ->
  k = k'.
Proof.
  intros Hr Hp Hk Hr' Hp' Hk'.
  assert (Er : r == r')
    by (apply (nearest_binary64_unique x x); [reflexivity|assumption..]).
  assert (Ep : p == p').
  { apply (nearest_binary64_unique (r * 100) (r' * 100));
      [now rewrite Er|assumption..]. }
  apply (nearest_even_unique (p * 10)); [exact Hk|].
  apply (nearest_even_comp (p' * 10)); [now rewrite Ep|exact Hk'].
Qed.

(** A decimal with one digit between 0 and 100 is a percentage. *)
Lemma decimal_percentage (k : Z) :
  (0 <= k <= 1000)%Z -> 0 <= k # 10 /\ k # 10 <= 100.
Proof. intros H. unfold Qle. simpl. lia. Qed.

(** Full marks are 100 per cent, exactly. *)
Lemma full_marks_percentage (n : nat) :
  (1 <= n)%nat -> py_round1 (float_mul (float_div n n) 100) == 100.
Proof.
  intros H.
  assert (E1 : exact_div n n == 1).
  { assert (E : Z.pos (Pos.of_nat n) = Z.of_nat n).
    { rewrite <- positive_nat_Z, Nat2Pos.id by lia. reflexivity. }
    unfold exact_div, Qeq. cbn [Qnum Qden]. rewrite E. lia. }
  assert (R : float_div n n == 1).
  { unfold float_div.
    rewrite (binary64_exact _ (2 ^ 52) (-52)); [exact E1|lia|lia|].
    rewrite E1. reflexivity. }
  assert (P : float_mul (float_div n n) 100 == 100).
  { unfold float_mul.
    rewrite (binary64_exact _ (100 * 2 ^ 46) (-46));
      [rewrite R; reflexivity|lia|lia|].
    rewrite R. reflexivity. }
  unfold py_round1. rewrite (round_half_even_Z _ 1000); [reflexivity|].
  rewrite P. reflexivity.
Qed.

End RoundFacts.

(** The two roundings to floats show: 23 correct answers out of 80 are
    28.7 per cent, where the quotient rounded once, as a rational, would
    be 28.8 (the exact value 28.75 is a tie). *)
Example percentage_23_of_80 :
  py_round1 (float_mul (float_div 23 80) 100) = 287 # 10 /\
  py_round1 (exact_div 23 80 * 100) = 288 # 10.
Proof. split; vm_compute; reflexivity. Qed.

Example percentage_1_of_3 :
  py_round1 (float_mul (float_div 1 3) 100) = 333 # 10.
Proof. vm_compute. reflexivity. Qed.

(** *** The grading loop *)

Section ScorerFacts.
Import StrFacts RoundFacts.

Variable list_of_set : list string -> list string.
Hypothesis list_of_set_NoDup : forall l, NoDup (list_of_set l).
Hypothesis list_of_set_In : forall l x, In x (list_of_set l) <-> In x l.

Local Abbreviation feedback' := (feedback list_of_set).

(** What one run of the grading loop adds to its three accumulators. *)
Lemma grade_loop_spec (quiz : list QuizItem) (answers : list JValue) :
  forall (i sc : nat) (pq : list nat) (weak : list string)
         (sc' : nat) (pq' : list nat) (weak' : list string),
    grade_loop quiz i answers (sc, pq, weak) = Some (sc', pq', weak') ->
    exists bits missed,
      pq' = (pq ++ bits)%list /\ weak' = (weak ++ missed)%list /\
      sc' = sc + list_sum bits /\
      List.length bits = Nat.min (List.length quiz - i) (List.length answers) /\
      list_sum bits <= List.length bits /\
      (forall k, In k missed ->
         exists j q a,
           nth_error quiz (i + j) = Some q /\ nth_error answers j = Some a /\
           grade_item q a = Some false /\
           k = match answer q with Some key => key | None => "concept" end).
Proof.
  induction answers as [|a rest IH]; intros i sc pq weak sc' pq' weak' H; simpl in H.
  - injection H as <- <- <-. exists [], []. rewrite !app_nil_r.
    repeat split; simpl; try lia; try (intros k []).
  - destruct (nth_error quiz i) as [q|] eqn:Eq.
    + destruct (grade_item q a) as [ok|] eqn:Eg; [|discriminate].
      apply IH in H. destruct H as [bits [missed [-> [-> [-> [Hl [Hs Hm]]]]]]].
      assert (Hi : i < List.length quiz)
        by (apply nth_error_Some; congruence).
      exists ((if ok then 1 else 0) :: bits),
             ((if ok then [] else [match answer q with
                                   | Some key => key
                                   | None => "concept"
                                   end]) ++ missed)%list.
      split; [now rewrite <- app_assoc|].
      split; [destruct ok; [reflexivity|now rewrite <- app_assoc]|].
      split; [destruct ok; simpl; lia|].
      split; [simpl; rewrite Hl; lia|].
      split; [destruct ok; simpl; lia|].
      intros k Hk. apply in_app_or in Hk. destruct Hk as [Hk|Hk].
      * destruct ok; [contradiction|]. destruct Hk as [<-|[]].
        exists 0, q, a. rewrite Nat.add_0_r. repeat split; assumption.
      * destruct (Hm k Hk) as [j [q' [a' [H1 [H2 [H3 H4]]]]]].
        exists (S j), q', a'. rewrite Nat.add_succ_r. repeat split; assumption.
    + injection H as <- <- <-. exists [], []. rewrite !app_nil_r.
      apply nth_error_None in Eq.
      repeat split; simpl; try lia; try (intros k []).
Qed.

(** The loop returns whenever every aligned pair can be graded. *)
Lemma grade_loop_returns (quiz : list QuizItem) (answers : list JValue) :
  forall (i : nat) (st : nat * list nat * list string),
    (forall j q a, nth_error quiz (i + j) = Some q -> nth_error answers j = Some a ->
                   grade_item q a <> None) ->
    exists st', grade_loop quiz i answers st = Some st'.
Proof.
  induction answers as [|a rest IH]; intros i st Hok; simpl.
  - eauto.
  - destruct (nth_error quiz i) as [q|] eqn:Eq; [|eauto].
    destruct (grade_item q a) as [ok|] eqn:Eg.
    + destruct st as [[sc pq] weak]. apply IH.
      intros j q' a' H1 H2. apply (Hok (S j) q' a'); [|assumption].
      now rewrite Nat.add_succ_r.
    + exfalso. apply (Hok 0 q a); [now rewrite Nat.add_0_r|reflexivity|assumption].
Qed.

(** Answers past the end of the quiz are never looked at. *)
Lemma grade_loop_extra_answers (quiz : list QuizItem) (answers extra : list JValue) :
  forall (i : nat) (st : nat * list nat * list string),
    List.length quiz <= i + List.length answers ->
    grade_loop quiz i (answers ++ extra) st = grade_loop quiz i answers st.
Proof.
  induction answers as [|a rest IH]; intros i st Hlen; simpl in *.
  - destruct extra as [|e extra]; [reflexivity|]. simpl.
    assert (E : nth_error quiz i = None) by (apply nth_error_None; lia).
    now rewrite E.
  - destruct (nth_error quiz i) as [q|]; [|reflexivity].
    destruct (grade_item q a) as [ok|]; [|reflexivity].
    destruct st as [[sc pq] weak]. apply IH. lia.
Qed.

(** Quiz items past the end of the answers are never looked at. *)
Lemma grade_loop_extra_items (quiz more : list QuizItem) (answers : list JValue) :
  forall (i : nat) (st : nat * list nat * list string),
    i + List.length answers <= List.length quiz ->
    grade_loop (quiz ++ more) i answers st = grade_loop quiz i answers st.
Proof.
  induction answers as [|a rest IH]; intros i st Hlen; simpl in *.
  - reflexivity.
  - rewrite nth_error_app1 by lia.
    destruct (nth_error quiz i) as [q|]; [|reflexivity].
    destruct (grade_item q a) as [ok|]; [|reflexivity].
    destruct st as [[sc pq] weak]. apply IH. lia.
Qed.

(** [strip] is missing exactly on the values that are true in a
    condition and are not strings. *)
Lemma user_text_of_raises (a : JValue) :
  user_text_of a = None <-> true_non_string a.
Proof.
  destruct a as [|b|z|[x|n|]|s|l|m]; cbn.
  - split; [discriminate|intros []].
  - destruct b; split; congruence.
  - destruct (Z.eqb_spec z 0); cbn; split; congruence.
  - destruct (Qeq_bool x 0) eqn:E; cbn.
    + apply Qeq_bool_iff in E. split; [discriminate|]. intros H. now destruct H.
    + split; [|reflexivity]. intros _ H. apply Qeq_bool_iff in H. congruence.
  - split; [intros _; exact I|reflexivity].
  - split; [intros _; exact I|reflexivity].
  - split; [discriminate|intros []].
  - destruct l; split; congruence.
  - destruct m; split; congruence.
Qed.

Lemma skipn_nth {A} (l : list A) (i : nat) (x : A) :
  nth_error l i = Some x -> skipn i l = x :: skipn (S i) l.
Proof.
  revert i. induction l as [|y l IH]; intros i H.
  - destruct i; discriminate.
  - destruct i as [|i]; simpl in *.
    + now injection H as ->.
    + now apply IH.
Qed.

Lemma nth_error_combine {A B} (l : list A) (l' : list B) (i : nat) (x : A) (y : B) :
  nth_error l i = Some x -> nth_error l' i = Some y ->
  nth_error (combine l l') i = Some (x, y).
Proof.
  revert l' i. induction l as [|a l IH]; intros l' i H H'.
  - destruct i; discriminate.
  - destruct l' as [|b l']; [destruct i; discriminate|].
    destruct i as [|i]; simpl in *.
    + now injection H as ->; injection H' as ->.
    + now apply IH.
Qed.

(** The grading loop is a walk over the aligned pairs. *)
Lemma grade_loop_zip (quiz : list QuizItem) (answers : list JValue) :
  forall (i sc : nat) (pq : list nat) (weak : list string)
         (sc' : nat) (pq' : list nat) (weak' : list string),
    grade_loop quiz i answers (sc, pq, weak) = Some (sc', pq', weak') ->
    pq' = (pq ++ map grade_bit (combine (skipn i quiz) answers))%list /\
    sc' = sc + list_sum (map grade_bit (combine (skipn i quiz) answers)) /\
    weak' = (weak ++ map (fun qa => key_of (fst qa))
                         (filter missed (combine (skipn i quiz) answers)))%list /\
    Forall (fun qa => grade_item (fst qa) (snd qa) <> None)
           (combine (skipn i quiz) answers).
Proof.
  induction answers as [|a rest IH]; intros i sc pq weak sc' pq' weak' H;
    simpl in H.
  - injection H as <- <- <-. rewrite combine_nil. simpl.
    rewrite !app_nil_r, Nat.add_0_r.
    split; [reflexivity|]. split; [reflexivity|]. split; [reflexivity|].
    constructor.
  - destruct (nth_error quiz i) as [q|] eqn:Eq.
    + destruct (grade_item q a) as [ok|] eqn:Eg; [|discriminate].
      apply IH in H. destruct H as [-> [-> [-> Hf]]].
      rewrite (skipn_nth _ _ _ Eq).
      cbn [combine map filter list_sum].
      assert (Eb : grade_bit (q, a) = if ok then 1 else 0)
        by (unfold grade_bit; simpl; rewrite Eg; now destruct ok).
      assert (Em : missed (q, a) = negb ok)
        by (unfold missed; simpl; rewrite Eg; now destruct ok).
      rewrite Eb, Em.
      split; [now rewrite <- app_assoc|].
      split; [destruct ok; simpl; lia|].
      split; [destruct ok; simpl; rewrite <- ?app_assoc; reflexivity|].
      constructor; [simpl; congruence|assumption].
    + injection H as <- <- <-. apply nth_error_None in Eq.
      rewrite skipn_all2 by assumption. simpl.
      rewrite !app_nil_r, Nat.add_0_r.
      split; [reflexivity|]. split; [reflexivity|]. split; [reflexivity|].
      constructor.
Qed.

Lemma feedback_zip (quiz : list QuizItem) (answers : list JValue) (st : Stats) :
  feedback' quiz answers = Some st ->
  per_question st = map grade_bit (combine quiz answers) /\
  score st = list_sum (map grade_bit (combine quiz answers)) /\
  weak_areas st =
    firstn 5 (list_of_set (map (fun qa => key_of (fst qa))
                               (filter missed (combine quiz answers)))) /\
  Forall (fun qa => grade_item (fst qa) (snd qa) <> None) (combine quiz answers).
Proof.
  unfold feedback. intros H.
  destruct (grade_loop quiz 0 answers (0, [], [])) as [[[sc pq] weak]|] eqn:E;
    [|discriminate].
  injection H as <-. apply grade_loop_zip in E. simpl skipn in E.
  destruct E as [-> [-> [-> Hf]]].
  cbn [per_question score weak_areas app Nat.add]. repeat split. exact Hf.
Qed.

(** What is recorded at a position is the grade of the pair there. *)
Lemma feedback_records (quiz : list QuizItem) (answers : list JValue) (st : Stats)
      (i : nat) (q : QuizItem) (a : JValue) :
  feedback' quiz answers = Some st ->
  nth_error quiz i = Some q -> nth_error answers i = Some a ->
  exists ok, grade_item q a = Some ok /\
             nth_error (per_question st) i = Some (if ok then 1 else 0).
Proof.
  intros H Hq Ha. apply feedback_zip in H. destruct H as [Hpq [_ [_ Hf]]].
  pose proof (nth_error_combine _ _ _ _ _ Hq Ha) as Hc.
  rewrite Forall_forall in Hf.
  specialize (Hf (q, a) (nth_error_In _ _ Hc)). cbn [fst snd] in Hf.
  destruct (grade_item q a) as [ok|] eqn:Eg; [|congruence].
  exists ok. split; [reflexivity|].
  rewrite Hpq, nth_error_map, Hc. cbn [option_map].
  unfold grade_bit. cbn [fst snd]. rewrite Eg. now destruct ok.
Qed.


Local Opaque firstn.

(** C7: in every grading result, [total] is the number of graded items
    (the shorter of quiz and answers) floored at 1, [score] is the number
    of correct items, [percentage] is [round(score / total * 100, 1)] as
    Python computes it (the quotient rounded to the nearest float, its
    product by 100 rounded to the nearest float, and that float rounded
    to the nearest decimal with one digit, each time with ties to even)
    and lies between 0 and 100, and [weak_areas] holds at most five
    pairwise distinct answer keys, each of a missed item; an empty answer
    set yields total 1, score 0, percentage 0.0 and no per-question
    grade. *)
Theorem grading_result_bounds :
  (forall quiz answers st,
     feedback' quiz answers = Some st ->
     List.length (per_question st) =
       Nat.min (List.length quiz) (List.length answers) /\
     total st = Nat.max 1 (List.length (per_question st)) /\
     score st = list_sum (per_question st) /\
     score st <= total st /\
     (exists (r p : Q) (k : Z),
        nearest_binary64 (exact_div (score st) (total st)) r /\
        nearest_binary64 (r * 100) p /\
        nearest_even (p * 10) k /\
        percentage st = k # 10) /\
     (0 <= percentage st)%Q /\ (percentage st <= 100)%Q /\
     NoDup (weak_areas st) /\
     List.length (weak_areas st) <= 5 /\
     (forall k, In k (weak_areas st) ->
        exists i q a,
          nth_error quiz i = Some q /\ nth_error answers i = Some a /\
          grade_item q a = Some false /\
          k = match answer q with Some key => key | None => "concept" end)) /\
  (forall quiz,
     exists st,
       feedback' quiz [] = Some st /\
       total st = 1 /\ score st = 0 /\ (percentage st == 0)%Q /\
       per_question st = [] /\ weak_areas st = []).
Proof.
  split.
  - intros quiz answers st H. unfold feedback in H.
    destruct (grade_loop quiz 0 answers (0, [], [])) as [[[sc pq] weak]|] eqn:E;
      [|discriminate].
    injection H as <-. cbn [score total percentage per_question weak_areas].
    apply grade_loop_spec in E.
    destruct E as [bits [missed [-> [-> [-> [Hl [Hs Hm]]]]]]].
    cbn [app Nat.add]. rewrite Nat.sub_0_r in Hl.
    assert (Ht : match List.length bits with 0 => 1 | S n0 => S n0 end
                 = Nat.max 1 (List.length bits))
      by (destruct (List.length bits); lia).
    rewrite Ht.
    assert (Hle : list_sum bits <= Nat.max 1 (List.length bits)) by lia.
    destruct (percentage_spec (list_sum bits) (Nat.max 1 (List.length bits)) Hle)
      as [r [p [k [Nr [Np [Nk [Ek [_ [_ [_ [_ Hk]]]]]]]]]]]; [lia|].
    destruct (decimal_percentage k Hk) as [P0 P1].
    split; [exact Hl|]. split; [reflexivity|]. split; [reflexivity|].
    split; [exact Hle|].
    split.
    { exists r, p, k. split; [exact Nr|]. split; [exact Np|].
      split; [exact Nk|exact Ek]. }
    rewrite Ek. split; [exact P0|]. split; [exact P1|]. split; [|split].
    + pose proof (list_of_set_NoDup missed) as Hn.
      rewrite <- (firstn_skipn 5 (list_of_set missed)) in Hn.
      now apply NoDup_app_remove_r in Hn.
    + rewrite length_firstn. lia.
    + intros w Hw. apply SortFacts.In_firstn in Hw.
      apply (proj1 (list_of_set_In _ _)) in Hw.
      apply Hm in Hw. exact Hw.
  - intros quiz. unfold feedback. simpl. eexists. split; [reflexivity|].
    cbn [score total percentage per_question weak_areas].
    repeat split.
    destruct (list_of_set []) as [|x l] eqn:E; [reflexivity|].
    exfalso. apply (list_of_set_In [] x). rewrite E. now left.
Qed.

Local Transparent firstn.

End ScorerFacts.

(** ** The Scorer on a concrete quiz *)



(** C7, witness: one answer right and one wrong out of two, then no
    answer at all. *)
Lemma grading_result_bounds_witness :
  let mcq := {| item_type := Some "mcq";
                question := "____ sleep.";
                answer := Some "Cats";
                options := Some ["process"; "model"; "Cats"; "system"];
                correct_idx := Some 2%Z |} in
  let short := {| item_type := Some "short";
                  question := "____ bark.";
                  answer := Some "dogs";
                  options := None;
                  correct_idx := None |} in
  let st := {| score := 1; total := 2; percentage := 500 # 10;
               per_question := [1; 0]; weak_areas := ["dogs"] |} in
  feedback PlainText.list_of_set [mcq; short] [JInt 2; JStr "cats"] = Some st /\
  total st = Nat.max 1 (List.length (per_question st)) /\
  (exists (r p : Q) (k : Z),
     nearest_binary64 (exact_div (score st) (total st)) r /\
     nearest_binary64 (r * 100) p /\
     nearest_even (p * 10) k /\
     percentage st = k # 10) /\
  (0 <= percentage st)%Q /\ (percentage st <= 100)%Q /\
  NoDup (weak_areas st) /\
  exists st0, feedback PlainText.list_of_set [mcq; short] [] = Some st0 /\
              total st0 = 1 /\ score st0 = 0 /\ (percentage st0 == 0)%Q /\
              per_question st0 = [] /\ weak_areas st0 = [].
Proof.
  intros mcq short st.
  destruct (grading_result_bounds PlainText.list_of_set
              (fun l => NoDup_nodup string_dec l)
              (fun l x => nodup_In string_dec l x)) as [Hall Hempty].
  assert (H : feedback PlainText.list_of_set [mcq; short] [JInt 2; JStr "cats"]
              = Some st) by reflexivity.
  destruct (Hall [mcq; short] [JInt 2; JStr "cats"] st H)
    as [_ [Ht [_ [_ [Hp [P0 [P1 [Hn _]]]]]]]].
  split; [exact H|]. split; [exact Ht|]. split; [exact Hp|]. split; [exact P0|].
  split; [exact P1|]. split; [exact Hn|].
  exact (Hempty [mcq; short]).
Defined.

(** The design document's grading scenarios. *)
Example mammal_scenario :
  grade_item {| item_type := Some "short"; question := "____ have fur.";
                answer := Some "mammal"; options := None; correct_idx := None |}
             (JStr "Mammals have fur") = Some true.
Proof. reflexivity. Qed.

Example cats_scenario :
  List.length
    (summary_sentences PlainText.sent_tokenize PlainText.word_tokenize
       PlainText.stop_words exact_div Qle_bool
       "Cats are mammals. Dogs are mammals too. Birds can fly. Fish live in water. Mammals have fur."
       2) = 2.
Proof. vm_compute. reflexivity. Qed.

(** * Further properties of the pipeline *)

(** ** More on strings *)

Module StrMore.
Import StrFacts.

Lemma lstrip_by_empty (p : ascii -> bool) (s : string) :
  lstrip_by p s = "" <-> str_forall p s = true.
Proof.
  induction s as [|c r IH]; simpl.
  - tauto.
  - destruct (p c); simpl; [exact IH|]. split; discriminate.
Qed.

Lemma rstrip_by_empty (p : ascii -> bool) (s : string) :
  rstrip_by p s = "" <-> str_forall p s = true.
Proof.
  induction s as [|c r IH]; simpl.
  - tauto.
  - destruct (rstrip_by p r) as [|d r'] eqn:E.
    + destruct (p c); simpl.
      * rewrite <- IH. tauto.
      * split; discriminate.
    + split; [discriminate|].
      intros H. apply andb_true_iff in H. destruct H as [_ H].
      apply IH in H. discriminate.
Qed.

Lemma lstrip_by_forall (p : ascii -> bool) (s : string) :
  str_forall p (lstrip_by p s) = true -> str_forall p s = true.
Proof.
  induction s as [|c r IH]; simpl; [tauto|].
  destruct (p c) eqn:E; simpl; [exact IH|].
  rewrite E. simpl. discriminate.
Qed.

Lemma lstrip_by_forall_keep (p : ascii -> bool) (s : string) :
  str_forall p s = true -> str_forall p (lstrip_by p s) = true.
Proof.
  induction s as [|c r IH]; simpl; [tauto|].
  destruct (p c) eqn:E; simpl; [exact IH|discriminate].
Qed.

(** Stripping leaves nothing exactly when every character is stripped. *)
Lemma strip_by_empty (p : ascii -> bool) (s : string) :
  strip_by p s = "" <-> str_forall p s = true.
Proof.
  unfold strip_by. rewrite rstrip_by_empty. split.
  - apply lstrip_by_forall.
  - apply lstrip_by_forall_keep.
Qed.

Lemma is_empty_true (s : string) : is_empty s = true <-> s = "".
Proof. destruct s; simpl; split; congruence. Qed.

Lemma contains_nil (p : string) : p <> "" -> contains p "" = false.
Proof. destruct p; [congruence|reflexivity]. Qed.

Lemma contains_cons (p : string) (c : ascii) (r : string) :
  contains p (String c r) = String.prefix p (String c r) || contains p r.
Proof. reflexivity. Qed.

Lemma prefix_cons (a b : ascii) (p s : string) :
  String.prefix (String a p) (String b s) =
  Ascii.eqb a b && String.prefix p s.
Proof.
  simpl. destruct (ascii_dec a b) as [E|E].
  - subst. now rewrite Ascii.eqb_refl.
  - apply Ascii.eqb_neq in E. now rewrite E.
Qed.

Section Visible.
Variable sp : ascii -> bool.

Local Abbreviation visible := (unstrippable sp).

Lemma prefix_rstrip (p s : string) :
  visible p -> String.prefix p s = true ->
  String.prefix p (rstrip_by sp s) = true.
Proof.
  intros [Hne Hv]. revert s. induction p as [|a p IH]; [congruence|].
  intros s H. destruct s as [|b s]; [discriminate|].
  rewrite prefix_cons in H. apply andb_true_iff in H. destruct H as [Hab Hp].
  apply Ascii.eqb_eq in Hab. subst b.
  simpl in Hv. apply andb_true_iff in Hv. destruct Hv as [Ha Hv].
  apply negb_true_iff in Ha.
  destruct p as [|a' p'].
  - simpl. destruct (rstrip_by sp s); rewrite ?Ha; simpl;
      destruct (ascii_dec a a); congruence.
  - assert (Hr : String.prefix (String a' p') (rstrip_by sp s) = true)
      by (apply IH; [discriminate|assumption|assumption]).
    simpl rstrip_by. destruct (rstrip_by sp s) as [|d r'] eqn:E.
    + discriminate.
    + rewrite prefix_cons, Ascii.eqb_refl. exact Hr.
Qed.

Lemma contains_rstrip (p s : string) :
  visible p -> contains p s = true -> contains p (rstrip_by sp s) = true.
Proof.
  intros Hv. induction s as [|c r IH]; intros H.
  - now rewrite contains_nil in H by apply Hv.
  - rewrite contains_cons in H. apply orb_true_iff in H. destruct H as [H|H].
    + apply prefix_rstrip in H; [|assumption].
      destruct (rstrip_by sp (String c r)) as [|d r'].
      * unfold contains. now rewrite H.
      * rewrite contains_cons, H. reflexivity.
    + specialize (IH H). simpl rstrip_by.
      destruct (rstrip_by sp r) as [|d r'] eqn:E.
      * now rewrite contains_nil in IH by apply Hv.
      * rewrite contains_cons, IH. apply orb_true_r.
Qed.

Lemma contains_lstrip (p s : string) :
  visible p -> contains p s = true -> contains p (lstrip_by sp s) = true.
Proof.
  intros [Hne Hv]. induction s as [|c r IH]; intros H; [exact H|].
  simpl. destruct (sp c) eqn:E; [|exact H].
  apply IH. rewrite contains_cons in H.
  apply orb_true_iff in H. destruct H as [H|H]; [|exact H].
  destruct p as [|a p]; [congruence|].
  rewrite prefix_cons in H. apply andb_true_iff in H. destruct H as [Hab _].
  apply Ascii.eqb_eq in Hab. subst c. simpl in Hv. now rewrite E in Hv.
Qed.

(** Stripping never removes an occurrence of a visible pattern. *)
Lemma contains_strip_by (p s : string) :
  visible p -> contains p s = true -> contains p (strip_by sp s) = true.
Proof.
  intros Hv H. unfold strip_by. now apply contains_rstrip, contains_lstrip.
Qed.
End Visible.

Lemma prefix_append (p t : string) : String.prefix p (String.append p t) = true.
Proof.
  induction p as [|a u IH]; simpl.
  - destruct t; reflexivity.
  - destruct (ascii_dec a a); [exact IH|congruence].
Qed.

Lemma contains_of_prefix (p s : string) :
  String.prefix p s = true -> contains p s = true.
Proof.
  intros H. destruct s.
  - unfold contains. now rewrite H.
  - now rewrite contains_cons, H.
Qed.

Lemma re_sub_first_eq (pat repl s : string) :
  re_sub_first pat repl s =
  if ci_prefix pat s then String.append repl (drop (String.length pat) s)
  else match s with
       | EmptyString => EmptyString
       | String c r => String c (re_sub_first pat repl r)
       end.
Proof. destruct s; reflexivity. Qed.

Lemma ci_occurs_eq (pat s : string) :
  ci_occurs pat s =
  ci_prefix pat s ||
  match s with
  | EmptyString => false
  | String _ r => ci_occurs pat r
  end.
Proof. destruct s; reflexivity. Qed.

(** With a match, the replacement text is in the result. *)
Lemma re_sub_first_marks (pat repl s : string) :
  ci_occurs pat s = true -> contains repl (re_sub_first pat repl s) = true.
Proof.
  induction s as [|c r IH]; intros H;
    rewrite ci_occurs_eq in H; rewrite re_sub_first_eq.
  - rewrite orb_false_r in H. rewrite H.
    apply contains_of_prefix, prefix_append.
  - destruct (ci_prefix pat (String c r)).
    + apply contains_of_prefix, prefix_append.
    + simpl in H. rewrite contains_cons, (IH H). apply orb_true_r.
Qed.

End StrMore.

(** ** More on the Summarizer *)

Section SummarizerMore.
Import DictFacts CounterFacts StrFacts.

Variable sent_tokenize : string -> list string.
Variable word_tokenize : string -> list string.
Variable stop_words : list string.
Variable Score : Type.
Variable true_div : nat -> nat -> Score.
Variable score_leb : Score -> Score -> bool.

Local Abbreviation summary_sentences' :=
  (summary_sentences sent_tokenize word_tokenize stop_words true_div score_leb).
Local Abbreviation top_sentences' :=
  (top_sentences sent_tokenize word_tokenize stop_words true_div score_leb).
Local Abbreviation build_scores' :=
  (build_scores sent_tokenize word_tokenize stop_words true_div).

Lemma NoDup_firstn {A} (n : nat) (l : list A) : NoDup l -> NoDup (firstn n l).
Proof.
  intros H. rewrite <- (firstn_skipn n l) in H.
  now apply NoDup_app_remove_r in H.
Qed.

(** X1: the summary is extractive.  Whatever the text and the number of
    sentences asked for, every sentence of the summary is a sentence of
    the text, there are at most [num_sents] of them, and when sentences
    are selected by score none is selected twice. *)
Theorem summary_is_extractive (text : string) (num_sents : nat) :
  incl (summary_sentences' text num_sents) (sent_tokenize text) /\
  List.length (summary_sentences' text num_sents) <= num_sents /\
  (num_sents < List.length (sent_tokenize text) ->
   NoDup (summary_sentences' text num_sents)).
Proof.
  unfold summary_sentences.
  destruct (Nat.leb_spec (List.length (sent_tokenize text)) num_sents) as [H|H].
  - split; [apply incl_refl|]. split; [assumption|]. lia.
  - split; [|split].
    + intros s Hs.
      apply (top_sentences_keys sent_tokenize word_tokenize stop_words
               Score true_div score_leb) in Hs.
      apply scored_key in Hs. tauto.
    + unfold top_sentences. rewrite length_firstn. lia.
    + intros _. unfold top_sentences. apply NoDup_firstn.
      apply (Permutation_NoDup
               (Permutation_sym (SortFacts.sorted_reverse_perm _ _ _))).
      rewrite build_scores_keys. apply distinct_NoDup.
Qed.

(** X2: stop words carry no score.  The frequency mass of a sentence all
    of whose alphanumeric tokens are stop words is 0, whatever the rest
    of the document says. *)
Theorem stop_words_carry_no_score (text sent : string) :
  (forall w, In w (sent_words word_tokenize sent) -> mem w stop_words = true) ->
  score_sum (Counter (doc_words word_tokenize stop_words text))
            (sent_words word_tokenize sent) = 0.
Proof.
  intros Hstop. unfold score_sum.
  replace (filter (counter_mem (Counter (doc_words word_tokenize stop_words text)))
                  (sent_words word_tokenize sent)) with (@nil string);
    [reflexivity|].
  symmetry. induction (sent_words word_tokenize sent) as [|w ws IH];
    [reflexivity|].
  simpl.
  destruct (counter_mem (Counter (doc_words word_tokenize stop_words text)) w)
    eqn:E.
  - exfalso. apply Counter_mem in E. unfold doc_words in E.
    apply in_map_iff in E. destruct E as [w0 [<- Hw0]].
    apply filter_In in Hw0. destruct Hw0 as [_ Hw0].
    apply andb_true_iff in Hw0. destruct Hw0 as [_ Hw0].
    rewrite (Hstop (lower w0)) in Hw0 by now left. discriminate.
  - apply IH. intros v Hv. apply Hstop. now right.
Qed.

End SummarizerMore.

(** X1, witness. *)
Lemma summary_is_extractive_witness :
  let text := "Cats sleep. Dogs bark. Dogs dogs run." in
  2 < List.length (PlainText.sent_tokenize text) /\
  NoDup (plain_sentences text 2).
Proof.
  intros text.
  assert (H : 2 < List.length (PlainText.sent_tokenize text)) by (vm_compute; lia).
  split; [exact H|].
  apply (summary_is_extractive PlainText.sent_tokenize PlainText.word_tokenize
           PlainText.stop_words Q exact_div Qle_bool text 2). exact H.
Defined.

(** X2, witness: "The a is." has three tokens, all of them stop words. *)
Lemma stop_words_carry_no_score_witness :
  let text := "The cat is here. The a is." in
  (forall w, In w (sent_words PlainText.word_tokenize "The a is.") ->
             mem w PlainText.stop_words = true) /\
  score_sum (Counter (doc_words PlainText.word_tokenize PlainText.stop_words text))
            (sent_words PlainText.word_tokenize "The a is.") = 0.
Proof.
  intros text.
  assert (H : forall w, In w (sent_words PlainText.word_tokenize "The a is.") ->
                        mem w PlainText.stop_words = true).
  { intros w Hw. vm_compute in Hw.
    repeat (destruct Hw as [<-|Hw]; [reflexivity|]). contradiction. }
  split; [exact H|].
  apply (stop_words_carry_no_score PlainText.word_tokenize PlainText.stop_words
           text "The a is." H).
Defined.

(** ** More on the Concept Extractor *)

Section ConceptMore.
Import DictFacts CounterFacts StrFacts StrMore.

Variable word_tokenize : string -> list string.
Variable stop_words : list string.

Local Abbreviation concept_words' := (concept_words word_tokenize stop_words).
Local Abbreviation extract_concepts' := (extract_concepts word_tokenize stop_words).

Lemma Counter_total (ws : list string) :
  list_sum (map snd (Counter ws)) = List.length ws.
Proof.
  unfold Counter.
  assert (H : forall acc,
             list_sum (map snd (fold_left (fun c w => counter_incr w c) ws acc)) =
             list_sum (map snd acc) + List.length ws).
  { induction ws as [|w r IH]; intros acc; simpl; [lia|].
    rewrite IH. 
    assert (E : list_sum (map snd (counter_incr w acc)) = S (list_sum (map snd acc))).
    { clear. induction acc as [|[k n] t IHt]; simpl; [reflexivity|].
      destruct (String.eqb k w); simpl; [lia|]. rewrite IHt. lia. }
    rewrite E. lia. }
  rewrite H. reflexivity.
Qed.

Lemma list_sum_perm (l l' : list nat) :
  Permutation l l' -> list_sum l = list_sum l'.
Proof. induction 1; simpl; lia. Qed.

Lemma list_sum_firstn (n : nat) (l : list nat) : list_sum (firstn n l) <= list_sum l.
Proof.
  rewrite <- (firstn_skipn n l) at 2. rewrite list_sum_app. lia.
Qed.

(** X3: what a concept entry is.  Every term returned is the lower-case
    form of an alphabetic token of the summary, is unchanged by
    lower-casing and is not a stop word, and has a count of at least 1;
    there are at most [top_n] entries, and their counts add up to no
    more than the number of tokens of the summary. *)
Theorem concept_entries_well_formed (summary : string) (top_n : nat) :
  let result := extract_concepts' summary top_n in
  (forall w c, In (w, c) result ->
     (exists w0, In w0 (word_tokenize summary) /\ isalpha w0 = true /\
                 w = lower w0) /\
     lower w = w /\ mem w stop_words = false /\ 1 <= c) /\
  List.length result <= top_n /\
  list_sum (map snd result) <= List.length (word_tokenize summary).
Proof.
  intros result. subst result. unfold extract_concepts, most_common.
  set (ws := concept_words' summary).
  set (sorted := sorted_reverse snd Nat.leb (Counter ws)).
  assert (Hperm : Permutation sorted (Counter ws))
    by apply SortFacts.sorted_reverse_perm.
  split; [|split].
  - intros w c H. apply SortFacts.In_firstn in H.
    apply (Permutation_in _ Hperm) in H.
    destruct (Counter_entry _ _ _ H) as [Hc Hw].
    assert (Hpos : 1 <= c).
    { subst c. unfold occurrences. now apply count_occ_In. }
    unfold ws, concept_words in Hw. apply in_map_iff in Hw.
    destruct Hw as [w0 [<- Hw0]]. apply filter_In in Hw0.
    destruct Hw0 as [Hin Hw0]. apply andb_true_iff in Hw0.
    destruct Hw0 as [Ha Hs]. apply negb_true_iff in Hs.
    split; [exists w0; now repeat split|].
    rewrite lower_idem. repeat split; assumption.
  - rewrite length_firstn. lia.
  - rewrite <- firstn_map. etransitivity; [apply list_sum_firstn|].
    rewrite (list_sum_perm _ _ (Permutation_map snd Hperm)), Counter_total.
    unfold ws, concept_words. rewrite length_map. apply filter_length_le.
Qed.

(** X4: the concepts page.  It lists at most 15 concepts of the summary
    in the session and shows that summary; without a summary, or with an
    empty one, the list is empty and the tokenizer is not consulted. *)
Theorem concepts_page_lists_at_most_15 (s : Session) :
  exists concepts,
    concepts_page word_tokenize stop_words s =
      RenderConcepts concepts (summary_of s) /\
    List.length concepts <= 15 /\
    (summary_of s <> "" -> concepts = extract_concepts' (summary_of s) 15) /\
    (summary_of s = "" -> concepts = []).
Proof.
  unfold concepts_page. eexists. split; [reflexivity|].
  destruct (summary_of s) as [|c r] eqn:E; simpl.
  - split; [lia|]. split; [congruence|reflexivity].
  - split.
    + unfold extract_concepts, most_common. rewrite length_firstn. lia.
    + split; [reflexivity|discriminate].
Qed.

End ConceptMore.

(** X3, witness. *)
Lemma concept_entries_well_formed_witness :
  In ("dogs", 3)
     (extract_concepts PlainText.word_tokenize PlainText.stop_words
                       "Cats sleep. Dogs bark. Dogs dogs run." 2) /\
  (exists w0, In w0 (PlainText.word_tokenize "Cats sleep. Dogs bark. Dogs dogs run.") /\
              isalpha w0 = true /\ "dogs" = lower w0) /\
  lower "dogs" = "dogs" /\
  mem "dogs" PlainText.stop_words = false /\ 1 <= 3.
Proof.
  assert (H : In ("dogs", 3)
                 (extract_concepts PlainText.word_tokenize PlainText.stop_words
                                   "Cats sleep. Dogs bark. Dogs dogs run." 2))
    by (vm_compute; left; reflexivity).
  split; [exact H|].
  apply (concept_entries_well_formed PlainText.word_tokenize PlainText.stop_words
           "Cats sleep. Dogs bark. Dogs dogs run." 2). exact H.
Defined.

(** X4, witness: a session without a summary, and one with a summary. *)
Lemma concepts_page_lists_at_most_15_witness :
  let s := {| session_summary := Some "Cats sleep. Dogs bark.";
              session_raw_text := None; session_quiz := None;
              session_stats := None |} in
  summary_of s <> "" /\
  concepts_page PlainText.word_tokenize PlainText.stop_words s =
  RenderConcepts [("cats", 1); ("sleep", 1); ("dogs", 1); ("bark", 1)]
                 "Cats sleep. Dogs bark.".
Proof.
  intros s. split; [discriminate|].
  destruct (concepts_page_lists_at_most_15 PlainText.word_tokenize
              PlainText.stop_words s) as [concepts [E [_ [H _]]]].
  rewrite E, H by discriminate. reflexivity.
Defined.

(** ** More on the Quiz Synthesizer *)

Section QuizMore.
Import DictFacts RandomFacts StrFacts StrMore.

Variable sent_tokenize : string -> list string.
Variable word_tokenize : string -> list string.
Variable pos_tag : list string -> list (string * string).
Variable list_of_set : list string -> list string.

Local Abbreviation nouns_of' := (nouns_of word_tokenize pos_tag list_of_set).
Local Abbreviation generate_quiz' :=
  (generate_quiz sent_tokenize word_tokenize pos_tag list_of_set).
Local Abbreviation generate_quiz_trace' :=
  (generate_quiz_trace sent_tokenize word_tokenize pos_tag list_of_set).

(** The record a multiple-choice item is, field by field. *)
Lemma mcq_item_shape (target sent : string) (r : Rng) :
  exists opts ds,
    fst (mcq_item target sent r) =
    {| item_type := Some "mcq";
       question := question_text target sent;
       answer := Some (capitalize (ans_clean target));
       options := Some opts;
       correct_idx :=
         Some (Z.of_nat (index_of (capitalize (ans_clean target)) opts)) |} /\
    Permutation opts (capitalize (ans_clean target) :: ds) /\
    NoDup ds /\ incl ds lexicon /\ List.length ds = 3.
Proof.
  unfold mcq_item, bind, ret.
  destruct (sample_spec 3 lexicon r) as [rest [Hp Hl]].
  destruct (sample lexicon 3 r) as [ds r1]. simpl in Hp, Hl.
  pose proof (shuffle_perm (capitalize (ans_clean target) :: ds) r1) as Hs.
  destruct (shuffle (capitalize (ans_clean target) :: ds) r1) as [opts r2].
  simpl in Hs. simpl. exists opts, ds.
  split; [reflexivity|]. split; [assumption|]. split; [|split].
  - pose proof (lexicon_NoDup) as Hlex.
    apply (Permutation_NoDup (Permutation_sym Hp)) in Hlex.
    now apply NoDup_app_remove_r in Hlex.
  - intros d Hd. apply (Permutation_in _ Hp), in_or_app. now left.
  - exact Hl.
Qed.

(** The item of slot [i] is a multiple-choice item in the first half of
    the requested slots and a short-answer item in the rest. *)
Lemma make_item_cases (nouns : list string) (n i : nat) (sent : string) (r : Rng) :
  exists target r1,
    ((i <? n / 2)%nat = true /\
     fst (make_item nouns n i sent r) = fst (mcq_item target sent r1)) \/
    ((i <? n / 2)%nat = false /\
     fst (make_item nouns n i sent r) = short_item target sent).
Proof.
  unfold make_item, bind.
  destruct (match nouns with [] => ret "concept" | _ => choice "concept" nouns end r)
    as [target r1].
  exists target, r1. destruct (i <? n / 2)%nat; [left|right]; split; reflexivity.
Qed.

(** A property every slot's item has is a property of the whole quiz. *)
Lemma quiz_loop_items (P : nat -> QuizItem -> Prop)
      (sentences nouns : list string) (n : nat) :
  (forall i sent r, P i (fst (make_item nouns n i sent r))) ->
  forall (todo i : nat) (quiz : list QuizItem) (used : list string) (r : Rng),
    i = List.length quiz ->
    (forall k q, nth_error quiz k = Some q -> P k q) ->
    forall k q,
      nth_error (fst (fst (quiz_loop sentences nouns n todo i quiz used r))) k
        = Some q ->
      P k q.
Proof.
  intros HP. induction todo as [|todo IH]; intros i quiz used r Hi Hq k q; simpl.
  - apply Hq.
  - destruct (filter (fun s => negb (mem s used)) sentences) as [|a av].
    + apply Hq.
    + unfold bind. destruct (choice "" (a :: av) r) as [sent r1].
      pose proof (HP i sent r1) as Hitem.
      destruct (make_item nouns n i sent r1) as [item r2]. simpl in Hitem.
      apply IH.
      * rewrite length_app. simpl. lia.
      * intros k' q' Hk'.
        destruct (Nat.lt_ge_cases k' (List.length quiz)) as [Hlt|Hge].
        -- rewrite nth_error_app1 in Hk' by assumption. now apply Hq.
        -- rewrite nth_error_app2 in Hk' by assumption.
           destruct (k' - List.length quiz) as [|d] eqn:E; simpl in Hk'.
           ++ injection Hk' as <-. replace k' with i by lia. exact Hitem.
           ++ destruct d; discriminate.
Qed.

Lemma generate_quiz_items (P : nat -> QuizItem -> Prop)
      (summary : string) (n : nat) (r : Rng) :
  (forall i sent r0, P i (fst (make_item (nouns_of' summary) n i sent r0))) ->
  forall k q, nth_error (generate_quiz' summary n r) k = Some q -> P k q.
Proof.
  intros HP k q. unfold generate_quiz, generate_quiz_trace.
  destruct (sent_tokenize summary) as [|s0 ss].
  - simpl. destruct k; discriminate.
  - apply (quiz_loop_items P (s0 :: ss) (nouns_of' summary) n HP n 0 [] [] r).
    + reflexivity.
    + intros k' q' H. destruct k'; discriminate.
Qed.

(** X5: the type policy.  The item at position [k] of a generated quiz
    is a multiple-choice item when [k < num_questions // 2] and a
    short-answer item otherwise. *)
Theorem quiz_type_policy (summary : string) (num_questions : nat) (r : Rng)
        (k : nat) (q : QuizItem) :
  nth_error (generate_quiz' summary num_questions r) k = Some q ->
  item_type q = Some (if (k <? num_questions / 2)%nat then "mcq" else "short").
Proof.
  apply (generate_quiz_items
           (fun k q => item_type q =
                       Some (if (k <? num_questions / 2)%nat then "mcq" else "short"))).
  intros i sent r0.
  destruct (make_item_cases (nouns_of' summary) num_questions i sent r0)
    as [target [r1 [[E ->]|[E ->]]]]; rewrite E.
  - destruct (mcq_item_shape target sent r1) as [opts [ds [-> _]]]. reflexivity.
  - reflexivity.
Qed.

(** X6: where the wrong options come from.  The options of every
    multiple-choice item of a generated quiz are a rearrangement of its
    stored answer and three different words of the fixed lexicon. *)
Theorem mcq_distractors_from_lexicon (summary : string) (num_questions : nat)
        (r : Rng) (k : nat) (q : QuizItem) :
  nth_error (generate_quiz' summary num_questions r) k = Some q ->
  item_type q = Some "mcq" ->
  exists correct opts ds,
    answer q = Some correct /\ options q = Some opts /\
    Permutation opts (correct :: ds) /\
    NoDup ds /\ incl ds lexicon /\ List.length ds = 3.
Proof.
  apply (generate_quiz_items
           (fun _ q => item_type q = Some "mcq" ->
                       exists correct opts ds,
                         answer q = Some correct /\ options q = Some opts /\
                         Permutation opts (correct :: ds) /\
                         NoDup ds /\ incl ds lexicon /\ List.length ds = 3)).
  intros i sent r0.
  destruct (make_item_cases (nouns_of' summary) num_questions i sent r0)
    as [target [r1 [[_ ->]|[_ ->]]]].
  - destruct (mcq_item_shape target sent r1) as [opts [ds [-> H]]].
    intros _. exists (capitalize (ans_clean target)), opts, ds.
    split; [reflexivity|]. split; [reflexivity|]. exact H.
  - simpl. discriminate.
Qed.

Lemma distinct_nil (l : list string) : distinct l = [] <-> l = [].
Proof. destruct l; simpl; split; congruence. Qed.

(** X7: how long the quiz is.  A generated quiz has exactly
    [min num_questions d] items for a summary of [d] distinct sentences;
    it is empty exactly when no question was asked for or the summary
    has no sentence. *)
Theorem quiz_length (summary : string) (num_questions : nat) (r : Rng) :
  List.length (generate_quiz' summary num_questions r) =
    Nat.min num_questions (List.length (distinct (sent_tokenize summary))) /\
  (generate_quiz' summary num_questions r = [] <->
   num_questions = 0 \/ sent_tokenize summary = []).
Proof.
  destruct (trace_spec sent_tokenize word_tokenize pos_tag list_of_set
              summary num_questions r) as [Hf [_ [_ Hl]]].
  apply Forall2_length in Hf. unfold generate_quiz.
  rewrite <- Hf, Hl. split; [reflexivity|].
  rewrite <- distinct_nil.
  rewrite <- length_zero_iff_nil, <- Hf, Hl.
  rewrite <- (length_zero_iff_nil (distinct (sent_tokenize summary))). lia.
Qed.

Lemma blank_unstrippable : unstrippable is_space "____".
Proof. split; [discriminate|reflexivity]. Qed.

(** X8: the blank.  When the target occurs (up to case) in the sentence
    the question shows the blank marker; so the question of every item
    of a generated quiz either shows the marker or is the stripped
    sentence it was built from. *)
Theorem question_shows_blank_or_sentence :
  (forall target sent,
     ci_occurs target sent = true ->
     contains "____" (question_text target sent) = true) /\
  (forall summary num_questions r i sent q,
     nth_error (snd (fst (generate_quiz_trace' summary num_questions r))) i
       = Some sent ->
     nth_error (generate_quiz' summary num_questions r) i = Some q ->
     contains "____" (question q) = true \/ question q = strip sent).
Proof.
  assert (H : forall target sent,
             ci_occurs target sent = true ->
             contains "____" (question_text target sent) = true).
  { intros target sent Ho. unfold question_text, strip.
    apply contains_strip_by; [apply blank_unstrippable|].
    now apply re_sub_first_marks. }
  split; [exact H|].
  intros summary n r i sent q Hs Hq. unfold generate_quiz in Hq.
  destruct (trace_spec sent_tokenize word_tokenize pos_tag list_of_set
              summary n r) as [Hf _].
  destruct (Forall2_nth _ _ _ _ _ _ Hf Hs Hq) as [target [_ [Hqt _]]].
  rewrite Hqt. destruct (ci_occurs target sent) eqn:E.
  - left. now apply H.
  - right. unfold question_text. now rewrite re_sub_first_absent.
Qed.

(** X9: what a short-answer item stores.  Every short-answer item of a
    generated quiz has a key in lower case and neither options nor a
    correct index; every multiple-choice item has all three. *)
Theorem quiz_items_shape (summary : string) (num_questions : nat) (r : Rng)
        (k : nat) (q : QuizItem) :
  nth_error (generate_quiz' summary num_questions r) k = Some q ->
  (item_type q = Some "short" /\
   (exists key, answer q = Some key /\ lower key = key) /\
   options q = None /\ correct_idx q = None) \/
  (item_type q = Some "mcq" /\
   exists correct opts idx,
     answer q = Some correct /\ options q = Some opts /\
     correct_idx q = Some idx).
Proof.
  apply (generate_quiz_items
           (fun _ q =>
              (item_type q = Some "short" /\
               (exists key, answer q = Some key /\ lower key = key) /\
               options q = None /\ correct_idx q = None) \/
              (item_type q = Some "mcq" /\
               exists correct opts idx,
                 answer q = Some correct /\ options q = Some opts /\
                 correct_idx q = Some idx))).
  intros i sent r0.
  destruct (make_item_cases (nouns_of' summary) num_questions i sent r0)
    as [target [r1 [[_ ->]|[_ ->]]]].
  - destruct (mcq_item_shape target sent r1) as [opts [ds [-> _]]].
    right. split; [reflexivity|]. do 3 eexists. repeat split.
  - left. simpl. split; [reflexivity|]. split; [|split; reflexivity].
    eexists. split; [reflexivity|]. apply lower_idem.
Qed.

(** X10: what can make grading a generated item fail.  Grading an item
    of a generated quiz raises exactly when the item is a short-answer
    item and the submitted value is true in a condition without being a
    string: [true], a number other than zero (an infinity and NaN
    included), a non-empty array or a non-empty object.  A string,
    [null], [false], zero, an empty array and an empty object are always
    graded, and so is whatever is submitted to a multiple-choice item. *)
Theorem generated_item_gradable (summary : string) (num_questions : nat)
        (r : Rng) (k : nat) (q : QuizItem) :
  nth_error (generate_quiz' summary num_questions r) k = Some q ->
  forall a,
    (grade_item q a = None <->
     item_type q = Some "short" /\ true_non_string a) /\
    (forall s, grade_item q (JStr s) <> None) /\
    (truthy a = false -> grade_item q a <> None) /\
    (item_type q = Some "mcq" -> grade_item q a <> None).
Proof.
  intros Hq a. destruct (quiz_items_shape _ _ _ _ _ Hq)
    as [[Hty [[key [Hk _]] _]]|[Hty [correct [opts [idx [_ [_ Hidx]]]]]]].
  - assert (E : forall v, grade_item q v = None <-> true_non_string v).
    { intros v. rewrite <- user_text_of_raises.
      unfold grade_item. rewrite Hty, Hk. cbn.
      destruct (user_text_of v); split; congruence. }
    split; [|split; [|split]].
    + rewrite E. tauto.
    + intros s H. now apply E in H.
    + intros Hf H. apply E in H.
      destruct a as [|b|z|[x|n|]|s|l|m]; cbn in Hf, H;
        try congruence; try discriminate.
      * apply negb_false_iff, Z.eqb_eq in Hf. congruence.
      * apply negb_false_iff, Qeq_bool_iff in Hf. congruence.
      * destruct l; congruence.
      * destruct m; congruence.
    + rewrite Hty. discriminate.
  - assert (E : forall v, grade_item q v <> None).
    { intros v. unfold grade_item. rewrite Hty, Hidx. discriminate. }
    split; [|split; [|split]].
    + split; [intros H; now apply E in H|]. rewrite Hty. intros [H _]. discriminate.
    + intros s. apply E.
    + intros _. apply E.
    + intros _. apply E.
Qed.

End QuizMore.

(** ** More on the Scorer *)

Section ScorerMore.
Import StrFacts StrMore RoundFacts.

Variable list_of_set : list string -> list string.
Hypothesis list_of_set_In : forall l x, In x (list_of_set l) <-> In x l.

Local Abbreviation feedback' := (feedback list_of_set).

(** X11: grading is a map over the aligned pairs.  When grading returns,
    [per_question] is the list of grades of the pairs (quiz item,
    answer) taken position by position, every such pair could be graded,
    [score] is the number of pairs graded correct, and [weak_areas] holds
    the first five, in hash order, of the keys of the pairs graded
    incorrect. *)
Theorem grading_is_pairwise (quiz : list QuizItem) (answers : list JValue)
        (st : Stats) :
  feedback' quiz answers = Some st ->
  per_question st = map grade_bit (combine quiz answers) /\
  score st = list_sum (map grade_bit (combine quiz answers)) /\
  weak_areas st =
    firstn 5 (list_of_set (map (fun qa => key_of (fst qa))
                               (filter missed (combine quiz answers)))) /\
  Forall (fun qa => grade_item (fst qa) (snd qa) <> None) (combine quiz answers).
Proof. apply feedback_zip. Qed.

Lemma bits_and_misses (pairs : list (QuizItem * JValue)) :
  Forall (fun qa => grade_item (fst qa) (snd qa) <> None) pairs ->
  list_sum (map grade_bit pairs) + List.length (filter missed pairs) =
  List.length pairs.
Proof.
  induction 1 as [|qa l Hqa Hf IH]; simpl; [reflexivity|].
  unfold grade_bit at 1, missed at 1.
  destruct (grade_item (fst qa) (snd qa)) as [[]|]; simpl; try lia.
  congruence.
Qed.

(** X12: every graded answer is either scored or flagged.  When grading
    returns, the score and the number of answers graded incorrect add up
    to the number of answers graded; and no weak area is reported
    exactly when every graded answer was correct. *)
Theorem score_and_misses (quiz : list QuizItem) (answers : list JValue)
        (st : Stats) :
  feedback' quiz answers = Some st ->
  score st + List.length (filter missed (combine quiz answers)) =
    List.length (per_question st) /\
  (weak_areas st = [] <-> score st = List.length (per_question st)).
Proof.
  intros H. apply feedback_zip in H.
  destruct H as [Hpq [Hsc [Hw Hf]]].
  pose proof (bits_and_misses _ Hf) as Hb.
  rewrite Hpq, Hsc, length_map. split; [exact Hb|].
  rewrite Hw. split.
  - intros Hnil.
    destruct (filter missed (combine quiz answers)) as [|qa l] eqn:E;
      [simpl in Hb; lia|].
    exfalso.
    assert (Hin : In (key_of (fst qa))
                     (list_of_set (map (fun qa => key_of (fst qa)) (qa :: l))))
      by (apply list_of_set_In; now left).
    destruct (list_of_set (map (fun qa => key_of (fst qa)) (qa :: l)));
      [contradiction|discriminate].
  - intros Hall.
    assert (E : filter missed (combine quiz answers) = []).
    { apply length_zero_iff_nil. lia. }
    rewrite E. simpl.
    destruct (list_of_set []) as [|x l] eqn:El; [reflexivity|].
    exfalso. apply (list_of_set_In [] x). rewrite El. now left.
Qed.

Lemma grade_loop_raises (quiz : list QuizItem) (answers : list JValue) :
  forall (i : nat) (st : nat * list nat * list string),
    grade_loop quiz i answers st = None <->
    exists j q a,
      nth_error quiz (i + j) = Some q /\ nth_error answers j = Some a /\
      grade_item q a = None.
Proof.
  induction answers as [|a rest IH]; intros i st; simpl.
  - split; [discriminate|]. intros [j [q [a [_ [H _]]]]]. destruct j; discriminate.
  - destruct (nth_error quiz i) as [q|] eqn:Eq.
    + destruct (grade_item q a) as [ok|] eqn:Eg.
      * destruct st as [[sc pq] weak]. rewrite IH. split.
        -- intros [j [q' [a' [H1 [H2 H3]]]]]. exists (S j), q', a'.
           rewrite Nat.add_succ_r. now repeat split.
        -- intros [j [q' [a' [H1 [H2 H3]]]]]. destruct j as [|j].
           ++ rewrite Nat.add_0_r in H1. simpl in H2. congruence.
           ++ exists j, q', a'. rewrite Nat.add_succ_r in H1. now repeat split.
      * split; [|reflexivity]. intros _. exists 0, q, a.
        rewrite Nat.add_0_r. now repeat split.
    + split; [discriminate|]. intros [j [q [a' [H1 _]]]].
      apply nth_error_None in Eq.
      assert (nth_error quiz (i + j) = None) by (apply nth_error_None; lia).
      congruence.
Qed.

(** Grading raises exactly when, at some position both the quiz and the
    answers reach, the pair (item, answer) cannot be graded. *)
Lemma feedback_raises (quiz : list QuizItem) (answers : list JValue) :
  feedback' quiz answers = None <->
  exists i q a,
    nth_error quiz i = Some q /\ nth_error answers i = Some a /\
    grade_item q a = None.
Proof.
  unfold feedback.
  destruct (grade_loop quiz 0 answers (0, [], [])) as [[[sc pq] weak]|] eqn:E.
  - split; [discriminate|]. intros H.
    assert (N : grade_loop quiz 0 answers (0, [], []) = None)
      by (apply grade_loop_raises; exact H).
    congruence.
  - split; [|reflexivity]. intros _. apply grade_loop_raises in E. exact E.
Qed.

Lemma prefix_refl (s : string) : String.prefix s s = true.
Proof.
  induction s as [|c r IH]; [reflexivity|].
  rewrite prefix_cons, Ascii.eqb_refl. exact IH.
Qed.

Lemma answer_key_correct (q : QuizItem) :
  (item_type q = Some "mcq" /\ exists idx, correct_idx q = Some idx) \/
  (item_type q = Some "short" /\ correct_idx q = None /\
   exists key, answer q = Some key /\ key <> "" /\
               lower key = key /\ strip key = key) ->
  grade_item q (answer_key q) = Some true.
Proof.
  unfold grade_item, answer_key.
  intros [[Hty [idx Hidx]]|[Hty [Hidx [key [Hk [Hne [Hlow Hstrip]]]]]]];
    rewrite Hty, Hidx; simpl.
  - now rewrite Z.eqb_refl.
  - rewrite Hk. simpl. rewrite Hstrip, Hlow.
    rewrite (contains_of_prefix _ _ (prefix_refl key)).
    destruct key; [congruence|reflexivity].
Qed.

Lemma grade_loop_answer_key (quiz l : list QuizItem) :
  forall (pre : list QuizItem) (sc : nat) (pq : list nat) (weak : list string),
    quiz = (pre ++ l)%list ->
    Forall (fun q => grade_item q (answer_key q) = Some true) l ->
    grade_loop quiz (List.length pre) (map answer_key l) (sc, pq, weak) =
    Some (sc + List.length l, (pq ++ repeat 1 (List.length l))%list, weak).
Proof.
  induction l as [|q l IH]; intros pre sc pq weak Hq Hf; simpl.
  - now rewrite Nat.add_0_r, app_nil_r.
  - assert (E : nth_error quiz (List.length pre) = Some q).
    { rewrite Hq, nth_error_app2, Nat.sub_diag by lia. reflexivity. }
    rewrite E. inversion Hf as [|? ? Hg Hf']; subst. rewrite Hg.
    specialize (IH (pre ++ [q])%list (S sc) (pq ++ [1])%list weak).
    rewrite length_app in IH. simpl in IH.
    replace (List.length pre + 1) with (S (List.length pre)) in IH by lia.
    rewrite IH; [|now rewrite <- app_assoc|assumption].
    rewrite <- app_assoc. simpl. do 3 f_equal. lia.
Qed.

(** X14: the answer sheet gets full marks.  If every item of a quiz is a
    multiple-choice item with a stored index, or a short-answer item
    whose key is non-empty, in lower case and without white space at
    either end, then submitting for each item its stored index or key is
    graded all correct: the score is the number of items, no weak area
    is reported and the percentage of a non-empty quiz is 100. *)
Theorem answer_sheet_gets_full_marks (quiz : list QuizItem) :
  (forall q, In q quiz ->
     (item_type q = Some "mcq" /\ exists idx, correct_idx q = Some idx) \/
     (item_type q = Some "short" /\ correct_idx q = None /\
      exists key, answer q = Some key /\ key <> "" /\
                  lower key = key /\ strip key = key)) ->
  exists st,
    feedback' quiz (map answer_key quiz) = Some st /\
    score st = List.length quiz /\
    per_question st = repeat 1 (List.length quiz) /\
    weak_areas st = [] /\
    (quiz <> [] -> (percentage st == 100)%Q).
Proof.
  intros Hwf.
  assert (Hf : Forall (fun q => grade_item q (answer_key q) = Some true) quiz).
  { apply Forall_forall. intros q Hq. apply answer_key_correct. now apply Hwf. }
  unfold feedback.
  pose proof (grade_loop_answer_key quiz quiz [] 0 [] [] eq_refl Hf) as E.
  cbn [List.length app Nat.add] in E. rewrite E.
  eexists. split; [reflexivity|].
  cbn [score per_question weak_areas percentage app Nat.add].
  rewrite repeat_length.
  split; [reflexivity|]. split; [reflexivity|]. split.
  - destruct (list_of_set []) as [|x l] eqn:El; [reflexivity|].
    exfalso. apply (list_of_set_In [] x). rewrite El. now left.
  - intros Hne. destruct quiz as [|q0 l]; [congruence|].
    cbn [List.length]. apply full_marks_percentage. lia.
Qed.

End ScorerMore.

(** ** The routes *)

Section RoutesMore.
Import DictFacts StrFacts StrMore.

Variable sent_tokenize : string -> list string.
Variable word_tokenize : string -> list string.
Variable pos_tag : list string -> list (string * string).
Variable stop_words : list string.
Variable list_of_set : list string -> list string.
Variable Score : Type.
Variable true_div : nat -> nat -> Score.
Variable score_leb : Score -> Score -> bool.
Hypothesis list_of_set_In : forall l x, In x (list_of_set l) <-> In x l.

Local Abbreviation summarize_api' :=
  (summarize_api sent_tokenize word_tokenize stop_words true_div score_leb).
Local Abbreviation render_summary' :=
  (render_summary sent_tokenize word_tokenize stop_words true_div score_leb).
Local Abbreviation extractive_summary' :=
  (extractive_summary sent_tokenize word_tokenize stop_words true_div score_leb).
Local Abbreviation quiz_page' :=
  (quiz_page sent_tokenize word_tokenize pos_tag list_of_set).
Local Abbreviation generate_quiz' :=
  (generate_quiz sent_tokenize word_tokenize pos_tag list_of_set).
Local Abbreviation feedback_api' := (feedback_api list_of_set).
Local Abbreviation feedback' := (feedback list_of_set).


Lemma quiz_page_cases (s : Session) (r : Rng) :
  (summary_of s = "" ->
   quiz_page' s r = (Redirect "/summarize-page", s, r)) /\
  (summary_of s <> "" ->
   exists quiz r',
     quiz_page' s r =
       (RenderQuiz quiz,
        {| session_summary := session_summary s;
           session_raw_text := session_raw_text s;
           session_quiz := Some quiz;
           session_stats := session_stats s |}, r') /\
     1 <= List.length quiz <= 6 /\
     (sent_tokenize (summary_of s) = [] -> quiz = [info_item]) /\
     (sent_tokenize (summary_of s) <> [] ->
      quiz = generate_quiz' (summary_of s) 6 r)).
Proof.
  unfold quiz_page. split.
  - intros E. rewrite E. reflexivity.
  - intros Hne. destruct (summary_of s) as [|c t] eqn:E; [congruence|].
    cbn [is_empty]. unfold bind, ret.
    pose proof (trace_spec sent_tokenize word_tokenize pos_tag list_of_set
                  (String c t) 6 r) as [Hf [_ [_ Hl]]].
    apply Forall2_length in Hf.
    assert (Hq : generate_quiz' (String c t) 6 r =
                 fst (fst (generate_quiz_trace sent_tokenize word_tokenize
                             pos_tag list_of_set (String c t) 6 r)))
      by reflexivity.
    destruct (generate_quiz_trace sent_tokenize word_tokenize pos_tag
                list_of_set (String c t) 6 r) as [[quiz used] r'].
    cbn [fst snd] in *. do 2 eexists. split; [reflexivity|].
    assert (Hlen : List.length quiz =
                   Nat.min 6 (List.length (distinct (sent_tokenize (String c t)))))
      by lia.
    destruct quiz as [|q0 qs].
    + split; [simpl; lia|]. split; [reflexivity|].
      intros Hs. exfalso. simpl in Hlen.
      destruct (sent_tokenize (String c t)); [congruence|]. simpl in Hlen. lia.
    + split; [simpl List.length in *; lia|]. split.
      * intros Hs. rewrite Hs in Hlen. simpl in Hlen. lia.
      * intros _. now rewrite Hq.
Qed.

(** X16: what the quiz page stores.  Without a summary in the session
    (or with an empty one) the page redirects to the summarize page,
    draws nothing from the random source and leaves the session as it
    was.  Otherwise it renders and stores the same quiz, of one to six
    items: the placeholder item alone when the summary has no sentence,
    the generated six-question quiz when it has. *)
Theorem quiz_page_spec (s : Session) (r : Rng) :
  (summary_of s = "" ->
   quiz_page' s r = (Redirect "/summarize-page", s, r)) /\
  (summary_of s <> "" ->
   exists quiz r',
     quiz_page' s r =
       (RenderQuiz quiz,
        {| session_summary := session_summary s;
           session_raw_text := session_raw_text s;
           session_quiz := Some quiz;
           session_stats := session_stats s |}, r') /\
     1 <= List.length quiz <= 6 /\
     (sent_tokenize (summary_of s) = [] -> quiz = [info_item]) /\
     (sent_tokenize (summary_of s) <> [] ->
      quiz = generate_quiz' (summary_of s) 6 r)).
Proof. apply quiz_page_cases. Qed.

Lemma list_of_set_nil : list_of_set [] = [].
Proof.
  destruct (list_of_set []) as [|x l] eqn:El; [reflexivity|].
  exfalso. apply (list_of_set_In [] x). rewrite El. now left.
Qed.

(** A body has answers to grade unless it is unreadable. *)
Lemma submitted_none (body : JValue) :
  submitted body = None <-> unreadable body.
Proof.
  assert (Hit : forall v, py_iter v = None <-> scalar v).
  { intros v. destruct v as [|b|z|f|t|l|m]; cbn;
      split; try discriminate; try reflexivity; try (intros []);
      intros _; exact I. }
  unfold submitted, answers_of.
  destruct body as [|b|z|[x|n|]|t|l|m]; cbn.
  - split; [discriminate|]. intros [[]|[t [E _]]]. discriminate.
  - destruct b; cbn.
    + split; [now left|reflexivity].
    + split; [discriminate|]. intros [H|[t [E _]]]; discriminate.
  - destruct (Z.eqb_spec z 0) as [->|Hz]; cbn.
    + split; [discriminate|]. intros [H|[t [E _]]]; [now destruct H|discriminate].
    + split; [now left|reflexivity].
  - destruct (Qeq_bool x 0) eqn:E; cbn.
    + apply Qeq_bool_iff in E. split; [discriminate|].
      intros [H|[t [E' _]]]; [now destruct H|discriminate].
    + split; [|reflexivity]. intros _. left. intros H.
      apply Qeq_bool_iff in H. congruence.
  - split; [now left|reflexivity].
  - split; [now left|reflexivity].
  - destruct t as [|c t]; cbn.
    + split; [discriminate|]. intros [[]|[t [E H]]]. injection E as <-. congruence.
    + split; [|reflexivity]. intros _. right. eexists. split; [reflexivity|discriminate].
  - destruct l as [|v l]; cbn.
    + split; [discriminate|]. intros [H|[t [E _]]]; [now destruct H|discriminate].
    + split; [|reflexivity]. intros _. left. discriminate.
  - destruct m as [|kv m].
    + cbn. split; [discriminate|]. intros [v [E _]]. discriminate.
    + cbn [truthy].
      destruct (dict_get (kv :: m) "answers") as [v|] eqn:E.
      * rewrite Hit. split.
        -- intros H. exists v. now split.
        -- intros [v' [E' H]]. congruence.
      * cbn. split; [discriminate|]. intros [v' [E' _]]. discriminate.
Qed.

Lemma submitted_some (body : JValue) :
  ~ unreadable body -> exists answers, submitted body = Some answers.
Proof.
  intros H. destruct (submitted body) as [answers|] eqn:E; [eauto|].
  now apply submitted_none in E.
Qed.

(** The request raises when the body is unreadable or the grading loop
    raises, and only then. *)
Lemma feedback_api_raises (now : string) (body : JValue) (s : Session)
      (table : list Row) :
  feedback_api' now body s table = None <->
  unreadable body \/
  exists answers, submitted body = Some answers /\
                  feedback' (quiz_of s) answers = None.
Proof.
  rewrite <- submitted_none. unfold feedback_api.
  destruct (submitted body) as [answers|]; [|split; [now left|reflexivity]].
  destruct (feedback' (quiz_of s) answers) as [st|] eqn:E.
  - split; [discriminate|].
    intros [H|[answers' [H1 H2]]]; [discriminate|]. congruence.
  - split; [|reflexivity]. intros _. right. now exists answers.
Qed.

(** X13: when a submission fails.  The request raises exactly when its
    body has no answers to grade (the body is true in a condition and is
    not an object, or its ["answers"] member is [null], a boolean or a
    number, which the loop cannot iterate over) or when, at some
    position both the quiz and the answers reach, the pair (item,
    answer) cannot be graded; what lies beyond the shorter of the two
    is never the cause. *)
Theorem grading_raises_iff (now : string) (body : JValue) (s : Session)
        (table : list Row) :
  feedback_api' now body s table = None <->
  unreadable body \/
  exists answers i q a,
    submitted body = Some answers /\
    nth_error (quiz_of s) i = Some q /\ nth_error answers i = Some a /\
    grade_item q a = None.
Proof.
  rewrite feedback_api_raises. split.
  - intros [H|[answers [H1 H2]]]; [now left|]. right.
    apply feedback_raises in H2. destruct H2 as [i [q [a H2]]].
    now exists answers, i, q, a.
  - intros [H|[answers [i [q [a [H1 H2]]]]]]; [now left|]. right.
    exists answers. split; [exact H1|]. apply feedback_raises.
    now exists i, q, a.
Qed.

Lemma feedback_placeholder (answers : list JValue) :
  exists st,
    feedback' [info_item] answers = Some st /\
    score st = 0 /\ total st = 1 /\ (percentage st == 0)%Q /\
    (forall k, In k (weak_areas st) -> k = "").
Proof.
  unfold feedback. destruct answers as [|a rest].
  - simpl. eexists. split; [reflexivity|].
    cbn [score total percentage weak_areas]. rewrite list_of_set_nil.
    repeat split. intros k [].
  - assert (E : grade_loop [info_item] 0 (a :: rest) (0, [], []) =
                Some (0, [0], [""])).
    { simpl. destruct rest; reflexivity. }
    rewrite E. eexists. split; [reflexivity|].
    cbn [score total percentage weak_areas List.length].
    repeat split. intros k Hk. apply SortFacts.In_firstn in Hk.
    apply (proj1 (list_of_set_In _ _)) in Hk. destruct Hk as [<-|[]]. reflexivity.
Qed.

(** X17: submitting the placeholder quiz.  When the summary in the
    session has no sentence, the quiz page stores the placeholder item.
    A request then raises exactly when its body has no answers to
    grade; any other request is graded without an error, whatever it
    submits, with score 0 out of a total of 1, the only possible weak
    area being the empty key, and one row is added to the table. *)
Theorem placeholder_quiz_can_be_submitted (s : Session) (r : Rng) (now : string)
        (body : JValue) (table : list Row) :
  summary_of s <> "" -> sent_tokenize (summary_of s) = [] ->
  let s1 := snd (fst (quiz_page' s r)) in
  quiz_of s1 = [info_item] /\
  (feedback_api' now body s1 table = None <-> unreadable body) /\
  (~ unreadable body ->
   exists st s2 row,
     feedback_api' now body s1 table =
       Some (JsonRedirect "/results", s2, (table ++ [row])%list) /\
     session_stats s2 = Some st /\
     score st = 0 /\ total st = 1 /\ (percentage st == 0)%Q /\
     (forall k, In k (weak_areas st) -> k = "") /\
     row_score row = 0 /\ row_total row = 1).
Proof.
  intros Hne Hs s1. subst s1.
  destruct (quiz_page_cases s r) as [_ H].
  destruct (H Hne) as [quiz [r' [E [_ [Hinfo _]]]]].
  rewrite E, (Hinfo Hs). cbn [fst snd].
  split; [reflexivity|]. split.
  - rewrite feedback_api_raises. split; [|now left].
    intros [Hu|[answers [_ Hf]]]; [exact Hu|].
    unfold quiz_of in Hf. cbn [session_quiz] in Hf.
    destruct (feedback_placeholder answers) as [st [Ef _]]. congruence.
  - intros Hu. destruct (submitted_some body Hu) as [answers Ea].
    unfold feedback_api, quiz_of. rewrite Ea. cbn [session_quiz].
    destruct (feedback_placeholder answers) as [st [Ef [H1 [H2 [H3 H4]]]]].
    rewrite Ef. do 3 eexists. split; [reflexivity|].
    cbn [session_stats row_score row_total]. repeat split; assumption.
Qed.

(** X18: submitting without a quiz.  When the session holds no quiz, a
    request raises exactly when its body has no answers to grade; any
    other request is graded without an error, whatever it submits, as
    score 0 of total 1, percentage 0.0, with no per-question grade and
    no weak area, and that result is stored and logged like any
    other. *)
Theorem feedback_without_quiz (s : Session) (now : string)
        (body : JValue) (table : list Row) :
  session_quiz s = None ->
  (feedback_api' now body s table = None <-> unreadable body) /\
  (~ unreadable body ->
   exists st s2 row,
     feedback_api' now body s table =
       Some (JsonRedirect "/results", s2, (table ++ [row])%list) /\
     session_stats s2 = Some st /\
     score st = 0 /\ total st = 1 /\ (percentage st == 0)%Q /\
     per_question st = [] /\ weak_areas st = [] /\
     row_score row = 0 /\ row_total row = 1 /\ row_summary row = summary_of s).
Proof.
  intros Hq.
  assert (E : forall l, grade_loop [] 0 l (0, [], []) = Some (0, [], []))
    by (intros l; destruct l; reflexivity).
  split.
  - rewrite feedback_api_raises. split; [|now left].
    intros [Hu|[answers [_ Hf]]]; [exact Hu|].
    unfold quiz_of, feedback in Hf. rewrite Hq, E in Hf. discriminate.
  - intros Hu. destruct (submitted_some body Hu) as [answers Ea].
    unfold feedback_api, quiz_of. rewrite Ea, Hq.
    unfold feedback. rewrite E. do 3 eexists. split; [reflexivity|].
    cbn [session_stats score total percentage per_question weak_areas
         row_score row_total row_summary List.length].
    rewrite list_of_set_nil. repeat split.
Qed.

Lemma insert_desc_last {A} (key : A -> nat) (x : A) (l : list A) :
  (forall y, In y l -> key x < key y) ->
  insert_desc key Nat.leb x l = (l ++ [x])%list.
Proof.
  induction l as [|y l IH]; intros H; simpl; [reflexivity|].
  assert (E : Nat.leb (key y) (key x) = false).
  { apply Nat.leb_gt. apply H. now left. }
  rewrite E, IH; [reflexivity|]. intros z Hz. apply H. now right.
Qed.

(** Rows inserted with increasing ids come back in reverse order. *)
Lemma sorted_reverse_rev (table : list Row) :
  ids_ascending table -> sorted_reverse row_id Nat.leb table = rev table.
Proof.
  unfold ids_ascending, sorted_reverse.
  induction table as [|x l IH]; intros H; simpl.
  - reflexivity.
  - simpl in H. inversion H as [|? ? Hs Hf]; subst.
    rewrite (IH Hs).
    apply insert_desc_last. intros y Hy. apply in_rev in Hy.
    rewrite Forall_forall in Hf. apply Hf. now apply in_map.
Qed.

Lemma next_id_fresh (table : list Row) (r : Row) :
  In r table -> row_id r < next_id table.
Proof.
  intros H. unfold next_id.
  assert (Hle : Forall (fun k => k <= list_max (map row_id table)) (map row_id table))
    by (apply list_max_le; lia).
  rewrite Forall_forall in Hle. specialize (Hle (row_id r) (in_map row_id _ _ H)).
  lia.
Qed.

Lemma StronglySorted_snoc {A} (R : A -> A -> Prop) (l : list A) (x : A) :
  StronglySorted R l -> (forall y, In y l -> R y x) ->
  StronglySorted R (l ++ [x]).
Proof.
  induction 1 as [|y l Hs IH Hf]; intros H; simpl.
  - repeat constructor.
  - constructor.
    + apply IH. intros z Hz. apply H. now right.
    + rewrite Forall_forall in *. intros z Hz. apply in_app_or in Hz.
      destruct Hz as [Hz|[<-|[]]]; [now apply Hf|apply H; now left].
Qed.

(** X19: a graded submission is what the result and history pages show.
    When [/feedback] answers, it answers with the redirection to the
    result page; the result page then renders the statistics just
    computed for the quiz of the session, whose summary and quiz are
    unchanged; one row is appended to the table, with a fresh id, the
    session's summary and those statistics; and if the table's ids were
    ascending they still are, and the history page lists the new row
    first, followed by the 19 rows inserted last before it. *)
Theorem feedback_is_shown (now : string) (body : JValue)
        (s s' : Session) (table table' : list Row) (resp : Response) :
  feedback_api' now body s table = Some (resp, s', table') ->
  exists answers st,
    submitted body = Some answers /\
    feedback' (quiz_of s) answers = Some st /\
    resp = JsonRedirect "/results" /\
    results_page s' = RenderFeedback st /\
    summary_of s' = summary_of s /\ quiz_of s' = quiz_of s /\
    table' = (table ++ [{| row_id := next_id table;
                           row_created_at := now;
                           row_title := "Study Session";
                           row_summary := summary_of s;
                           row_score := score st;
                           row_total := total st;
                           row_percentage := percentage st |}])%list /\
    (ids_ascending table ->
     ids_ascending table' /\
     history_page table' =
       RenderHistory
         ({| entry_id := next_id table;
             entry_created_at := now;
             entry_title := "Study Session";
             entry_score := score st;
             entry_total := total st;
             entry_percentage := percentage st |}
          :: map entry_of (firstn 19 (rev table)))).
Proof.
  unfold feedback_api. intros H.
  destruct (submitted body) as [answers|] eqn:Ea; [|discriminate].
  destruct (feedback' (quiz_of s) answers) as [st|] eqn:E; [|discriminate].
  injection H as <- <- <-. exists answers, st. split; [reflexivity|].
  split; [exact E|]. split; [reflexivity|]. split; [reflexivity|].
  split; [reflexivity|]. split; [reflexivity|]. split; [reflexivity|].
  intros Hasc.
  assert (Hasc' : ids_ascending
            (table ++ [{| row_id := next_id table;
                          row_created_at := now;
                          row_title := "Study Session";
                          row_summary := summary_of s;
                          row_score := score st;
                          row_total := total st;
                          row_percentage := percentage st |}])).
  { unfold ids_ascending. rewrite map_app. simpl.
    apply StronglySorted_snoc; [exact Hasc|].
    intros y Hy. apply in_map_iff in Hy. destruct Hy as [r0 [<- Hr0]].
    now apply next_id_fresh. }
  split; [exact Hasc'|].
  unfold history_page. rewrite (sorted_reverse_rev _ Hasc'), rev_app_distr.
  reflexivity.
Qed.

(** X20: the history page.  On a table whose rows were inserted with
    ascending ids (the empty table is one, and [/feedback] keeps it so)
    the page lists the 20 rows inserted last, the latest first. *)
Theorem history_lists_latest_first (table : list Row) :
  ids_ascending table ->
  history_page table = RenderHistory (map entry_of (firstn 20 (rev table))).
Proof.
  intros H. unfold history_page. now rewrite sorted_reverse_rev.
Qed.

End RoutesMore.

(** ** The further properties on concrete runs *)

Local Abbreviation plain_mcq :=
  {| item_type := Some "mcq";
     question := "____ sleep.";
     answer := Some "Cats";
     options := Some ["process"; "model"; "Cats"; "system"];
     correct_idx := Some 2%Z |}.
Local Abbreviation plain_short :=
  {| item_type := Some "short";
     question := "____ bark.";
     answer := Some "dogs";
     options := None;
     correct_idx := None |}.
Local Abbreviation plain_draws := [0; 0; 4; 0; 2; 1; 2; 0; 0; 0; 2].

Lemma plain_run :
  plain_quiz "Cats sleep. Dogs bark." 2 plain_draws = [plain_mcq; plain_short].
Proof. reflexivity. Qed.

(** X5, witness. *)
Lemma quiz_type_policy_witness :
  nth_error (plain_quiz "Cats sleep. Dogs bark." 2 plain_draws) 1 = Some plain_short /\
  item_type plain_short = Some (if (1 <? 2 / 2)%nat then "mcq" else "short").
Proof.
  assert (H : nth_error (plain_quiz "Cats sleep. Dogs bark." 2 plain_draws) 1
              = Some plain_short) by reflexivity.
  split; [exact H|].
  exact (quiz_type_policy PlainText.sent_tokenize PlainText.word_tokenize
           PlainText.pos_tag PlainText.list_of_set _ _ _ _ _ H).
Defined.

(** X6, witness. *)
Lemma mcq_distractors_from_lexicon_witness :
  nth_error (plain_quiz "Cats sleep. Dogs bark." 2 plain_draws) 0 = Some plain_mcq /\
  item_type plain_mcq = Some "mcq" /\
  exists correct opts ds,
    answer plain_mcq = Some correct /\ options plain_mcq = Some opts /\
    Permutation opts (correct :: ds) /\
    NoDup ds /\ incl ds lexicon /\ List.length ds = 3.
Proof.
  assert (H : nth_error (plain_quiz "Cats sleep. Dogs bark." 2 plain_draws) 0
              = Some plain_mcq) by reflexivity.
  split; [exact H|]. split; [reflexivity|].
  exact (mcq_distractors_from_lexicon PlainText.sent_tokenize PlainText.word_tokenize
           PlainText.pos_tag PlainText.list_of_set _ _ _ _ _ H eq_refl).
Defined.

(** X8, witness: "cats" occurs in "Cats sleep." and is blanked. *)
Lemma question_shows_blank_or_sentence_witness :
  ci_occurs "cats" "Cats sleep." = true /\
  question_text "cats" "Cats sleep." = "____ sleep." /\
  contains "____" (question_text "cats" "Cats sleep.") = true.
Proof.
  split; [reflexivity|]. split; [reflexivity|].
  apply (proj1 (question_shows_blank_or_sentence PlainText.sent_tokenize
                  PlainText.word_tokenize PlainText.pos_tag PlainText.list_of_set)).
  reflexivity.
Defined.

(** X9, witness. *)
Lemma quiz_items_shape_witness :
  nth_error (plain_quiz "Cats sleep. Dogs bark." 2 plain_draws) 1 = Some plain_short /\
  ((item_type plain_short = Some "short" /\
    (exists key, answer plain_short = Some key /\ lower key = key) /\
    options plain_short = None /\ correct_idx plain_short = None) \/
   (item_type plain_short = Some "mcq" /\
    exists correct opts idx,
      answer plain_short = Some correct /\ options plain_short = Some opts /\
      correct_idx plain_short = Some idx)).
Proof.
  assert (H : nth_error (plain_quiz "Cats sleep. Dogs bark." 2 plain_draws) 1
              = Some plain_short) by reflexivity.
  split; [exact H|].
  exact (quiz_items_shape PlainText.sent_tokenize PlainText.word_tokenize
           PlainText.pos_tag PlainText.list_of_set _ _ _ _ _ H).
Defined.

(** X10, witness: the number 1.5 submitted to the short-answer item. *)
Lemma generated_item_gradable_witness :
  nth_error (plain_quiz "Cats sleep. Dogs bark." 2 plain_draws) 1 = Some plain_short /\
  grade_item plain_short (JFloat (Finite (3 # 2))) = None /\
  grade_item plain_short (JStr "1.5") <> None /\
  grade_item plain_short (JInt 0) <> None.
Proof.
  assert (H : nth_error (plain_quiz "Cats sleep. Dogs bark." 2 plain_draws) 1
              = Some plain_short) by reflexivity.
  split; [exact H|].
  destruct (generated_item_gradable PlainText.sent_tokenize PlainText.word_tokenize
              PlainText.pos_tag PlainText.list_of_set _ _ _ _ _ H
              (JFloat (Finite (3 # 2))))
    as [Hiff [Hstr _]].
  destruct (generated_item_gradable PlainText.sent_tokenize PlainText.word_tokenize
              PlainText.pos_tag PlainText.list_of_set _ _ _ _ _ H (JInt 0))
    as [_ [_ [Hfalsy _]]].
  split; [|split; [apply Hstr|apply Hfalsy; reflexivity]].
  apply Hiff. split; [reflexivity|]. discriminate.
Defined.

(** X11, witness: one right and one wrong answer. *)
Lemma grading_is_pairwise_witness :
  let st := {| score := 1; total := 2; percentage := 500 # 10;
               per_question := [1; 0]; weak_areas := ["dogs"] |} in
  feedback PlainText.list_of_set [plain_mcq; plain_short] [JInt 2; JStr "cats"]
    = Some st /\
  per_question st =
    map grade_bit (combine [plain_mcq; plain_short] [JInt 2; JStr "cats"]).
Proof.
  intros st.
  assert (H : feedback PlainText.list_of_set [plain_mcq; plain_short]
                       [JInt 2; JStr "cats"] = Some st) by reflexivity.
  split; [exact H|].
  exact (proj1 (grading_is_pairwise PlainText.list_of_set _ _ _ H)).
Defined.

(** X12, witness. *)
Lemma score_and_misses_witness :
  let st := {| score := 1; total := 2; percentage := 500 # 10;
               per_question := [1; 0]; weak_areas := ["dogs"] |} in
  feedback PlainText.list_of_set [plain_mcq; plain_short] [JInt 2; JStr "cats"]
    = Some st /\
  score st +
  List.length (filter missed (combine [plain_mcq; plain_short]
                                      [JInt 2; JStr "cats"])) =
  List.length (per_question st).
Proof.
  intros st.
  assert (H : feedback PlainText.list_of_set [plain_mcq; plain_short]
                       [JInt 2; JStr "cats"] = Some st) by reflexivity.
  split; [exact H|].
  exact (proj1 (score_and_misses PlainText.list_of_set
                  (fun l x => nodup_In string_dec l x) _ _ _ H)).
Defined.

(** X13, witness: [{"answers": null}], and the number 7 submitted as
    the second answer. *)
Lemma grading_raises_iff_witness :
  let s := {| session_summary := Some "Cats sleep. Dogs bark.";
              session_raw_text := Some "Cats sleep. Dogs bark.";
              session_quiz := Some [plain_mcq; plain_short];
              session_stats := None |} in
  unreadable (JObject [("answers", JNull)]) /\
  feedback_api PlainText.list_of_set "2025-01-01 00:00:00"
               (JObject [("answers", JNull)]) s [] = None /\
  feedback_api PlainText.list_of_set "2025-01-01 00:00:00"
               (JObject [("answers", JArray [JInt 2; JInt 7])]) s [] = None.
Proof.
  intros s.
  assert (U : unreadable (JObject [("answers", JNull)])).
  { exists JNull. split; [reflexivity|exact I]. }
  split; [exact U|]. split.
  - apply (grading_raises_iff PlainText.list_of_set). left. exact U.
  - apply (grading_raises_iff PlainText.list_of_set). right.
    exists [JInt 2; JInt 7], 1, plain_short, (JInt 7). repeat split.
Defined.

(** X14, witness. *)
Lemma answer_sheet_gets_full_marks_witness :
  exists st,
    feedback PlainText.list_of_set [plain_mcq; plain_short]
             (map answer_key [plain_mcq; plain_short]) = Some st /\
    score st = 2 /\ per_question st = [1; 1] /\ weak_areas st = [] /\
    ([plain_mcq; plain_short] <> [] -> (percentage st == 100)%Q).
Proof.
  apply (answer_sheet_gets_full_marks PlainText.list_of_set
           (fun l x => nodup_In string_dec l x) [plain_mcq; plain_short]).
  intros q [<-|[<-|[]]].
  - left. split; [reflexivity|]. now exists 2%Z.
  - right. split; [reflexivity|]. split; [reflexivity|].
    exists "dogs". repeat split. discriminate.
Defined.

Local Abbreviation fresh_session :=
  {| session_summary := None; session_raw_text := None;
     session_quiz := None; session_stats := None |}.
Local Abbreviation plain_summarize :=
  (summarize_api PlainText.sent_tokenize PlainText.word_tokenize
                 PlainText.stop_words exact_div Qle_bool).
Local Abbreviation plain_quiz_page :=
  (quiz_page PlainText.sent_tokenize PlainText.word_tokenize
             PlainText.pos_tag PlainText.list_of_set).


(** X16, witness: a session with a two-sentence summary. *)
Lemma quiz_page_spec_witness :
  let s := {| session_summary := Some "Cats sleep. Dogs bark.";
              session_raw_text := Some "Cats sleep. Dogs bark.";
              session_quiz := None; session_stats := None |} in
  summary_of s <> "" /\
  plain_quiz_page fresh_session plain_draws =
    (Redirect "/summarize-page", fresh_session, plain_draws) /\
  exists quiz r',
    plain_quiz_page s plain_draws =
      (RenderQuiz quiz,
       {| session_summary := session_summary s;
          session_raw_text := session_raw_text s;
          session_quiz := Some quiz;
          session_stats := session_stats s |}, r') /\
    1 <= List.length quiz <= 6.
Proof.
  intros s. split; [discriminate|].
  destruct (quiz_page_spec PlainText.sent_tokenize PlainText.word_tokenize
              PlainText.pos_tag PlainText.list_of_set fresh_session plain_draws)
    as [H0 _].
  split; [apply H0; reflexivity|].
  destruct (quiz_page_spec PlainText.sent_tokenize PlainText.word_tokenize
              PlainText.pos_tag PlainText.list_of_set s plain_draws) as [_ H].
  destruct H as [quiz [r' [E [Hl _]]]]; [discriminate|].
  exists quiz, r'. split; assumption.
Defined.

(** X17, witness: a summary of white space only has no sentence. *)
Lemma placeholder_quiz_can_be_submitted_witness :
  let s := {| session_summary := Some " "; session_raw_text := None;
              session_quiz := None; session_stats := None |} in
  let s1 := snd (fst (plain_quiz_page s plain_draws)) in
  summary_of s <> "" /\ PlainText.sent_tokenize (summary_of s) = [] /\
  quiz_of s1 = [info_item] /\
  feedback_api PlainText.list_of_set "2025-01-01 00:00:00"
               (JObject [("answers", JNull)]) s1 [] = None /\
  ~ unreadable (JObject [("answers", JArray [JInt 0])]) /\
  exists st s2 row,
    feedback_api PlainText.list_of_set "2025-01-01 00:00:00"
                 (JObject [("answers", JArray [JInt 0])]) s1 [] =
      Some (JsonRedirect "/results", s2, [row]) /\
    session_stats s2 = Some st /\ score st = 0 /\ total st = 1.
Proof.
  intros s s1.
  assert (Hne : summary_of s <> "") by discriminate.
  assert (Hs : PlainText.sent_tokenize (summary_of s) = []) by reflexivity.
  assert (Hr : ~ unreadable (JObject [("answers", JArray [JInt 0])])).
  { intros [v [E H]]. injection E as <-. exact H. }
  split; [exact Hne|]. split; [exact Hs|].
  destruct (placeholder_quiz_can_be_submitted
              PlainText.sent_tokenize PlainText.word_tokenize PlainText.pos_tag
              PlainText.list_of_set (fun l x => nodup_In string_dec l x)
              s plain_draws "2025-01-01 00:00:00"
              (JObject [("answers", JNull)]) [] Hne Hs) as [Hq [Hnone _]].
  destruct (placeholder_quiz_can_be_submitted
              PlainText.sent_tokenize PlainText.word_tokenize PlainText.pos_tag
              PlainText.list_of_set (fun l x => nodup_In string_dec l x)
              s plain_draws "2025-01-01 00:00:00"
              (JObject [("answers", JArray [JInt 0])]) [] Hne Hs) as [_ [_ Hsome]].
  split; [exact Hq|]. split.
  { apply Hnone. exists JNull. split; [reflexivity|exact I]. }
  split; [exact Hr|].
  destruct (Hsome Hr) as [st [s2 [row [E [H1 [H2 [H3 _]]]]]]].
  exists st, s2, row. repeat split; assumption.
Defined.

(** X18, witness: answers submitted to a fresh session. *)
Lemma feedback_without_quiz_witness :
  session_quiz fresh_session = None /\
  feedback_api PlainText.list_of_set "2025-01-01 00:00:00"
               (JObject [("answers", JNull)]) fresh_session [] = None /\
  ~ unreadable (JObject [("answers", JArray [JInt 1; JStr "cats"])]) /\
  exists st s2 row,
    feedback_api PlainText.list_of_set "2025-01-01 00:00:00"
                 (JObject [("answers", JArray [JInt 1; JStr "cats"])])
                 fresh_session [] =
      Some (JsonRedirect "/results", s2, [row]) /\
    session_stats s2 = Some st /\ score st = 0 /\ total st = 1.
Proof.
  assert (Hr : ~ unreadable (JObject [("answers", JArray [JInt 1; JStr "cats"])])).
  { intros [v [E H]]. injection E as <-. exact H. }
  split; [reflexivity|].
  destruct (feedback_without_quiz PlainText.list_of_set
              (fun l x => nodup_In string_dec l x) fresh_session
              "2025-01-01 00:00:00" (JObject [("answers", JNull)]) [] eq_refl)
    as [Hnone _].
  destruct (feedback_without_quiz PlainText.list_of_set
              (fun l x => nodup_In string_dec l x) fresh_session
              "2025-01-01 00:00:00"
              (JObject [("answers", JArray [JInt 1; JStr "cats"])]) [] eq_refl)
    as [_ Hsome].
  split.
  { apply Hnone. exists JNull. split; [reflexivity|exact I]. }
  split; [exact Hr|].
  destruct (Hsome Hr) as [st [s2 [row [E [H1 [H2 [H3 _]]]]]]].
  exists st, s2, row. repeat split; assumption.
Defined.

(** X19, witness: the first submission ever, on the empty table. *)
Lemma feedback_is_shown_witness :
  let s := {| session_summary := Some "Cats sleep. Dogs bark.";
              session_raw_text := Some "Cats sleep. Dogs bark.";
              session_quiz := Some [plain_mcq; plain_short];
              session_stats := None |} in
  let st := {| score := 1; total := 2; percentage := 500 # 10;
               per_question := [1; 0]; weak_areas := ["dogs"] |} in
  let s' := {| session_summary := session_summary s;
               session_raw_text := session_raw_text s;
               session_quiz := session_quiz s;
               session_stats := Some st |} in
  let row := {| row_id := 1; row_created_at := "2025-01-01 00:00:00";
                row_title := "Study Session";
                row_summary := "Cats sleep. Dogs bark.";
                row_score := 1; row_total := 2; row_percentage := 500 # 10 |} in
  feedback_api PlainText.list_of_set "2025-01-01 00:00:00"
               (JObject [("answers", JArray [JInt 2; JStr "cats"])]) s [] =
    Some (JsonRedirect "/results", s', [row]) /\
  ids_ascending [] /\
  results_page s' = RenderFeedback st /\
  history_page [row] = RenderHistory [entry_of row].
Proof.
  intros s st s' row.
  assert (H : feedback_api PlainText.list_of_set "2025-01-01 00:00:00"
                           (JObject [("answers", JArray [JInt 2; JStr "cats"])])
                           s [] =
              Some (JsonRedirect "/results", s', [row])) by reflexivity.
  assert (Ha : ids_ascending []) by constructor.
  split; [exact H|]. split; [exact Ha|].
  destruct (feedback_is_shown PlainText.list_of_set _ _ _ _ _ _ _ H)
    as [answers [st0 [Ea [E [_ [Hres [_ [_ [_ Hhist]]]]]]]]].
  change (Some [JInt 2; JStr "cats"] = Some answers) in Ea. injection Ea as <-.
  change (Some st = Some st0) in E. injection E as <-.
  split; [exact Hres|].
  destruct (Hhist Ha) as [_ Hh]. exact Hh.
Defined.

(** X20, witness: two rows, the later one listed first. *)
Lemma history_lists_latest_first_witness :
  let row1 := {| row_id := 1; row_created_at := "2025-01-01 00:00:00";
                 row_title := "Study Session"; row_summary := "Cats sleep.";
                 row_score := 1; row_total := 2; row_percentage := 500 # 10 |} in
  let row2 := {| row_id := 2; row_created_at := "2025-01-02 00:00:00";
                 row_title := "Study Session"; row_summary := "Cats sleep.";
                 row_score := 2; row_total := 2; row_percentage := 1000 # 10 |} in
  ids_ascending [row1; row2] /\
  history_page [row1; row2] = RenderHistory [entry_of row2; entry_of row1].
Proof.
  intros row1 row2.
  assert (Ha : ids_ascending [row1; row2]).
  { unfold ids_ascending. simpl. repeat constructor. }
  split; [exact Ha|].
  exact (history_lists_latest_first [row1; row2] Ha).
Defined.

(** ** The blank and the submitted text *)

Module TextMore.
Import StrFacts StrMore.

Lemma ci_prefix_split (pat s : string) :
  ci_prefix pat s = true ->
  exists m, s = String.append m (drop (String.length pat) s) /\
            String.length m = String.length pat /\ lower m = lower pat.
Proof.
  revert s. induction pat as [|a pat IH]; intros s H.
  - exists "". repeat split.
  - destruct s as [|b s]; [discriminate|].
    simpl in H. apply andb_true_iff in H. destruct H as [Hab H].
    apply Ascii.eqb_eq in Hab.
    destruct (IH s H) as [m [E [Hl Hm]]].
    exists (String b m). simpl. split; [now rewrite <- E|].
    split; [now rewrite Hl|].
    unfold lower in *. simpl. now rewrite Hm, Hab.
Qed.

(** X21: what blanking does to the sentence.  When the target occurs (up
    to case) in the sentence, the substitution splits the sentence around
    the leftmost occurrence, keeps what is before and after it as it is
    and puts the blank marker in place of the occurrence alone. *)
Theorem blank_replaces_leftmost_occurrence (target sent : string) :
  ci_occurs target sent = true ->
  exists before occurrence rest,
    sent = String.append before (String.append occurrence rest) /\
    String.length occurrence = String.length target /\
    lower occurrence = lower target /\
    re_sub_first target "____" sent =
      String.append before (String.append "____" rest) /\
    (forall k, k < String.length before ->
               ci_prefix target (drop k sent) = false).
Proof.
  induction sent as [|c r IH]; intros H;
    rewrite ci_occurs_eq in H; rewrite re_sub_first_eq.
  - rewrite orb_false_r in H. rewrite H.
    destruct (ci_prefix_split _ _ H) as [m [E [Hl Hm]]].
    exists "", m, (drop (String.length target) "").
    repeat split; try assumption. intros k Hk. simpl in Hk. lia.
  - destruct (ci_prefix target (String c r)) eqn:P.
    + destruct (ci_prefix_split _ _ P) as [m [E [Hl Hm]]].
      exists "", m, (drop (String.length target) (String c r)).
      repeat split; try assumption. intros k Hk. simpl in Hk. lia.
    + simpl in H. destruct (IH H) as [before [occ [rest [E [Hl [Hm [Hs Hk]]]]]]].
      exists (String c before), occ, rest.
      split; [simpl; now rewrite <- E|]. split; [assumption|].
      split; [assumption|]. split; [simpl; now rewrite Hs|].
      intros k Hlt. destruct k as [|k]; [exact P|].
      simpl. apply Hk. simpl in Hlt. lia.
Qed.

Lemma is_space_char_lower (c : ascii) : is_space (char_lower c) = is_space c.
Proof.
  destruct c as [[] [] [] [] [] [] [] []]; vm_compute; reflexivity.
Qed.

Lemma lstrip_lower (s : string) :
  lstrip_by is_space (lower s) = lower (lstrip_by is_space s).
Proof.
  unfold lower. induction s as [|c r IH]; simpl; [reflexivity|].
  rewrite is_space_char_lower. now destruct (is_space c).
Qed.

Lemma rstrip_lower (s : string) :
  rstrip_by is_space (lower s) = lower (rstrip_by is_space s).
Proof.
  unfold lower. induction s as [|c r IH]; simpl; [reflexivity|].
  rewrite IH, is_space_char_lower.
  destruct (rstrip_by is_space r); simpl; [now destruct (is_space c)|reflexivity].
Qed.

Lemma strip_lower (s : string) : strip (lower s) = lower (strip s).
Proof. unfold strip, strip_by. now rewrite lstrip_lower, rstrip_lower. Qed.

Lemma rstrip_idem (p : ascii -> bool) (s : string) :
  rstrip_by p (rstrip_by p s) = rstrip_by p s.
Proof.
  induction s as [|c r IH]; simpl; [reflexivity|].
  destruct (rstrip_by p r) as [|d r'] eqn:E.
  - destruct (p c) eqn:Pc; simpl; [reflexivity|now rewrite Pc].
  - simpl in IH. simpl. now rewrite IH.
Qed.

Lemma lstrip_head (p : ascii -> bool) (s : string) :
  match lstrip_by p s with
  | EmptyString => True
  | String c _ => p c = false
  end.
Proof.
  induction s as [|c r IH]; simpl; [exact I|].
  destruct (p c) eqn:E; [exact IH|exact E].
Qed.

Lemma strip_idem (s : string) : strip (strip s) = strip s.
Proof.
  unfold strip, strip_by.
  pose proof (lstrip_head is_space s) as Hh.
  destruct (lstrip_by is_space s) as [|c r] eqn:E; [reflexivity|].
  assert (L : lstrip_by is_space (rstrip_by is_space (String c r)) =
              rstrip_by is_space (String c r)).
  { simpl. destruct (rstrip_by is_space r); rewrite ?Hh; simpl; now rewrite Hh. }
  rewrite L. apply rstrip_idem.
Qed.

(** X22: what short-answer grading ignores.  The grade of a submitted
    string does not change when the string is put in lower case or its
    surrounding white space is removed, whatever the item. *)
Theorem grading_ignores_case_and_margins (q : QuizItem) (s : string) :
  grade_item q (JStr (lower s)) = grade_item q (JStr s) /\
  grade_item q (JStr (strip s)) = grade_item q (JStr s).
Proof.
  unfold grade_item.
  destruct (String.eqb (match item_type q with Some t => t | None => "mcq" end)
                       "mcq"); [split; reflexivity|].
  destruct (String.eqb (match item_type q with Some t => t | None => "mcq" end)
                       "short"); [|split; reflexivity].
  simpl. rewrite strip_lower, lower_idem, strip_idem. split; reflexivity.
Qed.

End TextMore.

(** X21, witness. *)
Lemma blank_replaces_leftmost_occurrence_witness :
  ci_occurs "dogs" "Big Dogs chase dogs." = true /\
  re_sub_first "dogs" "____" "Big Dogs chase dogs." = "Big ____ chase dogs." /\
  exists before occurrence rest,
    "Big Dogs chase dogs." = String.append before (String.append occurrence rest) /\
    String.length occurrence = String.length "dogs" /\
    lower occurrence = lower "dogs" /\
    re_sub_first "dogs" "____" "Big Dogs chase dogs." =
      String.append before (String.append "____" rest) /\
    (forall k, k < String.length before ->
               ci_prefix "dogs" (drop k "Big Dogs chase dogs.") = false).
Proof.
  split; [reflexivity|]. split; [reflexivity|].
  apply (TextMore.blank_replaces_leftmost_occurrence "dogs" "Big Dogs chase dogs.").
  reflexivity.
Defined.
